(** * Mixer-Beamforming: the phased-array physics model of [src/js/PhasedArray.js]

    A shallow embedding of the [PhasedArray] class (constructor, setters,
    lazy recomputation of element geometry and phase delays, element data,
    beam pattern, field evaluation, serialization), of the
    [SimulationContext] class of the same file and of the coordinate maps of
    the overlay of [src/js/AppController.js], and the properties of the
    specification that are settled against them.

    Numbers.  A JavaScript number is modelled by [number]: a real number, one
    of the two infinities, or NaN.  Arithmetic on finite values is the exact
    real operation (rounding and overflow of binary64 are not modelled, and
    there is a single zero, treated as +0 where its sign would matter); the
    special values follow IEEE 754 / ECMAScript.

    State.  An instance is a record of its fields; a setter maps an instance
    to the updated instance, and a method that may refresh the cache returns
    the instance after the call together with its value.  The static
    [_idCounter] is passed to and returned by the constructor.

    Loops.  [for (let i = 0; i < n; i++)] runs on a number [n] that need not
    be whole or finite, so the loop is modelled with a fuel; a method
    returns a [result]: a value, a thrown [TypeError], or out of fuel.  For
    a whole [n], fuel [n] suffices ([recalculate_nat]). *)

From Stdlib Require Import Reals Lra Lia List ZArith String Bool Arith.
From Stdlib Require Import DecimalString.
Import ListNotations.

Open Scope R_scope.

(* ================================================================== *)
(** * JavaScript numbers *)
(* ================================================================== *)

Module JS.

Inductive number : Type :=
| Fin (r : R)
| PInf
| NInf
| NaN.

(** Sign of a real relative to zero. *)
Definition Rsign (r : R) : comparison :=
  match total_order_T r 0 with
  | inleft (left _) => Lt
  | inleft (right _) => Eq
  | inright _ => Gt
  end.

(** The infinity of a given sign; a zero sign stands for [Infinity * 0]. *)
Definition inf_of (c : comparison) : number :=
  match c with
  | Gt => PInf
  | Lt => NInf
  | Eq => NaN
  end.

(** Unary minus. *)
Definition neg (a : number) : number :=
  match a with
  | Fin x => Fin (- x)
  | PInf => NInf
  | NInf => PInf
  | NaN => NaN
  end.

(** [a + b] *)
Definition add (a b : number) : number :=
  match a, b with
  | NaN, _ | _, NaN => NaN
  | Fin x, Fin y => Fin (x + y)
  | PInf, NInf | NInf, PInf => NaN
  | PInf, _ | _, PInf => PInf
  | NInf, _ | _, NInf => NInf
  end.

(** [a - b] *)
Definition sub (a b : number) : number := add a (neg b).

(** [a * b] *)
Definition mul (a b : number) : number :=
  match a, b with
  | NaN, _ | _, NaN => NaN
  | Fin x, Fin y => Fin (x * y)
  | PInf, Fin y | Fin y, PInf => inf_of (Rsign y)
  | NInf, Fin y | Fin y, NInf => inf_of (CompOpp (Rsign y))
  | PInf, PInf | NInf, NInf => PInf
  | PInf, NInf | NInf, PInf => NInf
  end.

(** [a / b]; a finite zero divisor is +0. *)
Definition div (a b : number) : number :=
  match a, b with
  | NaN, _ | _, NaN => NaN
  | Fin x, Fin y => if Req_dec_T y 0 then inf_of (Rsign x) else Fin (x / y)
  | Fin _, (PInf | NInf) => Fin 0
  | PInf, Fin y => if Rlt_dec y 0 then NInf else PInf
  | NInf, Fin y => if Rlt_dec y 0 then PInf else NInf
  | (PInf | NInf), (PInf | NInf) => NaN
  end.

(** Truncation toward zero of a real, as an integer. *)
Definition Rtrunc (r : R) : Z :=
  if Rle_dec 0 r then Int_part r else (- Int_part (- r))%Z.

(** [a % b]: the remainder takes the sign of the dividend. *)
Definition rem (a b : number) : number :=
  match a, b with
  | NaN, _ | _, NaN => NaN
  | (PInf | NInf), _ => NaN
  | Fin x, (PInf | NInf) => Fin x
  | Fin x, Fin y =>
      if Req_dec_T y 0 then NaN else Fin (x - y * IZR (Rtrunc (x / y)))
  end.

(** [a < b] *)
Definition lt (a b : number) : bool :=
  match a, b with
  | NaN, _ | _, NaN => false
  | Fin x, Fin y => if Rlt_dec x y then true else false
  | _, NInf => false
  | NInf, _ => true
  | PInf, _ => false
  | _, PInf => true
  end.

(** [a <= b] *)
Definition le (a b : number) : bool :=
  match a, b with
  | NaN, _ | _, NaN => false
  | Fin x, Fin y => if Rle_dec x y then true else false
  | NInf, _ => true
  | _, PInf => true
  | PInf, _ => false
  | _, NInf => false
  end.

(** Truthiness of a number: [0] and [NaN] are falsy. *)
Definition truthy (a : number) : bool :=
  match a with
  | Fin x => if Req_dec_T x 0 then false else true
  | PInf | NInf => true
  | NaN => false
  end.

(** [a || b] on numbers. *)
Definition or_ (a b : number) : number := if truthy a then a else b.

(** [isFinite(a)] *)
Definition isFinite (a : number) : bool :=
  match a with
  | Fin _ => true
  | _ => false
  end.

Module Math.

Definition PI : number := Fin Rtrigo1.PI.

(** [Math.max(a, b)] *)
Definition max (a b : number) : number :=
  match a, b with
  | NaN, _ | _, NaN => NaN
  | _, _ => if lt a b then b else a
  end.

(** [Math.min(a, b)] *)
Definition min (a b : number) : number :=
  match a, b with
  | NaN, _ | _, NaN => NaN
  | _, _ => if lt b a then b else a
  end.

(** [Math.round(a)]: nearest integer, halves toward +Infinity. *)
Definition round (a : number) : number :=
  match a with
  | Fin x => Fin (IZR (Int_part (x + / 2)))
  | _ => a
  end.

Definition sin (a : number) : number :=
  match a with
  | Fin x => Fin (Rtrigo_def.sin x)
  | _ => NaN
  end.

Definition cos (a : number) : number :=
  match a with
  | Fin x => Fin (Rtrigo_def.cos x)
  | _ => NaN
  end.

(** [Math.sqrt(a)] *)
Definition sqrt (a : number) : number :=
  match a with
  | Fin x => if Rlt_dec x 0 then NaN else Fin (R_sqrt.sqrt x)
  | PInf => PInf
  | NInf | NaN => NaN
  end.

(** [Math.pow(a, 2)] and [a ** 2] *)
Definition pow2 (a : number) : number := mul a a.

End Math.

(** An absent ([undefined]) operand converts to NaN in arithmetic. *)
Definition toNumber (v : option number) : number :=
  match v with
  | Some a => a
  | None => NaN
  end.

(** [v || d] where [v] may be [undefined]. *)
Definition or_default (v : option number) (d : number) : number :=
  match v with
  | Some a => or_ a d
  | None => d
  end.

(** Outcome of running a method: a value, a thrown [TypeError], or the
    iteration budget of the model exhausted before the loop ended. *)
Inductive result (A : Type) : Type :=
| Ok (a : A)
| Throw
| OutOfFuel.
Arguments Ok {A} a.
Arguments Throw {A}.
Arguments OutOfFuel {A}.

Definition bind {A B : Type} (m : result A) (f : A -> result B) : result B :=
  match m with
  | Ok a => f a
  | Throw => Throw
  | OutOfFuel => OutOfFuel
  end.

(** [for (let i = i0; i < n; i++) body] threading an accumulator. *)
Fixpoint for_lt {A : Type} (fuel : nat) (i : nat) (n : number)
         (body : nat -> A -> result A) (acc : A) : result A :=
  if lt (Fin (INR i)) n then
    match fuel with
    | O => OutOfFuel
    | S fuel' => bind (body i acc) (for_lt fuel' (S i) n body)
    end
  else Ok acc.

(** [arr.forEach((e, i) => ...)] threading an accumulator. *)
Definition forEach {E A : Type} (arr : list E) (f : A -> E -> nat -> A)
           (acc : A) : A :=
  fold_left (fun a ie => f a (snd ie) (fst ie))
            (combine (seq 0 (List.length arr)) arr) acc.

(** [arr.map((e, i) => ...)] *)
Definition map_i {E B : Type} (arr : list E) (f : E -> nat -> B) : list B :=
  map (fun ie => f (snd ie) (fst ie)) (combine (seq 0 (List.length arr)) arr).

End JS.

(* ================================================================== *)
(** * The PhasedArray class *)
(* ================================================================== *)

Import JS.

(** A position object [{x, y}]; an absent coordinate behaves as NaN in all
    the arithmetic and in [||], and is represented by it. *)
Record Point : Type := mkPoint { px : number; py : number }.

(** An entry of [_elementPositions]; [normalAngle] exists for curved arrays. *)
Record ElementPos : Type := mkElementPos {
  pos_x : number;
  pos_y : number;
  localIndex : nat;
  normalAngle : option number
}.

(** An entry of the sequence returned by [getElementData]; [phase] is
    [this._elementPhases[i]], which is [undefined] out of range. *)
Record ElementData : Type := mkElementData {
  ed_x : number;
  ed_y : number;
  ed_phase : option number;
  ed_amplitude : number
}.

(** The configuration object taken by the constructor and produced by
    [toJSON]: every field may be absent. *)
Record Config : Type := mkConfig {
  cfg_name : option string;
  cfg_numElements : option number;
  cfg_pitch : option number;
  cfg_frequency : option number;
  cfg_steeringAngle : option number;
  cfg_position : option Point;
  cfg_geometry : option string;
  cfg_curvatureRadius : option number;
  cfg_orientation : option number;
  cfg_focalDistance : option number;
  cfg_amplitude : option number;
  cfg_speedOfSound : option number;
  cfg_enabled : option bool
}.

(** The empty configuration [{}]. *)
Definition emptyConfig : Config :=
  mkConfig None None None None None None None None None None None None None.

(** The fields of a [PhasedArray] instance. *)
Record PhasedArray : Type := mkPhasedArray {
  id : nat;
  name : string;
  _numElements : number;
  _pitch : number;
  _frequency : number;
  _steeringAngle : number;
  _position : Point;
  _geometry : string;
  _curvatureRadius : number;
  _orientation : number;
  _focalDistance : number;
  _amplitude : number;
  _enabled : bool;
  _speedOfSound : number;
  _elementPositions : list ElementPos;
  _elementPhases : list number;
  _wavelength : number;
  _dirty : bool
}.

(** Field assignments [this._f = v]. *)
Definition with_numElements (v : number) (a : PhasedArray) : PhasedArray :=
  mkPhasedArray (id a) (name a) v (_pitch a) (_frequency a) (_steeringAngle a)
    (_position a) (_geometry a) (_curvatureRadius a) (_orientation a)
    (_focalDistance a) (_amplitude a) (_enabled a) (_speedOfSound a)
    (_elementPositions a) (_elementPhases a) (_wavelength a) (_dirty a).

Definition with_pitch (v : number) (a : PhasedArray) : PhasedArray :=
  mkPhasedArray (id a) (name a) (_numElements a) v (_frequency a)
    (_steeringAngle a) (_position a) (_geometry a) (_curvatureRadius a)
    (_orientation a) (_focalDistance a) (_amplitude a) (_enabled a)
    (_speedOfSound a) (_elementPositions a) (_elementPhases a) (_wavelength a)
    (_dirty a).

Definition with_frequency (v : number) (a : PhasedArray) : PhasedArray :=
  mkPhasedArray (id a) (name a) (_numElements a) (_pitch a) v
    (_steeringAngle a) (_position a) (_geometry a) (_curvatureRadius a)
    (_orientation a) (_focalDistance a) (_amplitude a) (_enabled a)
    (_speedOfSound a) (_elementPositions a) (_elementPhases a) (_wavelength a)
    (_dirty a).

Definition with_steeringAngle (v : number) (a : PhasedArray) : PhasedArray :=
  mkPhasedArray (id a) (name a) (_numElements a) (_pitch a) (_frequency a) v
    (_position a) (_geometry a) (_curvatureRadius a) (_orientation a)
    (_focalDistance a) (_amplitude a) (_enabled a) (_speedOfSound a)
    (_elementPositions a) (_elementPhases a) (_wavelength a) (_dirty a).

Definition with_position (v : Point) (a : PhasedArray) : PhasedArray :=
  mkPhasedArray (id a) (name a) (_numElements a) (_pitch a) (_frequency a)
    (_steeringAngle a) v (_geometry a) (_curvatureRadius a) (_orientation a)
    (_focalDistance a) (_amplitude a) (_enabled a) (_speedOfSound a)
    (_elementPositions a) (_elementPhases a) (_wavelength a) (_dirty a).

Definition with_geometry (v : string) (a : PhasedArray) : PhasedArray :=
  mkPhasedArray (id a) (name a) (_numElements a) (_pitch a) (_frequency a)
    (_steeringAngle a) (_position a) v (_curvatureRadius a) (_orientation a)
    (_focalDistance a) (_amplitude a) (_enabled a) (_speedOfSound a)
    (_elementPositions a) (_elementPhases a) (_wavelength a) (_dirty a).

Definition with_curvatureRadius (v : number) (a : PhasedArray) : PhasedArray :=
  mkPhasedArray (id a) (name a) (_numElements a) (_pitch a) (_frequency a)
    (_steeringAngle a) (_position a) (_geometry a) v (_orientation a)
    (_focalDistance a) (_amplitude a) (_enabled a) (_speedOfSound a)
    (_elementPositions a) (_elementPhases a) (_wavelength a) (_dirty a).

Definition with_orientation (v : number) (a : PhasedArray) : PhasedArray :=
  mkPhasedArray (id a) (name a) (_numElements a) (_pitch a) (_frequency a)
    (_steeringAngle a) (_position a) (_geometry a) (_curvatureRadius a) v
    (_focalDistance a) (_amplitude a) (_enabled a) (_speedOfSound a)
    (_elementPositions a) (_elementPhases a) (_wavelength a) (_dirty a).

Definition with_focalDistance (v : number) (a : PhasedArray) : PhasedArray :=
  mkPhasedArray (id a) (name a) (_numElements a) (_pitch a) (_frequency a)
    (_steeringAngle a) (_position a) (_geometry a) (_curvatureRadius a)
    (_orientation a) v (_amplitude a) (_enabled a) (_speedOfSound a)
    (_elementPositions a) (_elementPhases a) (_wavelength a) (_dirty a).

Definition with_amplitude (v : number) (a : PhasedArray) : PhasedArray :=
  mkPhasedArray (id a) (name a) (_numElements a) (_pitch a) (_frequency a)
    (_steeringAngle a) (_position a) (_geometry a) (_curvatureRadius a)
    (_orientation a) (_focalDistance a) v (_enabled a) (_speedOfSound a)
    (_elementPositions a) (_elementPhases a) (_wavelength a) (_dirty a).

Definition with_enabled (v : bool) (a : PhasedArray) : PhasedArray :=
  mkPhasedArray (id a) (name a) (_numElements a) (_pitch a) (_frequency a)
    (_steeringAngle a) (_position a) (_geometry a) (_curvatureRadius a)
    (_orientation a) (_focalDistance a) (_amplitude a) v (_speedOfSound a)
    (_elementPositions a) (_elementPhases a) (_wavelength a) (_dirty a).

Definition with_speedOfSound (v : number) (a : PhasedArray) : PhasedArray :=
  mkPhasedArray (id a) (name a) (_numElements a) (_pitch a) (_frequency a)
    (_steeringAngle a) (_position a) (_geometry a) (_curvatureRadius a)
    (_orientation a) (_focalDistance a) (_amplitude a) (_enabled a) v
    (_elementPositions a) (_elementPhases a) (_wavelength a) (_dirty a).

Definition with_elementPositions (v : list ElementPos) (a : PhasedArray)
  : PhasedArray :=
  mkPhasedArray (id a) (name a) (_numElements a) (_pitch a) (_frequency a)
    (_steeringAngle a) (_position a) (_geometry a) (_curvatureRadius a)
    (_orientation a) (_focalDistance a) (_amplitude a) (_enabled a)
    (_speedOfSound a) v (_elementPhases a) (_wavelength a) (_dirty a).

Definition with_elementPhases (v : list number) (a : PhasedArray)
  : PhasedArray :=
  mkPhasedArray (id a) (name a) (_numElements a) (_pitch a) (_frequency a)
    (_steeringAngle a) (_position a) (_geometry a) (_curvatureRadius a)
    (_orientation a) (_focalDistance a) (_amplitude a) (_enabled a)
    (_speedOfSound a) (_elementPositions a) v (_wavelength a) (_dirty a).

Definition with_wavelength (v : number) (a : PhasedArray) : PhasedArray :=
  mkPhasedArray (id a) (name a) (_numElements a) (_pitch a) (_frequency a)
    (_steeringAngle a) (_position a) (_geometry a) (_curvatureRadius a)
    (_orientation a) (_focalDistance a) (_amplitude a) (_enabled a)
    (_speedOfSound a) (_elementPositions a) (_elementPhases a) v (_dirty a).

Definition with_dirty (v : bool) (a : PhasedArray) : PhasedArray :=
  mkPhasedArray (id a) (name a) (_numElements a) (_pitch a) (_frequency a)
    (_steeringAngle a) (_position a) (_geometry a) (_curvatureRadius a)
    (_orientation a) (_focalDistance a) (_amplitude a) (_enabled a)
    (_speedOfSound a) (_elementPositions a) (_elementPhases a) (_wavelength a)
    v.

(** ** Setters *)

Definition set_numElements (value : number) (a : PhasedArray) : PhasedArray :=
  with_dirty true
    (with_numElements
       (Math.max (Fin 1) (Math.min (Fin 64) (Math.round value))) a).

Definition set_pitch (value : number) (a : PhasedArray) : PhasedArray :=
  with_dirty true (with_pitch (Math.max (Fin 0.001) value) a).

Definition set_frequency (value : number) (a : PhasedArray) : PhasedArray :=
  with_dirty true (with_frequency (Math.max (Fin 0.1) value) a).

Definition set_steeringAngle (value : number) (a : PhasedArray)
  : PhasedArray :=
  with_dirty true
    (with_steeringAngle (Math.max (Fin (-90)) (Math.min (Fin 90) value)) a).

Definition set_position (value : Point) (a : PhasedArray) : PhasedArray :=
  with_dirty true
    (with_position (mkPoint (or_ (px value) (Fin 0)) (or_ (py value) (Fin 0)))
       a).

Definition set_geometry (value : string) (a : PhasedArray) : PhasedArray :=
  with_dirty true
    (with_geometry (if String.eqb value "curved" then "curved" else "linear")
       a).

Definition set_curvatureRadius (value : number) (a : PhasedArray)
  : PhasedArray :=
  with_dirty true (with_curvatureRadius (Math.max (Fin 0.01) value) a).

Definition set_orientation (value : number) (a : PhasedArray) : PhasedArray :=
  with_dirty true (with_orientation (rem value (Fin 360)) a).

Definition set_focalDistance (value : number) (a : PhasedArray)
  : PhasedArray :=
  with_dirty true
    (with_focalDistance (if le value (Fin 0) then PInf else value) a).

Definition set_amplitude (value : number) (a : PhasedArray) : PhasedArray :=
  with_amplitude (Math.max (Fin 0) (Math.min (Fin 2) value)) a.

(** [Boolean(value)] is the identity on the booleans the model passes. *)
Definition set_enabled (value : bool) (a : PhasedArray) : PhasedArray :=
  with_enabled value a.

Definition set_speedOfSound (value : number) (a : PhasedArray)
  : PhasedArray :=
  with_dirty true (with_speedOfSound (Math.max (Fin 0.1) value) a).

(** ** Geometry calculations *)

(** Body of the loop of the linear branch: the element pushed at index [i]. *)
Definition linear_element (a : PhasedArray) (i : nat) : ElementPos :=
  let n := _numElements a in
  let orientationRad := div (mul (_orientation a) Math.PI) (Fin 180) in
  let totalWidth := mul (sub n (Fin 1)) (_pitch a) in
  let startOffset := div (neg totalWidth) (Fin 2) in
  let localX := add startOffset (mul (Fin (INR i)) (_pitch a)) in
  let localY := Fin 0 in
  let cos := Math.cos orientationRad in
  let sin := Math.sin orientationRad in
  let worldX :=
    sub (add (px (_position a)) (mul localX cos)) (mul localY sin) in
  let worldY :=
    add (add (py (_position a)) (mul localX sin)) (mul localY cos) in
  mkElementPos worldX worldY i None.

(** Curved branch: [elementAngle] of element [i]. *)
Definition curved_elementAngle (a : PhasedArray) (i : nat) : number :=
  let n := _numElements a in
  let radius := _curvatureRadius a in
  let arcLength := mul (sub n (Fin 1)) (_pitch a) in
  let totalAngle := div arcLength radius in
  let startAngle := div (neg totalAngle) (Fin 2) in
  add startAngle
      (mul (div (Fin (INR i)) (or_ (sub n (Fin 1)) (Fin 1))) totalAngle).

(** Curved branch: local coordinates [(localX, localY)] on the arc. *)
Definition curved_local (a : PhasedArray) (i : nat) : number * number :=
  let radius := _curvatureRadius a in
  let elementAngle := curved_elementAngle a i in
  let localX := mul radius (Math.sin elementAngle) in
  let localY := mul radius (sub (Fin 1) (Math.cos elementAngle)) in
  (localX, localY).

(** Body of the loop of the curved branch. *)
Definition curved_element (a : PhasedArray) (i : nat) : ElementPos :=
  let orientationRad := div (mul (_orientation a) Math.PI) (Fin 180) in
  let elementAngle := curved_elementAngle a i in
  let localX := fst (curved_local a i) in
  let localY := snd (curved_local a i) in
  let cos := Math.cos orientationRad in
  let sin := Math.sin orientationRad in
  let worldX :=
    sub (add (px (_position a)) (mul localX cos)) (mul localY sin) in
  let worldY :=
    add (add (py (_position a)) (mul localX sin)) (mul localY cos) in
  mkElementPos worldX worldY i
    (Some (add (add orientationRad elementAngle) (div Math.PI (Fin 2)))).

(** The element pushed at index [i], by geometry. *)
Definition element_at (a : PhasedArray) (i : nat) : ElementPos :=
  if String.eqb (_geometry a) "linear" then linear_element a i
  else curved_element a i.

Definition _calculateElementPositions (fuel : nat) (a : PhasedArray)
  : result PhasedArray :=
  let a := with_elementPositions [] a in
  let n := _numElements a in
  if String.eqb (_geometry a) "linear" then
    bind (for_lt fuel 0 n
            (fun i acc => Ok (acc ++ [linear_element a i]))
            (_elementPositions a))
         (fun l => Ok (with_elementPositions l a))
  else
    bind (for_lt fuel 0 n
            (fun i acc => Ok (acc ++ [curved_element a i]))
            (_elementPositions a))
         (fun l => Ok (with_elementPositions l a)).

(** ** Phase delay calculations *)

(** Steering direction components [(sinDir, cosDir)]. *)
Definition steeringDir (a : PhasedArray) : number * number :=
  let steeringRad := div (mul (_steeringAngle a) Math.PI) (Fin 180) in
  let orientationRad := div (mul (_orientation a) Math.PI) (Fin 180) in
  (Math.sin (add steeringRad orientationRad),
   Math.cos (add steeringRad orientationRad)).

(** [focalPoint]: [null] unless the focal distance is finite. *)
Definition focalPoint (a : PhasedArray) : option Point :=
  let sinDir := fst (steeringDir a) in
  let cosDir := snd (steeringDir a) in
  if isFinite (_focalDistance a) then
    Some (mkPoint (add (px (_position a)) (mul (_focalDistance a) sinDir))
                  (add (py (_position a)) (mul (_focalDistance a) cosDir)))
  else None.

(** Body of the phase loop once [elemPos] is read: the phase pushed. *)
Definition element_phase (a : PhasedArray) (elemPos : ElementPos) : number :=
  let k := div (mul (Fin 2) Math.PI) (_wavelength a) in
  let sinDir := fst (steeringDir a) in
  let cosDir := snd (steeringDir a) in
  let phase := Fin 0 in
  match focalPoint a with
  | Some fp =>
      let distToFocus :=
        Math.sqrt (add (Math.pow2 (sub (px fp) (pos_x elemPos)))
                       (Math.pow2 (sub (py fp) (pos_y elemPos)))) in
      sub phase (mul k (sub distToFocus (_focalDistance a)))
  | None =>
      let offsetX := sub (pos_x elemPos) (px (_position a)) in
      let offsetY := sub (pos_y elemPos) (py (_position a)) in
      let projection := add (mul offsetX sinDir) (mul offsetY cosDir) in
      sub phase (mul k projection)
  end.

(** Reading a property of [this._elementPositions[i]] throws when the entry
    is [undefined]. *)
Definition _calculatePhaseDelays (fuel : nat) (a : PhasedArray)
  : result PhasedArray :=
  let a := with_elementPhases [] a in
  let n := _numElements a in
  bind (for_lt fuel 0 n
          (fun i acc =>
             match nth_error (_elementPositions a) i with
             | Some elemPos => Ok (acc ++ [element_phase a elemPos])
             | None => Throw
             end)
          (_elementPhases a))
       (fun l => Ok (with_elementPhases l a)).

Definition _recalculate (fuel : nat) (a : PhasedArray) : result PhasedArray :=
  let a := with_wavelength (div (_speedOfSound a) (_frequency a)) a in
  bind (_calculateElementPositions fuel a) (fun a =>
  bind (_calculatePhaseDelays fuel a) (fun a =>
  Ok (with_dirty false a))).

Definition _ensureCalculated (fuel : nat) (a : PhasedArray)
  : result PhasedArray :=
  if _dirty a then _recalculate fuel a else Ok a.

(** ** Public API: every method returns the instance after the call (it may
    have recomputed its cache) together with the returned value. *)

Definition getElementData (fuel : nat) (a : PhasedArray)
  : result (PhasedArray * list ElementData) :=
  bind (_ensureCalculated fuel a) (fun a =>
  if negb (_enabled a) then Ok (a, [])
  else
    Ok (a, map_i (_elementPositions a)
                 (fun pos i =>
                    mkElementData (pos_x pos) (pos_y pos)
                                  (nth_error (_elementPhases a) i)
                                  (_amplitude a)))).

Definition getAperture (a : PhasedArray) : number :=
  if String.eqb (_geometry a) "linear" then
    mul (sub (_numElements a) (Fin 1)) (_pitch a)
  else
    mul (sub (_numElements a) (Fin 1)) (_pitch a).

(** Callback of the [forEach] of [calculateBeamPattern]; the accumulator is
    [(realSum, imagSum)]. *)
Definition beam_step (a : PhasedArray) (angleRad k : number)
           (sums : number * number) (pos : ElementPos) (i : nat)
  : number * number :=
  let phase := toNumber (nth_error (_elementPhases a) i) in
  let amplitude := _amplitude a in
  let pathLength :=
    add (mul (pos_x pos) (Math.sin angleRad))
        (mul (pos_y pos) (Math.cos angleRad)) in
  let totalPhase := add (mul k pathLength) phase in
  (add (fst sums) (mul amplitude (Math.cos totalPhase)),
   add (snd sums) (mul amplitude (Math.sin totalPhase))).

Definition calculateBeamPattern (fuel : nat) (a : PhasedArray)
           (angle : number) : result (PhasedArray * number) :=
  bind (_ensureCalculated fuel a) (fun a =>
  let angleRad := div (mul angle Math.PI) (Fin 180) in
  let k := div (mul (Fin 2) Math.PI) (_wavelength a) in
  let sums :=
    forEach (_elementPositions a) (beam_step a angleRad k) (Fin 0, Fin 0) in
  let realSum := fst sums in
  let imagSum := snd sums in
  let maxIntensity :=
    mul (mul (mul (_numElements a) (_numElements a)) (_amplitude a))
        (_amplitude a) in
  Ok (a, div (add (mul realSum realSum) (mul imagSum imagSum)) maxIntensity)).

(** Callback of the [forEach] of [calculateFieldAt]; an early [return]
    leaves [realSum] as it was. *)
Definition field_step (a : PhasedArray) (qx qy time k omega : number)
           (realSum : number) (pos : ElementPos) (i : nat) : number :=
  let phase := toNumber (nth_error (_elementPhases a) i) in
  let dist :=
    Math.sqrt (add (Math.pow2 (sub qx (pos_x pos)))
                   (Math.pow2 (sub qy (pos_y pos)))) in
  if lt dist (Fin 0.0001) then realSum
  else
    let amp := div (_amplitude a) (Math.sqrt (add dist (Fin 0.01))) in
    let totalPhase := add (sub (mul k dist) (mul omega time)) phase in
    add realSum (mul amp (Math.cos totalPhase)).

(** [time] defaults to [0] when the argument is absent. *)
Definition calculateFieldAt (fuel : nat) (a : PhasedArray)
           (qx qy : number) (time : option number)
  : result (PhasedArray * number) :=
  let time := match time with Some t => t | None => Fin 0 end in
  bind (_ensureCalculated fuel a) (fun a =>
  if negb (_enabled a) then Ok (a, Fin 0)
  else
    let k := div (mul (Fin 2) Math.PI) (_wavelength a) in
    let omega := mul (mul (Fin 2) Math.PI) (_frequency a) in
    let realSum :=
      forEach (_elementPositions a) (field_step a qx qy time k omega)
              (Fin 0) in
    Ok (a, realSum)).

(** ** Serialization *)

Definition toJSON (a : PhasedArray) : Config :=
  mkConfig (Some (name a)) (Some (_numElements a)) (Some (_pitch a))
           (Some (_frequency a)) (Some (_steeringAngle a))
           (Some (mkPoint (px (_position a)) (py (_position a))))
           (Some (_geometry a)) (Some (_curvatureRadius a))
           (Some (_orientation a)) (Some (_focalDistance a))
           (Some (_amplitude a)) (Some (_speedOfSound a))
           (Some (_enabled a)).

(** [s || d] on strings: the empty string is falsy. *)
Definition or_string (v : option string) (d : string) : string :=
  match v with
  | Some s => if String.eqb s EmptyString then d else s
  | None => d
  end.

(** The template literal [`Array ${id}`]. *)
Definition default_name (i : nat) : string :=
  String.append "Array " (NilEmpty.string_of_uint (Nat.to_uint i)).

(** The field assignments of the constructor body, before the initial
    [_recalculate]; [id] is the identifier just generated. *)
Definition assigned_fields (config : Config) (id : nat) : PhasedArray :=
  mkPhasedArray
    id
    (or_string (cfg_name config) (default_name id))
    (or_default (cfg_numElements config) (Fin 16))
    (or_default (cfg_pitch config) (Fin 0.005))
    (or_default (cfg_frequency config) (Fin 40000))
    (or_default (cfg_steeringAngle config) (Fin 0))
    (match cfg_position config with
     | Some p => p
     | None => mkPoint (Fin 0) (Fin (-0.1))
     end)
    (or_string (cfg_geometry config) "linear")
    (or_default (cfg_curvatureRadius config) (Fin 0.1))
    (or_default (cfg_orientation config) (Fin 0))
    (or_default (cfg_focalDistance config) PInf)
    (or_default (cfg_amplitude config) (Fin 1.0))
    true
    (or_default (cfg_speedOfSound config) (Fin 343))
    [] [] (Fin 0) true.

(** [new PhasedArray(config)]: takes the static [_idCounter] and returns the
    instance with the counter after [_generateId]. *)
Definition constructor (fuel : nat) (config : Config) (_idCounter : nat)
  : result (PhasedArray * nat) :=
  let _idCounter := S _idCounter in
  let this := assigned_fields config _idCounter in
  bind (_recalculate fuel this) (fun this => Ok (this, _idCounter)).

Definition fromJSON (fuel : nat) (json : Config) (_idCounter : nat)
  : result (PhasedArray * nat) :=
  constructor fuel json _idCounter.

(** ** Reachable instances *)

(** A call of one of the twelve public setters. *)
Inductive setter : Type :=
| SetNumElements (value : number)
| SetPitch (value : number)
| SetFrequency (value : number)
| SetSteeringAngle (value : number)
| SetPosition (value : Point)
| SetGeometry (value : string)
| SetCurvatureRadius (value : number)
| SetOrientation (value : number)
| SetFocalDistance (value : number)
| SetAmplitude (value : number)
| SetEnabled (value : bool)
| SetSpeedOfSound (value : number).

Definition apply_setter (s : setter) (a : PhasedArray) : PhasedArray :=
  match s with
  | SetNumElements v => set_numElements v a
  | SetPitch v => set_pitch v a
  | SetFrequency v => set_frequency v a
  | SetSteeringAngle v => set_steeringAngle v a
  | SetPosition v => set_position v a
  | SetGeometry v => set_geometry v a
  | SetCurvatureRadius v => set_curvatureRadius v a
  | SetOrientation v => set_orientation v a
  | SetFocalDistance v => set_focalDistance v a
  | SetAmplitude v => set_amplitude v a
  | SetEnabled v => set_enabled v a
  | SetSpeedOfSound v => set_speedOfSound v a
  end.

(** The instances a program can hold: built by the constructor, then
    changed by setters and by the queries (which refresh the cache). *)
Inductive reachable : PhasedArray -> Prop :=
| reach_new fuel config counter a counter' :
    constructor fuel config counter = Ok (a, counter') -> reachable a
| reach_set s a :
    reachable a -> reachable (apply_setter s a)
| reach_query fuel a a' :
    reachable a -> _ensureCalculated fuel a = Ok a' -> reachable a'.

(** The cache of derived attributes. *)
Definition cache (a : PhasedArray)
  : list ElementPos * list number * number :=
  (_elementPositions a, _elementPhases a, _wavelength a).

(** What [_recalculate] leaves when the element count is the natural
    number [n]. *)
Definition recalculated (a : PhasedArray) (n : nat) : PhasedArray :=
  let a := with_wavelength (div (_speedOfSound a) (_frequency a)) a in
  let positions := map (element_at a) (seq 0 n) in
  let phases :=
    map (fun i => element_phase a (element_at a i)) (seq 0 n) in
  with_dirty false (with_elementPhases phases (with_elementPositions positions a)).

(** The cache agrees with the configuration: recomputing changes nothing. *)
Definition coherent (a : PhasedArray) : Prop :=
  _dirty a = false -> exists fuel, _recalculate fuel a = Ok a.

(** The value part of a method's outcome. *)
Definition returned {S A : Type} (r : result (S * A)) : option A :=
  match r with
  | Ok (_, v) => Some v
  | _ => None
  end.

(** [_recalculate] as one expression: the position loop, then the phase
    loop reading the positions just built. *)
Definition recalculate_loops (fuel : nat) (a : PhasedArray)
  : result PhasedArray :=
  let a1 := with_wavelength (div (_speedOfSound a) (_frequency a)) a in
  bind (for_lt fuel 0 (_numElements a)
          (fun i acc => Ok (acc ++ [element_at a1 i])) [])
       (fun positions =>
  bind (for_lt fuel 0 (_numElements a)
          (fun i acc =>
             match nth_error positions i with
             | Some elemPos => Ok (acc ++ [element_phase a1 elemPos])
             | None => Throw
             end) [])
       (fun phases =>
  Ok (with_dirty false
        (with_elementPhases phases (with_elementPositions positions a1))))).

(** ** Instances used in examples *)

(** [new PhasedArray({})] as the first instance of a session. *)
Definition default_array : PhasedArray :=
  recalculated (assigned_fields emptyConfig 1) 16.

(** A falsy optional number: absent, [0] or [NaN]. *)
Definition falsy (v : option number) : Prop :=
  match v with
  | Some a => truthy a = false
  | None => True
  end.

(** A falsy optional string: absent or empty. *)
Definition falsy_string (v : option string) : Prop :=
  match v with
  | Some s => s = EmptyString
  | None => True
  end.

(** The default array after [enabled = false] and [amplitude = 0]. *)
Definition silenced_array : PhasedArray :=
  set_amplitude (Fin 0) (set_enabled false default_array).

(** ** Valid configurations (section 3 of the specification) *)

(** Every numeric attribute is a finite number in its documented range; the
    element count is a whole number. *)
Record valid (a : PhasedArray) : Prop := mkValid {
  valid_numElements :
    exists n, _numElements a = Fin (INR n) /\ (1 <= n <= 64)%nat;
  valid_pitch : exists p, _pitch a = Fin p /\ 0.001 <= p;
  valid_frequency : exists f, _frequency a = Fin f /\ 0.1 <= f;
  valid_steeringAngle :
    exists s, _steeringAngle a = Fin s /\ -90 <= s <= 90;
  valid_position : exists X Y, _position a = mkPoint (Fin X) (Fin Y);
  valid_curvatureRadius : exists R, _curvatureRadius a = Fin R /\ 0.01 <= R;
  valid_orientation : exists o, _orientation a = Fin o /\ -360 < o < 360;
  valid_focalDistance :
    _focalDistance a = PInf \/ exists F, _focalDistance a = Fin F /\ 0 < F;
  valid_amplitude : exists A, _amplitude a = Fin A /\ 0 <= A <= 2;
  valid_speedOfSound : exists c, _speedOfSound a = Fin c /\ 0.1 <= c
}.

(** The instance with its wavelength refreshed, as [_recalculate] sees it. *)
Definition refreshed (a : PhasedArray) : PhasedArray :=
  with_wavelength (div (_speedOfSound a) (_frequency a)) a.

(** The entry of [getElementData] for element [i]. *)
Definition element_data (a : PhasedArray) (i : nat) : ElementData :=
  mkElementData (pos_x (element_at (refreshed a) i))
                (pos_y (element_at (refreshed a) i))
                (Some (element_phase (refreshed a)
                                     (element_at (refreshed a) i)))
                (_amplitude a).

(** A curved array reduced to a single element through the setters. *)
Definition single_curved_array : PhasedArray :=
  set_curvatureRadius (Fin 0.05)
    (set_pitch (Fin 0.002)
       (set_numElements (Fin 1) (set_geometry "curved" default_array))).

(** ** Section 4.2 of the specification, in its words *)

(** Wave number [k = 2π / wavelength], [wavelength = speedOfSound / frequency]. *)
Definition spec_k (a : PhasedArray) : number :=
  div (mul (Fin 2) Math.PI) (div (_speedOfSound a) (_frequency a)).





(** The concrete case of the specification: 11 elements, pitch half a
    wavelength (343 / 40000), steering angle 30 degrees. *)
Definition steered_array : PhasedArray :=
  set_steeringAngle (Fin 30)
    (set_pitch (Fin (0.5 * (343 / 40000)))
       (set_numElements (Fin 11) default_array)).

(** The default array with its amplitude set to 0. *)
Definition silent_array : PhasedArray := set_amplitude (Fin 0) default_array.

(** A setter call whose argument is a finite number (finite coordinates
    for a position). *)
Definition finite_setter (s : setter) : Prop :=
  match s with
  | SetNumElements v | SetPitch v | SetFrequency v | SetSteeringAngle v
  | SetCurvatureRadius v | SetOrientation v | SetFocalDistance v
  | SetAmplitude v | SetSpeedOfSound v => isFinite v = true
  | SetPosition p => isFinite (px p) = true /\ isFinite (py p) = true
  | SetGeometry _ | SetEnabled _ => True
  end.

(** ** Section 4.4 of the specification, in its words *)

(** [dist_i = |Q - e_i|] *)
Definition distance_to (qx qy : number) (e : ElementPos) : number :=
  Math.sqrt (add (Math.pow2 (sub qx (pos_x e)))
                 (Math.pow2 (sub qy (pos_y e)))).

(** [amplitude / sqrt(dist_i + ε) * cos(k * dist_i - ω * t + phase_i)] with
    [ε = 0.01], [k = 2π / wavelength], [ω = 2π * frequency]. *)
Definition spec_contribution (a : PhasedArray) (qx qy t : number)
           (ep : ElementPos * number) : number :=
  let dist := distance_to qx qy (fst ep) in
  let omega := mul (mul (Fin 2) Math.PI) (_frequency a) in
  mul (div (_amplitude a) (Math.sqrt (add dist (Fin 0.01))))
      (Math.cos (add (sub (mul (spec_k a) dist) (mul omega t)) (snd ep))).

(** An element contributes unless it is closer to [Q] than the threshold
    [0.0001]. *)
Definition contributes (qx qy : number) (ep : ElementPos * number) : bool :=
  negb (lt (distance_to qx qy (fst ep)) (Fin 0.0001)).

(** The field: the sum of the contributions of the contributing elements,
    each element paired with its phase. *)
Definition spec_field (a : PhasedArray) (qx qy t : number)
           (elements : list (ElementPos * number)) : number :=
  fold_left add
            (map (spec_contribution a qx qy t)
                 (filter (contributes qx qy) elements))
            (Fin 0).

(** The default array after [enabled = false]. *)
Definition disabled_array : PhasedArray := set_enabled false default_array.

(* ================================================================== *)
(** * The SimulationContext class *)
(* ================================================================== *)

(** The [globalSettings] record. *)
Record GlobalSettings : Type := mkGlobalSettings {
  speedOfSound : number;
  fieldWidth : number;
  fieldHeight : number;
  fieldCenterX : number;
  fieldCenterY : number;
  displayMode : number;
  dynamicRange : number;
  profileDepth : number;
  timeScale : number;
  paused : bool
}.

(** What [_notifyListeners(event, data)] passes to a listener. *)
Inductive event : Type :=
| ArrayAdded (array : PhasedArray)
| ArrayRemoved (array : PhasedArray)
| Cleared
| SettingsChanged (what : string).

(** A registered callback: a function object, identified by [listener_id]
    (the identity the [Set] compares), that returns or throws on an event.
    Callbacks are observers: they do not call back into the context. *)
Record Listener : Type := mkListener {
  listener_id : nat;
  listener_throws : event -> bool
}.

(** What a notification does outside the context: a callback is called, and
    [console.error] is called when it threw. *)
Inductive effect : Type :=
| Called (listener : nat) (e : event)
| ConsoleError (listener : nat).

(** An instance: [arrays] is a [Map] from id to array, [_listeners] a [Set];
    both iterate in insertion order. *)
Record SimulationContext : Type := mkSimulationContext {
  arrays : list (nat * PhasedArray);
  globalSettings : GlobalSettings;
  _listeners : list Listener
}.

(** [Map.prototype.get] *)
Fixpoint map_get (k : nat) (m : list (nat * PhasedArray))
  : option PhasedArray :=
  match m with
  | [] => None
  | (k', v) :: m' => if Nat.eqb k k' then Some v else map_get k m'
  end.

(** [Map.prototype.set]: an existing key keeps its place. *)
Fixpoint map_set (k : nat) (v : PhasedArray) (m : list (nat * PhasedArray))
  : list (nat * PhasedArray) :=
  match m with
  | [] => [(k, v)]
  | (k', v') :: m' =>
      if Nat.eqb k k' then (k, v) :: m' else (k', v') :: map_set k v m'
  end.

(** [Map.prototype.delete] *)
Fixpoint map_delete (k : nat) (m : list (nat * PhasedArray))
  : list (nat * PhasedArray) :=
  match m with
  | [] => []
  | (k', v') :: m' =>
      if Nat.eqb k k' then m' else (k', v') :: map_delete k m'
  end.

(** [new SimulationContext()] *)
Definition newSimulationContext : SimulationContext :=
  mkSimulationContext
    []
    (mkGlobalSettings (Fin 343) (Fin 0.5) (Fin 0.5) (Fin 0) (Fin 0.15)
                      (Fin 0) (Fin 40) (Fin 0.2) (Fin 1.0) false)
    [].

Definition with_arrays (v : list (nat * PhasedArray))
           (ctx : SimulationContext) : SimulationContext :=
  mkSimulationContext v (globalSettings ctx) (_listeners ctx).

Definition with_globalSettings (v : GlobalSettings)
           (ctx : SimulationContext) : SimulationContext :=
  mkSimulationContext (arrays ctx) v (_listeners ctx).

Definition with_listeners (v : list Listener)
           (ctx : SimulationContext) : SimulationContext :=
  mkSimulationContext (arrays ctx) (globalSettings ctx) v.

(** [globalSettings.speedOfSound = value] *)
Definition with_gs_speedOfSound (v : number) (g : GlobalSettings)
  : GlobalSettings :=
  mkGlobalSettings v (fieldWidth g) (fieldHeight g) (fieldCenterX g)
                   (fieldCenterY g) (displayMode g) (dynamicRange g)
                   (profileDepth g) (timeScale g) (paused g).

(** [_notifyListeners]: every listener is called inside [try]; a thrown
    error is caught and reported. *)
Definition _notifyListeners (ctx : SimulationContext) (e : event)
  : list effect :=
  flat_map (fun l =>
              Called (listener_id l) e
              :: (if listener_throws l e then [ConsoleError (listener_id l)]
                  else []))
           (_listeners ctx).

(** The argument of [addArray]: a [PhasedArray] or any other value. *)
Inductive jsvalue : Type :=
| IsPhasedArray (array : PhasedArray)
| OtherValue.

Definition addArray (ctx : SimulationContext) (array : jsvalue)
  : SimulationContext * list effect :=
  match array with
  | IsPhasedArray array =>
      let array :=
        set_speedOfSound (speedOfSound (globalSettings ctx)) array in
      let ctx := with_arrays (map_set (id array) array (arrays ctx)) ctx in
      (ctx, _notifyListeners ctx (ArrayAdded array))
  | OtherValue => (ctx, [])
  end.

Definition removeArray (ctx : SimulationContext) (id : nat)
  : SimulationContext * list effect :=
  match map_get id (arrays ctx) with
  | Some array =>
      let ctx := with_arrays (map_delete id (arrays ctx)) ctx in
      (ctx, _notifyListeners ctx (ArrayRemoved array))
  | None => (ctx, [])
  end.

Definition getArray (ctx : SimulationContext) (id : nat)
  : option PhasedArray :=
  map_get id (arrays ctx).

Definition getAllArrays (ctx : SimulationContext) : list PhasedArray :=
  map snd (arrays ctx).

(** [clearArrays] also resets the static [PhasedArray._idCounter], which
    it returns. *)
Definition clearArrays (ctx : SimulationContext)
  : SimulationContext * nat * list effect :=
  let ctx := with_arrays [] ctx in
  let _idCounter := 0%nat in
  (ctx, _idCounter, _notifyListeners ctx Cleared).

Definition getTotalElementCount (ctx : SimulationContext) : number :=
  fold_left (fun count array =>
               if _enabled array then add count (_numElements array)
               else count)
            (map snd (arrays ctx)) (Fin 0).

(** The loop of [getAllElementData] over the map entries: each array may
    refresh its cache, and stays in the map at its place. *)
Fixpoint getAllElementData_loop (fuel : nat) (m : list (nat * PhasedArray))
         (elements : list ElementData)
  : result (list (nat * PhasedArray) * list ElementData) :=
  match m with
  | [] => Ok ([], elements)
  | (k, array) :: m' =>
      bind (getElementData fuel array) (fun r =>
      bind (getAllElementData_loop fuel m' (elements ++ snd r)) (fun r' =>
      Ok ((k, fst r) :: fst r', snd r')))
  end.

Definition getAllElementData (fuel : nat) (ctx : SimulationContext)
  : result (SimulationContext * list ElementData) :=
  bind (getAllElementData_loop fuel (arrays ctx) []) (fun r =>
  Ok (with_arrays (fst r) ctx, snd r)).

Definition setSpeedOfSound (ctx : SimulationContext) (value : number)
  : SimulationContext * list effect :=
  let ctx :=
    with_globalSettings (with_gs_speedOfSound value (globalSettings ctx))
                        ctx in
  let ctx :=
    with_arrays (map (fun ka => (fst ka, set_speedOfSound value (snd ka)))
                     (arrays ctx)) ctx in
  (ctx, _notifyListeners ctx (SettingsChanged "speedOfSound")).

(** [Set.prototype.add]: a callback already registered is not added. *)
Definition addListener (ctx : SimulationContext) (callback : Listener)
  : SimulationContext :=
  if existsb (fun l => Nat.eqb (listener_id l) (listener_id callback))
             (_listeners ctx)
  then ctx
  else with_listeners (_listeners ctx ++ [callback]) ctx.

(** [Set.prototype.delete] *)
Definition removeListener (ctx : SimulationContext) (callback : Listener)
  : SimulationContext :=
  with_listeners
    (filter (fun l => negb (Nat.eqb (listener_id l) (listener_id callback)))
            (_listeners ctx))
    ctx.

(** The [wavelength] getter. *)
Definition wavelength (fuel : nat) (a : PhasedArray)
  : result (PhasedArray * number) :=
  bind (_ensureCalculated fuel a) (fun a => Ok (a, _wavelength a)).

(** Every entry of the map is filed under the id of its array, and no id
    occurs twice. *)
Definition well_keyed (m : list (nat * PhasedArray)) : Prop :=
  NoDup (map fst m) /\ Forall (fun ka => id (snd ka) = fst ka) m.

(** A context holding the default array and the array rebuilt from its
    serialized form (ids 1 and 2). *)
Definition two_array_context : SimulationContext :=
  fst (addArray
         (fst (addArray newSimulationContext (IsPhasedArray default_array)))
         (IsPhasedArray (recalculated
                           (assigned_fields (toJSON default_array) 2) 16))).

(** The callbacks called during a notification, in call order. *)
Definition called (log : list effect) : list nat :=
  flat_map (fun x => match x with Called l _ => [l] | ConsoleError _ => [] end)
           log.

(** The callbacks whose error was reported during a notification. *)
Definition reported (log : list effect) : list nat :=
  flat_map (fun x => match x with Called _ _ => [] | ConsoleError l => [l] end)
           log.

(** Two instances with the same configuration attributes (their ids, names
    and caches may differ). *)
Definition same_configuration (a b : PhasedArray) : Prop :=
  _numElements a = _numElements b /\ _pitch a = _pitch b /\
  _frequency a = _frequency b /\ _steeringAngle a = _steeringAngle b /\
  _position a = _position b /\ _geometry a = _geometry b /\
  _curvatureRadius a = _curvatureRadius b /\
  _orientation a = _orientation b /\ _focalDistance a = _focalDistance b /\
  _amplitude a = _amplitude b /\ _enabled a = _enabled b /\
  _speedOfSound a = _speedOfSound b.

(** The default array made curved (16 elements on an arc of radius 0.1). *)
Definition curved_array : PhasedArray := set_geometry "curved" default_array.

(** The steered array turned by -20 degrees. *)
Definition tilted_array : PhasedArray :=
  set_orientation (Fin (-20)) steered_array.

(** The default array focused at 5 cm. *)
Definition focused_array : PhasedArray :=
  set_focalDistance (Fin 0.05) default_array.

(** The configuration [{ numElements: 100 }]. *)
Definition crowded_config : Config :=
  mkConfig None (Some (Fin 100)) None None None None None None None None None
           None None.

(* ================================================================== *)
(** * The overlay of [src/js/AppController.js] *)
(* ================================================================== *)

(** [mapX] of [_renderOverlay]: physical abscissa to canvas pixels, on a
    canvas of [cvs_width] by [cvs_height] pixels. *)
Definition mapX (settings : GlobalSettings) (cvs_width cvs_height x : number)
  : number :=
  let aspect := div cvs_width cvs_height in
  mul (add (div (div (sub x (fieldCenterX settings)) (fieldWidth settings))
                aspect)
           (Fin 0.5))
      cvs_width.

(** [mapY] of [_renderOverlay]. *)
Definition mapY (settings : GlobalSettings) (cvs_height y : number)
  : number :=
  mul (sub (Fin 0.5)
           (div (sub y (fieldCenterY settings)) (fieldHeight settings)))
      cvs_height.

(** [screenToPhysics] of [_bindInteractionEvents]; [rect_width] and
    [rect_height] are those of [canvas.getBoundingClientRect()]. *)
Definition screenToPhysics (settings : GlobalSettings)
           (rect_width rect_height sx sy : number) : Point :=
  let aspect := div rect_width rect_height in
  let x :=
    add (mul (mul (sub (div sx rect_width) (Fin 0.5)) aspect)
             (fieldWidth settings))
        (fieldCenterX settings) in
  let y :=
    sub (fieldCenterY settings)
        (mul (sub (div sy rect_height) (Fin 0.5)) (fieldHeight settings)) in
  mkPoint x y.

(* ================================================================== *)
(** * Magnitudes and weights used in the statements *)
(* ================================================================== *)

(** A finite number of absolute value at most [10^100]: squares and
    products of a few such numbers stay far below the largest binary64
    number (about [1.8 * 10^308]). *)
Definition moderate (x : number) : Prop :=
  exists r, x = Fin r /\ Rabs r <= 10 ^ 100.

(** The lengths, the frequency and the speed of sound of an array are
    moderate; the focal distance is moderate or infinite. *)
Definition moderate_array (a : PhasedArray) : Prop :=
  moderate (_pitch a) /\ moderate (_frequency a) /\
  moderate (px (_position a)) /\ moderate (py (_position a)) /\
  moderate (_curvatureRadius a) /\ moderate (_speedOfSound a) /\
  (_focalDistance a = PInf \/ moderate (_focalDistance a)).

(** The default array after [frequency = Infinity]: the setter clamps from
    below only. *)
Definition unbounded_array : PhasedArray := set_frequency PInf default_array.

(** The real number a finite [number] holds (0 for the others). *)
Definition real_of (x : number) : R :=
  match x with
  | Fin r => r
  | _ => 0
  end.

(** The weight [amplitude / sqrt(dist + 0.01)] with which element [i] of [a]
    enters the sum of [calculateFieldAt] at the point [(qx, qy)]; 0 when the
    element is closer than the threshold and is skipped. *)
Definition arrival_weight (a : PhasedArray) (qx qy : number) (i : nat)
  : number :=
  let dist := distance_to qx qy (element_at (refreshed a) i) in
  if lt dist (Fin 0.0001) then Fin 0
  else div (_amplitude a) (Math.sqrt (add dist (Fin 0.01))).

(** The elements of [a] paired with their phases, as [_recalculate] computes
    them from the configuration when the element count is [n]. *)
Definition computed_elements (a : PhasedArray) (n : nat)
  : list (ElementPos * number) :=
  map (fun i => (element_at (refreshed a) i,
                 element_phase (refreshed a) (element_at (refreshed a) i)))
      (seq 0 n).

(** A context with two listeners registered. *)
Definition observed_context : SimulationContext :=
  addListener (addListener newSimulationContext
                           (mkListener 3 (fun _ => false)))
              (mkListener 5 (fun _ => true)).

(* ================================================================== *)
(** * Properties *)
(* ================================================================== *)

(** ** Tactics *)

(** Reduce the projections of an updated instance. *)
Ltac fields :=
  cbn [id name _numElements _pitch _frequency _steeringAngle _position
       _geometry _curvatureRadius _orientation _focalDistance _amplitude
       _enabled _speedOfSound _elementPositions _elementPhases _wavelength
       _dirty with_numElements with_pitch with_frequency with_steeringAngle
       with_position with_geometry with_curvatureRadius with_orientation
       with_focalDistance with_amplitude with_enabled with_speedOfSound
       with_elementPositions with_elementPhases with_wavelength with_dirty].

Ltac unfold_model :=
  unfold recalculate_loops, element_at, linear_element, curved_element,
    curved_local, curved_elementAngle, element_phase, focalPoint, steeringDir.

(** Compute the arithmetic of finite numbers; divisions are discharged
    separately, their divisor being shown nonzero. *)
Ltac fin_arith :=
  cbn [add sub neg mul Math.sin Math.cos Math.pow2 Math.PI fst snd].

(** ** Arithmetic of [number] *)

Lemma lt_INR_true (i n : nat) : (i < n)%nat -> lt (Fin (INR i)) (Fin (INR n)) = true.
Proof.
  intros H. simpl. destruct (Rlt_dec (INR i) (INR n)) as [_|C]; [reflexivity|].
  exfalso. apply C. now apply lt_INR.
Qed.

Lemma lt_INR_false (i n : nat) : (n <= i)%nat -> lt (Fin (INR i)) (Fin (INR n)) = false.
Proof.
  intros H. simpl. destruct (Rlt_dec (INR i) (INR n)) as [C|_]; [|reflexivity].
  exfalso. apply le_INR in H. lra.
Qed.

Lemma truthy_zero : truthy (Fin 0) = false.
Proof. simpl. destruct (Req_dec_T 0 0); [reflexivity|contradiction]. Qed.

Lemma truthy_Fin r : r <> 0 -> truthy (Fin r) = true.
Proof. intros H. simpl. destruct (Req_dec_T r 0); [contradiction|reflexivity]. Qed.

Lemma max_Fin a b : Math.max (Fin a) (Fin b) = Fin (Rmax a b).
Proof.
  simpl. unfold Rmax.
  destruct (Rlt_dec a b), (Rle_dec a b); try reflexivity; try lra;
    f_equal; lra.
Qed.

Lemma min_Fin a b : Math.min (Fin a) (Fin b) = Fin (Rmin a b).
Proof.
  simpl. unfold Rmin.
  destruct (Rlt_dec b a), (Rle_dec a b); try reflexivity; try lra;
    f_equal; lra.
Qed.

Lemma div_Fin a b : b <> 0 -> div (Fin a) (Fin b) = Fin (a / b).
Proof. intros H. simpl. destruct (Req_dec_T b 0); [contradiction|reflexivity]. Qed.

Lemma sqrt_Fin a : 0 <= a -> Math.sqrt (Fin a) = Fin (sqrt a).
Proof. intros H. simpl. destruct (Rlt_dec a 0); [lra|reflexivity]. Qed.

Lemma Int_part_unit r : 0 <= r < 1 -> Int_part r = 0%Z.
Proof.
  intros H. unfold Int_part.
  rewrite <- (up_tech r 0); simpl; [reflexivity|lra|lra].
Qed.

(** The truncated quotient is within one of the quotient, on its side of
    zero. *)
Lemma Rtrunc_bounds q :
  (0 <= q -> 0 <= q - IZR (Rtrunc q) < 1) /\
  (q < 0 -> -1 < q - IZR (Rtrunc q) <= 0).
Proof.
  unfold Rtrunc. destruct (Rle_dec 0 q) as [H|H]; split; intros H'; try lra.
  - destruct (base_Int_part q). lra.
  - destruct (base_Int_part (- q)). rewrite opp_IZR. lra.
Qed.

Lemma rem_360 v :
  exists r, rem (Fin v) (Fin 360) = Fin r /\ -360 < r < 360 /\
            (0 <= v -> 0 <= r) /\ (v < 0 -> r <= 0) /\
            exists z, v = r + 360 * IZR z.
Proof.
  simpl. destruct (Req_dec_T 360 0) as [C|_]; [lra|].
  exists (v - 360 * IZR (Rtrunc (v / 360))). split; [reflexivity|].
  destruct (Rtrunc_bounds (v / 360)) as [P N].
  assert (E : v = 360 * (v / 360)) by (field).
  destruct (Rle_dec 0 (v / 360)) as [H|H].
  - specialize (P H).
    split; [lra|]. split; [lra|]. split; [lra|].
    exists (Rtrunc (v / 360)). lra.
  - assert (H' : v / 360 < 0) by lra. specialize (N H').
    split; [lra|]. split; [lra|]. split; [lra|].
    exists (Rtrunc (v / 360)). lra.
Qed.

Lemma rem_360_negative v : -360 < v < 0 -> rem (Fin v) (Fin 360) = Fin v.
Proof.
  intros H. simpl. destruct (Req_dec_T 360 0) as [C|_]; [lra|].
  f_equal. unfold Rtrunc.
  destruct (Rle_dec 0 (v / 360)) as [C|_]; [lra|].
  rewrite Int_part_unit by lra. simpl. lra.
Qed.

Ltac fin_eval :=
  repeat (fin_arith; try (rewrite div_Fin by lra)).

(** ** The loops *)

Lemma bind_Ok {A B : Type} (m : result A) (f : A -> result B) (b : B) :
  bind m f = Ok b -> exists a, m = Ok a /\ f a = Ok b.
Proof. destruct m; simpl; intros H; try discriminate. eauto. Qed.

(** More fuel never changes a result that was reached. *)
Lemma for_lt_fuel_mono {A : Type} (n : number) (body : nat -> A -> result A) :
  forall fuel extra i acc r,
    for_lt fuel i n body acc = Ok r ->
    for_lt (fuel + extra) i n body acc = Ok r.
Proof.
  induction fuel as [|fuel IH]; intros extra i acc r H.
  - cbn [for_lt] in H. destruct (lt (Fin (INR i)) n) eqn:E; [discriminate|].
    destruct (0 + extra)%nat; cbn [for_lt]; rewrite E; exact H.
  - cbn [for_lt Nat.add] in *. destruct (lt (Fin (INR i)) n); [|exact H].
    destruct (body i acc) as [acc'| |]; cbn [bind] in *; try discriminate.
    now apply IH.
Qed.

(** A pushing loop over a natural bound builds the list of its pushes. *)
Lemma for_lt_push {A : Type} (body : nat -> list A -> result (list A))
      (g : nat -> A) :
  forall k fuel i acc,
    (k <= fuel)%nat ->
    (forall j l, (i <= j < i + k)%nat -> body j l = Ok (l ++ [g j])) ->
    for_lt fuel i (Fin (INR (i + k))) body acc = Ok (acc ++ map g (seq i k)).
Proof.
  induction k as [|k IH]; intros fuel i acc Hf Hb.
  - rewrite Nat.add_0_r. destruct fuel; cbn [for_lt];
      rewrite lt_INR_false by lia; cbn [map seq]; now rewrite app_nil_r.
  - destruct fuel as [|fuel]; [lia|].
    cbn [for_lt]. rewrite lt_INR_true by lia.
    rewrite Hb by lia. cbn [bind].
    replace (i + S k)%nat with (S i + k)%nat by lia.
    rewrite IH; [| lia | intros; apply Hb; lia].
    cbn [map seq]. now rewrite <- app_assoc.
Qed.


Lemma for_lt_ext {A : Type} (n : number) (body body' : nat -> A -> result A) :
  (forall i acc, body i acc = body' i acc) ->
  forall fuel i acc, for_lt fuel i n body acc = for_lt fuel i n body' acc.
Proof.
  intros E. induction fuel as [|fuel IH]; intros i acc; cbn [for_lt].
  - reflexivity.
  - destruct (lt (Fin (INR i)) n); [|reflexivity].
    rewrite E. destruct (body' i acc); cbn [bind]; auto.
Qed.

(** ** Recalculation *)

Lemma recalculate_unfold fuel a :
  _recalculate fuel a = recalculate_loops fuel a.
Proof.
  unfold _recalculate, recalculate_loops, _calculateElementPositions.
  set (a1 := with_wavelength _ a).
  change (_geometry (with_elementPositions [] a1)) with (_geometry a).
  change (_numElements (with_elementPositions [] a1)) with (_numElements a).
  change (_elementPositions (with_elementPositions [] a1))
    with (@nil ElementPos).
  assert (E : (if String.eqb (_geometry a) "linear"
     then bind (for_lt fuel 0 (_numElements a)
            (fun i acc =>
               Ok (acc ++ [linear_element (with_elementPositions [] a1) i]))
            [])
            (fun l => Ok (with_elementPositions l (with_elementPositions [] a1)))
     else bind (for_lt fuel 0 (_numElements a)
            (fun i acc =>
               Ok (acc ++ [curved_element (with_elementPositions [] a1) i]))
            [])
            (fun l => Ok (with_elementPositions l (with_elementPositions [] a1))))
     = bind (for_lt fuel 0 (_numElements a)
            (fun i acc => Ok (acc ++ [element_at a1 i])) [])
            (fun l => Ok (with_elementPositions l a1))).
  { destruct (String.eqb (_geometry a) "linear") eqn:G;
      (rewrite (for_lt_ext _ _ (fun i acc => Ok (acc ++ [element_at a1 i])));
       [reflexivity|]);
      intros i acc; unfold element_at;
      change (_geometry a1) with (_geometry a); rewrite G; reflexivity. }
  rewrite E. clear E.
  destruct (for_lt _ _ _ _ _) as [ps| |]; try reflexivity.
  cbn [bind]. unfold _calculatePhaseDelays.
  change (_numElements (with_elementPhases [] (with_elementPositions ps a1)))
    with (_numElements a).
  destruct (for_lt _ _ _ _ _) as [phs| |]; reflexivity.
Qed.

(** [_recalculate] reads the configuration only: the cache and the dirty
    flag it starts from are irrelevant. *)
Lemma recalculate_cache_indep fuel a positions phases w d :
  _recalculate fuel
    (with_dirty d
       (with_elementPhases phases
          (with_elementPositions positions (with_wavelength w a))))
  = _recalculate fuel a.
Proof. rewrite !recalculate_unfold. destruct a; reflexivity. Qed.

(** The instance left by a successful [_recalculate]: the same identity and
    configuration, a fresh cache and a cleared dirty flag. *)
Lemma recalculate_shape fuel a a' :
  _recalculate fuel a = Ok a' ->
  exists positions phases,
    a' = with_dirty false
           (with_elementPhases phases
              (with_elementPositions positions
                 (with_wavelength (div (_speedOfSound a) (_frequency a)) a))).
Proof.
  rewrite recalculate_unfold. unfold recalculate_loops. intros H.
  apply bind_Ok in H as (ps & _ & H).
  apply bind_Ok in H as (phs & _ & H).
  injection H as <-. eauto.
Qed.

Lemma recalculate_idempotent fuel a a' :
  _recalculate fuel a = Ok a' -> _recalculate fuel a' = Ok a'.
Proof.
  intros H. destruct (recalculate_shape _ _ _ H) as (ps & phs & E).
  rewrite E at 1. now rewrite recalculate_cache_indep.
Qed.

Lemma recalculate_fuel_mono fuel extra a a' :
  _recalculate fuel a = Ok a' -> _recalculate (fuel + extra) a = Ok a'.
Proof.
  rewrite !recalculate_unfold. unfold recalculate_loops. intros H.
  apply bind_Ok in H as (ps & H1 & H).
  apply bind_Ok in H as (phs & H2 & H).
  rewrite (for_lt_fuel_mono _ _ _ extra _ _ _ H1). cbn [bind].
  rewrite (for_lt_fuel_mono _ _ _ extra _ _ _ H2). exact H.
Qed.

(** With a natural element count and enough fuel, [_recalculate] returns. *)
Lemma recalculate_nat fuel a n :
  _numElements a = Fin (INR n) -> (n <= fuel)%nat ->
  _recalculate fuel a = Ok (recalculated a n).
Proof.
  intros Hn Hf. rewrite recalculate_unfold. unfold recalculate_loops.
  rewrite Hn. set (a1 := with_wavelength _ a).
  pose proof (for_lt_push (fun i acc => Ok (acc ++ [element_at a1 i]))
                (element_at a1) n fuel 0%nat [] Hf) as E1.
  cbn [Nat.add app] in E1. rewrite E1 by reflexivity. clear E1.
  cbn [bind].
  pose proof (for_lt_push
                (fun i acc =>
                   match nth_error (map (element_at a1) (seq 0 n)) i with
                   | Some elemPos => Ok (acc ++ [element_phase a1 elemPos])
                   | None => Throw
                   end)
                (fun i => element_phase a1 (element_at a1 i))
                n fuel 0%nat [] Hf) as E2.
  cbn [Nat.add app] in E2. rewrite E2; [reflexivity|].
  intros j l Hj. rewrite nth_error_map, nth_error_seq.
  destruct (Nat.ltb_spec j n); [reflexivity|lia].
Qed.

Lemma recalculate_nat_inv fuel a a' n :
  _numElements a = Fin (INR n) -> _recalculate fuel a = Ok a' ->
  a' = recalculated a n.
Proof.
  intros Hn H. apply (recalculate_fuel_mono _ n) in H.
  rewrite (recalculate_nat _ _ n Hn) in H by lia. now injection H.
Qed.

(** ** Coherence of the cache on reachable instances *)

Lemma recalculate_amplitude fuel a v :
  _recalculate fuel (with_amplitude v a)
  = bind (_recalculate fuel a) (fun a' => Ok (with_amplitude v a')).
Proof.
  rewrite !recalculate_unfold. unfold_model. fields.
  match goal with |- bind ?m _ = _ => destruct m as [ps| |] end;
    try reflexivity.
  cbn [bind].
  match goal with |- bind ?m _ = _ => destruct m as [phs| |] end;
    reflexivity.
Qed.

Lemma recalculate_enabled fuel a v :
  _recalculate fuel (with_enabled v a)
  = bind (_recalculate fuel a) (fun a' => Ok (with_enabled v a')).
Proof.
  rewrite !recalculate_unfold. unfold_model. fields.
  match goal with |- bind ?m _ = _ => destruct m as [ps| |] end;
    try reflexivity.
  cbn [bind].
  match goal with |- bind ?m _ = _ => destruct m as [phs| |] end;
    reflexivity.
Qed.

Lemma coherent_recalculate fuel a a' :
  _recalculate fuel a = Ok a' -> coherent a'.
Proof. intros H _. exists fuel. now apply (recalculate_idempotent fuel a). Qed.

Lemma coherent_setter s a : coherent a -> coherent (apply_setter s a).
Proof.
  intros C. destruct s; try (intros D; discriminate D).
  - intros D. destruct (C D) as (fuel & H). exists fuel.
    unfold apply_setter, set_amplitude. rewrite recalculate_amplitude, H.
    reflexivity.
  - intros D. destruct (C D) as (fuel & H). exists fuel.
    unfold apply_setter, set_enabled. rewrite recalculate_enabled, H.
    reflexivity.
Qed.

Lemma coherent_ensureCalculated fuel a a' :
  coherent a -> _ensureCalculated fuel a = Ok a' -> coherent a'.
Proof.
  unfold _ensureCalculated. intros C. destruct (_dirty a) eqn:D.
  - apply coherent_recalculate.
  - now intros [= <-].
Qed.

Lemma reachable_coherent a : reachable a -> coherent a.
Proof.
  induction 1 as [fuel config counter a counter' H | s a _ IH | fuel a a' _ IH H].
  - unfold constructor in H. apply bind_Ok in H as (this & H & E).
    injection E as <- _. eapply coherent_recalculate; eauto.
  - now apply coherent_setter.
  - eapply coherent_ensureCalculated; eauto.
Qed.

(** A coherent instance with a natural element count, once brought up to
    date, is [recalculated]. *)
Lemma ensureCalculated_nat fuel a n :
  coherent a -> _numElements a = Fin (INR n) -> (n <= fuel)%nat ->
  _ensureCalculated fuel a = Ok (recalculated a n).
Proof.
  intros C Hn Hf. unfold _ensureCalculated. destruct (_dirty a) eqn:D.
  - now apply recalculate_nat.
  - destruct (C D) as (fuel' & H). f_equal.
    now apply (recalculate_nat_inv fuel').
Qed.

(** ** Construction *)

Lemma INR_16 : Fin 16 = Fin (INR 16).
Proof. rewrite INR_IZR_INZ. reflexivity. Qed.

(** With a natural element count and enough fuel, the constructor returns
    the recalculated instance. *)
Lemma constructor_nat fuel config counter n :
  or_default (cfg_numElements config) (Fin 16) = Fin (INR n) ->
  (n <= fuel)%nat ->
  constructor fuel config counter
  = Ok (recalculated (assigned_fields config (S counter)) n, S counter).
Proof.
  intros Hn Hf. unfold constructor.
  rewrite (recalculate_nat _ _ n); [reflexivity|exact Hn|exact Hf].
Qed.

Lemma constructor_default :
  constructor 16 emptyConfig 0 = Ok (default_array, 1%nat).
Proof. apply constructor_nat; [exact INR_16|lia]. Qed.

Lemma reachable_default : reachable default_array.
Proof. exact (reach_new _ _ _ _ _ constructor_default). Qed.

(** The configuration fields of a constructed instance are those assigned. *)
Lemma constructor_fields fuel config counter a counter' :
  constructor fuel config counter = Ok (a, counter') ->
  exists positions phases w,
    a = with_dirty false
          (with_elementPhases phases
             (with_elementPositions positions
                (with_wavelength w (assigned_fields config (S counter))))).
Proof.
  unfold constructor. intros H. apply bind_Ok in H as (this & H & E).
  injection E as <- _. apply recalculate_shape in H as (ps & phs & ->).
  eauto.
Qed.

Lemma or_default_falsy v d : falsy v -> or_default v d = d.
Proof.
  destruct v as [x|]; simpl; [|reflexivity].
  unfold or_. now intros ->.
Qed.

Lemma or_string_falsy v d : falsy_string v -> or_string v d = d.
Proof. destruct v as [s|]; simpl; [|reflexivity]. now intros ->. Qed.

Lemma set_amplitude_Fin r a :
  _amplitude (set_amplitude (Fin r) a) = Fin (Rmax 0 (Rmin 2 r)).
Proof. unfold set_amplitude. fields. now rewrite min_Fin, max_Fin. Qed.

Lemma set_amplitude_zero a : _amplitude (set_amplitude (Fin 0) a) = Fin 0.
Proof.
  rewrite set_amplitude_Fin. f_equal.
  rewrite Rmin_right by lra. now rewrite Rmax_left by lra.
Qed.

(** C8: the constructor replaces every falsy configuration field with its
    default, and ignores the [enabled] field: the instance is always
    enabled.  In particular [fromJSON (toJSON b)] is enabled when [b] is
    disabled, and has amplitude 1.0 when [b] has amplitude 0. *)
Theorem constructor_replaces_falsy_fields :
  forall fuel config counter a counter',
    constructor fuel config counter = Ok (a, counter') ->
    _enabled a = true /\
    (falsy_string (cfg_name config) -> name a = default_name (S counter)) /\
    (falsy (cfg_numElements config) -> _numElements a = Fin 16) /\
    (falsy (cfg_pitch config) -> _pitch a = Fin 0.005) /\
    (falsy (cfg_frequency config) -> _frequency a = Fin 40000) /\
    (falsy (cfg_steeringAngle config) -> _steeringAngle a = Fin 0) /\
    (cfg_position config = None ->
     _position a = mkPoint (Fin 0) (Fin (-0.1))) /\
    (falsy_string (cfg_geometry config) -> _geometry a = "linear"%string) /\
    (falsy (cfg_curvatureRadius config) -> _curvatureRadius a = Fin 0.1) /\
    (falsy (cfg_orientation config) -> _orientation a = Fin 0) /\
    (falsy (cfg_focalDistance config) -> _focalDistance a = PInf) /\
    (falsy (cfg_amplitude config) -> _amplitude a = Fin 1.0) /\
    (falsy (cfg_speedOfSound config) -> _speedOfSound a = Fin 343) /\
    (forall b, config = toJSON b ->
       fromJSON fuel (toJSON b) counter = Ok (a, counter') /\
       (_enabled b = false -> _enabled a <> _enabled b) /\
       (_amplitude b = Fin 0 ->
        _amplitude a = Fin 1.0 /\ _amplitude a <> _amplitude b)).
Proof.
  intros fuel config counter a counter' H.
  pose proof H as H0.
  apply constructor_fields in H as (ps & phs & w & ->).
  unfold assigned_fields. fields.
  repeat match goal with |- _ /\ _ => split end;
    try (intros F; now apply or_default_falsy);
    try (intros F; now apply or_string_falsy).
  - reflexivity.
  - intros F. now rewrite F.
  - intros b ->. split; [exact H0|]. split.
    + intros ->. discriminate.
    + intros E. cbn [toJSON cfg_amplitude]. rewrite E.
      cbn [or_default]. unfold or_. rewrite truthy_zero.
      split; [reflexivity|]. intros C. injection C as C. lra.
Qed.

Lemma silenced_numElements :
  or_default (cfg_numElements (toJSON silenced_array)) (Fin 16)
  = Fin (INR 16).
Proof.
  change (or_ (Fin 16) (Fin 16) = Fin (INR 16)).
  unfold or_. rewrite truthy_Fin by lra. exact INR_16.
Qed.

(** C8, witness: the serialized configuration of the default array after
    [enabled = false] and [amplitude = 0] is rebuilt enabled and with
    amplitude 1.0. *)
Lemma constructor_replaces_falsy_fields_witness :
  exists a,
    fromJSON 16 (toJSON silenced_array) 1 = Ok (a, 2%nat) /\
    _enabled a = true /\ _amplitude a = Fin 1.0.
Proof.
  eexists. split.
  - apply constructor_nat; [exact silenced_numElements|lia].
  - pose proof (constructor_replaces_falsy_fields 16 (toJSON silenced_array)
                  1 _ _
                  (constructor_nat 16 _ 1 16 silenced_numElements (le_n 16)))
      as (He & _ & _ & _ & _ & _ & _ & _ & _ & _ & _ & _ & _ & Hb).
    split; [exact He|].
    exact (proj1 (proj2 (proj2 (Hb _ eq_refl)) (set_amplitude_zero _))).
Defined.

(** ** Setters *)

Lemma set_focalDistance_Fin r a :
  _focalDistance (set_focalDistance (Fin r) a)
  = if Rle_dec r 0 then PInf else Fin r.
Proof.
  unfold set_focalDistance. fields. simpl.
  destruct (Rle_dec r 0); reflexivity.
Qed.

(** C4 (amended): every setter applies its clamp, wrap or coercion and leaves
    the cache untouched (no recompute); every setter except those of
    [amplitude] and [enabled] sets the dirty flag, and these two leave the
    flag as it was. *)
Theorem setters_stale_except_amplitude_enabled :
  forall (a : PhasedArray),
    (forall s, cache (apply_setter s a) = cache a) /\
    (forall s,
       match s with
       | SetAmplitude _ | SetEnabled _ =>
           _dirty (apply_setter s a) = _dirty a
       | _ => _dirty (apply_setter s a) = true
       end) /\
    (forall r, _numElements (set_numElements (Fin r) a)
               = Fin (Rmax 1 (Rmin 64 (IZR (Int_part (r + / 2)))))) /\
    (forall r, _pitch (set_pitch (Fin r) a) = Fin (Rmax 0.001 r)) /\
    (forall r, _frequency (set_frequency (Fin r) a) = Fin (Rmax 0.1 r)) /\
    (forall r, _steeringAngle (set_steeringAngle (Fin r) a)
               = Fin (Rmax (-90) (Rmin 90 r))) /\
    (forall p, _position (set_position p a)
               = mkPoint (or_ (px p) (Fin 0)) (or_ (py p) (Fin 0))) /\
    (forall g, _geometry (set_geometry g a) = "curved"%string \/
               _geometry (set_geometry g a) = "linear"%string) /\
    (forall r, _curvatureRadius (set_curvatureRadius (Fin r) a)
               = Fin (Rmax 0.01 r)) /\
    (forall r, exists r', _orientation (set_orientation (Fin r) a) = Fin r' /\
                          -360 < r' < 360 /\
                          exists z, r = r' + 360 * IZR z) /\
    (forall r, _focalDistance (set_focalDistance (Fin r) a)
               = if Rle_dec r 0 then PInf else Fin r) /\
    (forall r, _amplitude (set_amplitude (Fin r) a)
               = Fin (Rmax 0 (Rmin 2 r))) /\
    (forall b, _enabled (set_enabled b a) = b) /\
    (forall r, _speedOfSound (set_speedOfSound (Fin r) a) = Fin (Rmax 0.1 r)).
Proof.
  intros a.
  repeat match goal with |- _ /\ _ => split end.
  - intros []; reflexivity.
  - intros []; reflexivity.
  - intros r. unfold set_numElements. fields.
    unfold Math.round. now rewrite min_Fin, max_Fin.
  - intros r. unfold set_pitch. fields. now rewrite max_Fin.
  - intros r. unfold set_frequency. fields. now rewrite max_Fin.
  - intros r. unfold set_steeringAngle. fields. now rewrite min_Fin, max_Fin.
  - reflexivity.
  - intros g. unfold set_geometry. fields.
    destruct (String.eqb g "curved"); auto.
  - intros r. unfold set_curvatureRadius. fields. now rewrite max_Fin.
  - intros r. unfold set_orientation. fields.
    destruct (rem_360 r) as (r' & E & B & _ & _ & Z). eauto.
  - intros r. apply set_focalDistance_Fin.
  - intros r. apply set_amplitude_Fin.
  - reflexivity.
  - intros r. unfold set_speedOfSound. fields. now rewrite max_Fin.
Qed.

(** C4, counterexample: on the freshly constructed default array, which is
    clean, the [amplitude] and [enabled] setters leave the dirty flag
    cleared. *)
Lemma setters_stale_counterexample :
  reachable default_array /\
  _dirty default_array = false /\
  _dirty (apply_setter (SetAmplitude (Fin 0.5)) default_array) = false /\
  _dirty (apply_setter (SetEnabled false) default_array) = false.
Proof. split; [exact reachable_default|]. repeat split. Qed.

(** C10: the orientation setter keeps the sign of its input: a negative
    value above -360 is stored as it is, and every finite value is stored
    as a number strictly between -360 and 360. *)
Theorem orientation_setter_keeps_sign :
  forall (a : PhasedArray) (v : R),
    (exists r, _orientation (set_orientation (Fin v) a) = Fin r /\
               -360 < r < 360 /\ (v < 0 -> r <= 0)) /\
    (-360 < v < 0 -> _orientation (set_orientation (Fin v) a) = Fin v).
Proof.
  intros a v. unfold set_orientation. fields. split.
  - destruct (rem_360 v) as (r & E & B & _ & N & _). eauto.
  - apply rem_360_negative.
Qed.

(** C10, witness: setting the orientation to -10 stores -10, not 350. *)
Lemma orientation_setter_keeps_sign_witness :
  _orientation (set_orientation (Fin (-10)) default_array) = Fin (-10) /\
  _orientation (set_orientation (Fin (-10)) default_array) <> Fin 350.
Proof.
  assert (H : -360 < -10 < 0) by lra.
  pose proof (proj2 (orientation_setter_keeps_sign default_array (-10)) H)
    as E.
  split; [exact E|].
  rewrite E. intros C. injection C as C. lra.
Defined.

(** ** Indexed traversals of a list built over [seq] *)

Lemma combine_seq_map {A : Type} (f : nat -> A) n : forall s,
  combine (seq s n) (map f (seq s n)) = map (fun i => (i, f i)) (seq s n).
Proof. induction n as [|n IH]; intros s; simpl; [|rewrite IH]; reflexivity. Qed.

Lemma map_i_seq {A B : Type} (f : nat -> A) (h : A -> nat -> B) n :
  map_i (map f (seq 0 n)) h = map (fun i => h (f i) i) (seq 0 n).
Proof.
  unfold map_i. rewrite length_map, length_seq, combine_seq_map, map_map.
  reflexivity.
Qed.

Lemma forEach_seq {E A : Type} (f : nat -> E) (step : A -> E -> nat -> A) n acc :
  forEach (map f (seq 0 n)) step acc
  = fold_left (fun a i => step a (f i) i) (seq 0 n) acc.
Proof.
  unfold forEach. rewrite length_map, length_seq, combine_seq_map.
  generalize (seq 0 n) acc. induction l as [|i l IH]; intros acc0; simpl.
  - reflexivity.
  - apply IH.
Qed.

Lemma length_map_i {A B : Type} (l : list A) (h : A -> nat -> B) :
  List.length (map_i l h) = List.length l.
Proof.
  unfold map_i. rewrite length_map, length_combine, length_seq.
  apply Nat.min_id.
Qed.

(** ** Element data *)

Lemma recalculated_fields a n :
  _elementPositions (recalculated a n)
  = map (element_at (refreshed a)) (seq 0 n) /\
  _elementPhases (recalculated a n)
  = map (fun i => element_phase (refreshed a) (element_at (refreshed a) i))
        (seq 0 n) /\
  _wavelength (recalculated a n) = div (_speedOfSound a) (_frequency a) /\
  _enabled (recalculated a n) = _enabled a /\
  _amplitude (recalculated a n) = _amplitude a /\
  _numElements (recalculated a n) = _numElements a /\
  _frequency (recalculated a n) = _frequency a.
Proof. repeat split. Qed.

Lemma nth_error_map_seq {A : Type} (g : nat -> A) n i :
  (i < n)%nat -> nth_error (map g (seq 0 n)) i = Some (g i).
Proof.
  intros H. rewrite nth_error_map, nth_error_seq.
  destruct (Nat.ltb_spec i n); [reflexivity|lia].
Qed.

(** [getElementData] on a coherent instance with a natural element count. *)
Lemma getElementData_nat fuel a n :
  coherent a -> _numElements a = Fin (INR n) -> (n <= fuel)%nat ->
  getElementData fuel a
  = Ok (recalculated a n,
        if _enabled a then map (element_data a) (seq 0 n) else []).
Proof.
  intros C Hn Hf. unfold getElementData.
  rewrite (ensureCalculated_nat fuel a n C Hn Hf). cbn [bind].
  destruct (recalculated_fields a n) as (Ep & Eph & _ & Ee & Ea & _).
  rewrite Ee. destruct (_enabled a); cbn [negb]; [|reflexivity].
  rewrite Ep, Eph, Ea, map_i_seq. do 2 f_equal.
  apply map_ext_in. intros i Hi. apply in_seq in Hi.
  rewrite nth_error_map_seq by lia. reflexivity.
Qed.

(** C5: on a reachable instance whose element count is a whole number [n],
    [getElementData] returns (given fuel for [n] iterations) exactly [n]
    entries carrying the array's amplitude when the array is enabled, and
    the empty sequence when it is not, whether or not the instance was
    stale. *)
Theorem getElementData_count :
  forall fuel a n,
    reachable a -> _numElements a = Fin (INR n) -> (n <= fuel)%nat ->
    exists a' data,
      getElementData fuel a = Ok (a', data) /\
      (_enabled a = true ->
         List.length data = n /\
         Fin (INR (List.length data)) = _numElements a /\
         Forall (fun e => ed_amplitude e = _amplitude a /\
                          ed_phase e <> None) data) /\
      (_enabled a = false -> data = []).
Proof.
  intros fuel a n R Hn Hf.
  rewrite (getElementData_nat fuel a n (reachable_coherent a R) Hn Hf).
  do 2 eexists. split; [reflexivity|]. split; intros ->.
  - rewrite length_map, length_seq. repeat split; [now rewrite Hn|].
    apply Forall_forall. intros e He. apply in_map_iff in He as (i & <- & _).
    split; [reflexivity|discriminate].
  - reflexivity.
Qed.

Lemma default_numElements : _numElements default_array = Fin (INR 16).
Proof. exact INR_16. Qed.

(** C5, witness: the default array (16 elements), enabled and disabled, and
    made stale by a setter. *)
Lemma getElementData_count_witness :
  (exists a' data,
     getElementData 16 default_array = Ok (a', data) /\
     List.length data = 16%nat) /\
  (exists a',
     getElementData 16 (set_pitch (Fin 0.01) (set_enabled false default_array))
     = Ok (a', [])).
Proof.
  split.
  - destruct (getElementData_count 16 default_array 16 reachable_default
                default_numElements (le_n 16))
      as (a' & data & E & Hen & _).
    exists a', data. split; [exact E|]. exact (proj1 (Hen eq_refl)).
  - destruct (getElementData_count 16
                (set_pitch (Fin 0.01) (set_enabled false default_array)) 16
                (reach_set (SetPitch (Fin 0.01)) _
                   (reach_set (SetEnabled false) _ reachable_default))
                default_numElements (le_n 16))
      as (a' & data & E & _ & Hdis).
    exists a'. rewrite (Hdis eq_refl) in E. exact E.
Defined.

(** ** The enabled flag and the queries *)

Lemma ensureCalculated_enabled fuel a b :
  _ensureCalculated fuel (set_enabled b a)
  = bind (_ensureCalculated fuel a) (fun a' => Ok (set_enabled b a')).
Proof.
  unfold _ensureCalculated, set_enabled. fields.
  destruct (_dirty a); [|reflexivity]. apply recalculate_enabled.
Qed.

Lemma calculateBeamPattern_enabled fuel a b angle :
  calculateBeamPattern fuel (set_enabled b a) angle
  = bind (calculateBeamPattern fuel a angle)
         (fun r => Ok (set_enabled b (fst r), snd r)).
Proof.
  unfold calculateBeamPattern. rewrite ensureCalculated_enabled.
  destruct (_ensureCalculated fuel a) as [a'| |]; reflexivity.
Qed.

Lemma getElementData_disabled fuel a a' data :
  getElementData fuel (set_enabled false a) = Ok (a', data) -> data = [].
Proof.
  unfold getElementData. rewrite ensureCalculated_enabled.
  destruct (_ensureCalculated fuel a) as [a1| |]; cbn; try discriminate.
  now intros [= _ <-].
Qed.

Lemma calculateFieldAt_disabled fuel a qx qy t a' v :
  calculateFieldAt fuel (set_enabled false a) qx qy t = Ok (a', v) ->
  v = Fin 0.
Proof.
  unfold calculateFieldAt. rewrite ensureCalculated_enabled.
  destruct (_ensureCalculated fuel a) as [a1| |]; cbn; try discriminate.
  now intros [= _ <-].
Qed.

(** ** Geometry *)

Lemma Int_part_half z : Int_part (IZR z + / 2) = z.
Proof.
  unfold Int_part. rewrite <- (up_tech (IZR z + / 2) z).
  - lia.
  - lra.
  - rewrite plus_IZR. lra.
Qed.

(** Rounding and clamping leave a whole number of [1..64] as it is. *)
Lemma set_numElements_whole z a :
  (1 <= z <= 64)%Z -> _numElements (set_numElements (Fin (IZR z)) a) = Fin (IZR z).
Proof.
  intros [H1 H64]. unfold set_numElements. fields. unfold Math.round.
  rewrite Int_part_half, min_Fin, max_Fin. f_equal.
  apply IZR_le in H1, H64.
  rewrite Rmin_right by lra. now rewrite Rmax_right by lra.
Qed.


Lemma curved_single_angle a p R :
  _numElements a = Fin 1 -> _pitch a = Fin p -> _curvatureRadius a = Fin R ->
  R <> 0 ->
  or_ (sub (_numElements a) (Fin 1)) (Fin 1) = Fin 1 /\
  curved_elementAngle a 0 = Fin 0.
Proof.
  intros Hn Hp HR HR0.
  assert (E : or_ (sub (_numElements a) (Fin 1)) (Fin 1) = Fin 1).
  { rewrite Hn. fin_arith. unfold or_, truthy.
    destruct (Req_dec_T _ _) as [_|C]; [reflexivity|lra]. }
  split; [exact E|].
  unfold curved_elementAngle. rewrite E, Hn, Hp, HR. fin_arith.
  rewrite (div_Fin _ R) by exact HR0. fin_arith.
  rewrite !div_Fin by lra. fin_arith.
  f_equal. cbn [INR]. field. exact HR0.
Qed.

Lemma curved_single_local a p R :
  _numElements a = Fin 1 -> _pitch a = Fin p -> _curvatureRadius a = Fin R ->
  R <> 0 ->
  curved_local a 0 = (Fin 0, Fin 0).
Proof.
  intros Hn Hp HR HR0. unfold curved_local.
  rewrite (proj2 (curved_single_angle a p R Hn Hp HR HR0)), HR. fin_arith.
  rewrite sin_0, cos_0. f_equal; f_equal; lra.
Qed.

(** C7: for a curved array with a single element, the divisor of the
    fraction [i / (n - 1 || 1)] is 1 (not 0) and the fraction is 0, the
    element angle is 0 and the local offset is exactly (0, 0), for every finite pitch and every
    finite nonzero curvature radius; the position loop returns that single
    element, and with a finite position and orientation the element sits
    exactly at the array position. *)
Theorem curved_single_element_at_origin :
  forall a p R,
    _geometry a = "curved"%string -> _numElements a = Fin 1 ->
    _pitch a = Fin p -> _curvatureRadius a = Fin R -> R <> 0 ->
    or_ (sub (_numElements a) (Fin 1)) (Fin 1) = Fin 1 /\
    div (Fin (INR 0)) (or_ (sub (_numElements a) (Fin 1)) (Fin 1)) = Fin 0 /\
    curved_elementAngle a 0 = Fin 0 /\
    curved_local a 0 = (Fin 0, Fin 0) /\
    (forall fuel, (1 <= fuel)%nat ->
       exists a', _calculateElementPositions fuel a = Ok a' /\
                  _elementPositions a' = [curved_element a 0]) /\
    (forall X Y o,
       _position a = mkPoint (Fin X) (Fin Y) -> _orientation a = Fin o ->
       pos_x (curved_element a 0) = Fin X /\
       pos_y (curved_element a 0) = Fin Y).
Proof.
  intros a p R Hg Hn Hp HR HR0.
  destruct (curved_single_angle a p R Hn Hp HR HR0) as [Hd Ha].
  pose proof (curved_single_local a p R Hn Hp HR HR0) as Hl.
  repeat match goal with |- _ /\ _ => split end; auto.
  - rewrite Hd, div_Fin by lra. f_equal. cbn [INR]. lra.
  - intros fuel Hf. unfold _calculateElementPositions. fields.
    rewrite Hg. change (String.eqb "curved" "linear") with false. cbv iota.
    rewrite Hn. change (Fin 1) with (Fin (INR (0 + 1))).
    rewrite (for_lt_push _ (curved_element (with_elementPositions [] a)) 1 fuel 0 [])
      by auto.
    cbn [bind seq map app]. eexists. split; [reflexivity|].
    fields. reflexivity.
  - intros X Y o HP Ho. unfold curved_element. rewrite Hl, HP, Ho.
    cbn [pos_x pos_y px py]. fin_arith.
    rewrite !div_Fin by lra. fin_arith. split; f_equal; lra.
Qed.

(** C7, witness: the default array made curved, cut to one element, with
    pitch 0.002 and curvature radius 0.05. *)
Lemma curved_single_element_at_origin_witness :
  curved_local single_curved_array 0 = (Fin 0, Fin 0) /\
  pos_x (curved_element single_curved_array 0) = Fin 0 /\
  pos_y (curved_element single_curved_array 0) = Fin (-0.1).
Proof.
  assert (HR : Rmax 0.01 0.05 <> 0).
  { pose proof (Rmax_l 0.01 0.05). lra. }
  destruct (curved_single_element_at_origin single_curved_array
              (Rmax 0.001 0.002) (Rmax 0.01 0.05) eq_refl
              (set_numElements_whole 1 _ ltac:(lia))
              (max_Fin _ _) (max_Fin _ _) HR)
    as (_ & _ & _ & Hl & _ & Hw).
  split; [exact Hl|]. exact (Hw 0 (-0.1) 0 eq_refl eq_refl).
Defined.

(** ** Phase delays *)









(** What a pushing loop that ended has built, for any bound: the pushes of
    the indices below the first one that fails the test. *)
Lemma for_lt_inv {A : Type} (g : nat -> option A) (n : number) :
  forall fuel i acc r,
    for_lt fuel i n
      (fun j l => match g j with Some v => Ok (l ++ [v]) | None => Throw end)
      acc = Ok r ->
    exists vs,
      r = acc ++ vs /\
      (forall j, (j < List.length vs)%nat ->
                 lt (Fin (INR (i + j))) n = true /\
                 nth_error vs j = g (i + j)%nat) /\
      lt (Fin (INR (i + List.length vs))) n = false.
Proof.
  induction fuel as [|fuel IH]; intros i acc r; cbn [for_lt];
    destruct (lt (Fin (INR i)) n) eqn:L; try discriminate.
  - intros [= <-]. exists []. rewrite app_nil_r, Nat.add_0_r.
    split; [reflexivity|]. split; [|exact L].
    intros j Hj. simpl in Hj. lia.
  - destruct (g i) as [v|] eqn:G; cbn [bind]; [|discriminate].
    intros H. apply IH in H as (vs & -> & Hj & Hend).
    exists (v :: vs). rewrite <- app_assoc. split; [reflexivity|]. split.
    + intros [|j] Hlt.
      * rewrite Nat.add_0_r. now split.
      * cbn [List.length] in Hlt.
        replace (i + S j)%nat with (S i + j)%nat by lia.
        apply Hj. lia.
    + cbn [List.length]. now replace (i + S (List.length vs))%nat
        with (S i + List.length vs)%nat by lia.
  - intros [= <-]. exists []. rewrite app_nil_r, Nat.add_0_r.
    split; [reflexivity|]. split; [|exact L].
    intros j Hj. simpl in Hj. lia.
Qed.

(** After a successful [_recalculate], whatever the bound of the loops:
    one phase per position, each the phase of the element at its index. *)
Lemma recalculate_cache fuel a a' :
  _recalculate fuel a = Ok a' ->
  List.length (_elementPhases a') = List.length (_elementPositions a') /\
  forall i e,
    nth_error (_elementPositions a') i = Some e ->
    e = element_at (refreshed a) i /\
    nth_error (_elementPhases a') i = Some (element_phase (refreshed a) e).
Proof.
  rewrite recalculate_unfold. unfold recalculate_loops.
  fold (refreshed a). intros H.
  apply bind_Ok in H as (ps & H1 & H).
  apply bind_Ok in H as (phs & H2 & H). injection H as <-. fields.
  apply (for_lt_inv (fun j => Some (element_at (refreshed a) j))) in H1
    as (ps' & -> & Hps & Eps).
  rewrite (for_lt_ext _ _
             (fun j l =>
                match option_map (element_phase (refreshed a))
                                 (nth_error ([] ++ ps') j) with
                | Some v => Ok (l ++ [v])
                | None => Throw
                end)) in H2
    by (intros j l; destruct (nth_error ([] ++ ps') j); reflexivity).
  apply for_lt_inv in H2 as (phs' & -> & Hphs & Ephs).
  cbn [app Nat.add] in *.
  assert (E : List.length phs' = List.length ps').
  { destruct (Nat.lt_trichotomy (List.length phs') (List.length ps'))
      as [C|[C|C]]; [|exact C|].
    - destruct (Hps _ C) as [T _]. congruence.
    - destruct (Hphs _ C) as [T _]. congruence. }
  split; [exact E|]. intros i e Hi.
  assert (Hlt : (i < List.length ps')%nat).
  { apply nth_error_Some. congruence. }
  destruct (Hps i Hlt) as [_ P]. rewrite Hi in P. injection P as ->.
  split; [reflexivity|].
  rewrite <- E in Hlt. destruct (Hphs i Hlt) as [_ Q].
  rewrite Q, Hi. reflexivity.
Qed.

(** Bringing a coherent instance up to date is a recalculation of it. *)
Lemma ensureCalculated_recalculate fuel a a' :
  coherent a -> _ensureCalculated fuel a = Ok a' ->
  exists fuel', _recalculate fuel' a = Ok a'.
Proof.
  unfold _ensureCalculated. intros C. destruct (_dirty a) eqn:D.
  - eauto.
  - intros [= <-]. exact (C D).
Qed.



(** ** Values computed from a finite configuration *)

Lemma or_one_nonzero x : exists d, or_ (Fin x) (Fin 1) = Fin d /\ d <> 0.
Proof.
  unfold or_, truthy. destruct (Req_dec_T x 0) as [E|E].
  - exists 1. split; [reflexivity|lra].
  - exists x. split; [reflexivity|exact E].
Qed.

Lemma sum_squares_nonneg u v : 0 <= u * u + v * v.
Proof. nra. Qed.

Section FiniteConfiguration.

Variable a : PhasedArray.
Variables (n : nat) (p f s X Y rad o c : R).
Hypothesis Hn : _numElements a = Fin (INR n).
Hypothesis Hp : _pitch a = Fin p.
Hypothesis Hf : _frequency a = Fin f.
Hypothesis Hs : _steeringAngle a = Fin s.
Hypothesis HP : _position a = mkPoint (Fin X) (Fin Y).
Hypothesis Hrad : _curvatureRadius a = Fin rad.
Hypothesis Ho : _orientation a = Fin o.
Hypothesis Hc : _speedOfSound a = Fin c.
Hypothesis Hf0 : f <> 0.
Hypothesis Hc0 : c <> 0.
Hypothesis Hrad0 : rad <> 0.

Lemma wave_number_fin :
  div (mul (Fin 2) Math.PI) (_wavelength (refreshed a))
  = Fin (2 * PI / (c / f)).
Proof.
  unfold refreshed. fields. rewrite Hc, Hf.
  rewrite (div_Fin c f Hf0). fin_arith.
  rewrite div_Fin; [reflexivity|].
  unfold Rdiv. apply Rmult_integral_contrapositive_currified;
    [exact Hc0|now apply Rinv_neq_0_compat].
Qed.

Lemma element_at_fin i :
  exists xi yi,
    pos_x (element_at (refreshed a) i) = Fin xi /\
    pos_y (element_at (refreshed a) i) = Fin yi.
Proof.
  unfold element_at, refreshed. fields.
  destruct (String.eqb (_geometry a) "linear").
  - unfold linear_element. fields. rewrite Hn, Hp, HP, Ho.
    cbn [pos_x pos_y px py]. fin_eval. eauto.
  - unfold curved_element, curved_local, curved_elementAngle. fields.
    rewrite Hn, Hp, HP, Ho, Hrad. cbn [pos_x pos_y px py]. fin_arith.
    destruct (or_one_nonzero (INR n + - (1))) as (d & -> & Hd).
    rewrite (div_Fin _ rad Hrad0). rewrite (div_Fin _ d Hd).
    fin_eval. eauto.
Qed.

Lemma direction_fin :
  steeringDir (refreshed a)
  = (Fin (sin (s * PI / 180 + o * PI / 180)),
     Fin (cos (s * PI / 180 + o * PI / 180))).
Proof.
  unfold steeringDir, refreshed. fields. rewrite Hs, Ho. fin_eval.
  reflexivity.
Qed.

(** The far-field phase as a real number. *)
Lemma element_phase_far_fin e xi yi :
  isFinite (_focalDistance a) = false ->
  pos_x e = Fin xi -> pos_y e = Fin yi ->
  element_phase (refreshed a) e
  = Fin (0 + - (2 * PI / (c / f)
                * ((xi + - X) * sin (s * PI / 180 + o * PI / 180)
                   + (yi + - Y) * cos (s * PI / 180 + o * PI / 180)))).
Proof.
  intros HF Hx Hy. unfold element_phase, focalPoint.
  rewrite wave_number_fin, direction_fin.
  change (_focalDistance (refreshed a)) with (_focalDistance a).
  change (_position (refreshed a)) with (_position a).
  rewrite HF, HP, Hx, Hy. cbn [px py]. fin_arith. reflexivity.
Qed.

(** In either mode the phase of an element at a finite position is finite. *)
Lemma element_phase_fin e xi yi :
  pos_x e = Fin xi -> pos_y e = Fin yi ->
  exists ph, element_phase (refreshed a) e = Fin ph.
Proof.
  intros Hx Hy. destruct (isFinite (_focalDistance a)) eqn:HF.
  - unfold element_phase, focalPoint.
    rewrite wave_number_fin, direction_fin.
    change (_focalDistance (refreshed a)) with (_focalDistance a).
    change (_position (refreshed a)) with (_position a).
    rewrite HF. destruct (_focalDistance a) as [F| | |]; try discriminate.
    rewrite HP, Hx, Hy. cbn [px py]. fin_arith.
    rewrite sqrt_Fin by apply sum_squares_nonneg. fin_arith. eauto.
  - rewrite (element_phase_far_fin e xi yi HF Hx Hy). eauto.
Qed.

End FiniteConfiguration.

(** ** Beam pattern *)

Lemma fold_left_const_step {B : Type} (l : list B)
      (step : number * number -> B -> number * number) (u v : R) :
  (forall acc i, In i l ->
                 step acc i = (add (fst acc) (Fin u), add (snd acc) (Fin v))) ->
  forall r0 i0,
    fold_left step l (Fin r0, Fin i0)
    = (Fin (r0 + INR (List.length l) * u), Fin (i0 + INR (List.length l) * v)).
Proof.
  induction l as [|b l IH]; intros Hstep r0 i0.
  - simpl. f_equal; f_equal; lra.
  - cbn [fold_left]. rewrite Hstep by (left; reflexivity).
    cbn [fst snd add]. rewrite IH by (intros; apply Hstep; now right).
    cbn [List.length]. rewrite S_INR. f_equal; f_equal; ring.
Qed.

(** The beam pattern at the steering angle of a far-field array with
    orientation 0: every element contributes the same phasor. *)
Lemma beam_at_steering fuel a n :
  coherent a -> valid a -> _numElements a = Fin (INR n) -> (n <= fuel)%nat ->
  _orientation a = Fin 0 -> isFinite (_focalDistance a) = false ->
  exists A c,
    _amplitude a = Fin A /\
    calculateBeamPattern fuel a (_steeringAngle a)
    = Ok (recalculated a n,
          div (Fin ((0 + INR n * (A * cos c)) * (0 + INR n * (A * cos c))
                    + (0 + INR n * (A * sin c)) * (0 + INR n * (A * sin c))))
              (Fin (INR n * INR n * A * A))).
Proof.
  intros C V Hn Hfuel Ho HF.
  destruct V as [_ (p & Hp & Bp) (f & Hf & Bf) (s & Hs & Bs) (X & Y & HP)
                   (rad & Hrad & Brad) _ _ (A & HA & BA) (c & Hc & Bc)].
  assert (Hf0 : f <> 0) by lra. assert (Hc0 : c <> 0) by lra.
  assert (Hrad0 : rad <> 0) by lra.
  exists A, (2 * PI / (c / f) * (X * sin (s * PI / 180) + Y * cos (s * PI / 180))).
  split; [exact HA|].
  unfold calculateBeamPattern.
  rewrite (ensureCalculated_nat fuel a n C Hn Hfuel). cbn [bind].
  destruct (recalculated_fields a n) as (Ep & Eph & Ew & _ & Ea & En & _).
  rewrite Ep, En, Ea, Hn, HA, Hs, forEach_seq.
  change (_wavelength (recalculated a n)) with (_wavelength (refreshed a)).
  rewrite (wave_number_fin a f c Hf Hc Hf0 Hc0).
  fin_eval.
  rewrite (fold_left_const_step _ _
             (A * cos (2 * PI / (c / f)
                       * (X * sin (s * PI / 180) + Y * cos (s * PI / 180))))
             (A * sin (2 * PI / (c / f)
                       * (X * sin (s * PI / 180) + Y * cos (s * PI / 180))))).
  - rewrite length_seq. fin_arith. reflexivity.
  - intros acc i Hi. apply in_seq in Hi. unfold beam_step.
    rewrite Eph, Ea, HA, nth_error_map_seq by lia. cbn [toNumber].
    destruct (element_at_fin a n p X Y rad 0 Hn Hp HP Hrad Ho Hrad0 i)
      as (xi & yi & Hx & Hy).
    rewrite (element_phase_far_fin a f s X Y 0 c Hf Hs HP Ho Hc Hf0 Hc0
               _ xi yi HF Hx Hy).
    rewrite Hx, Hy. fin_arith.
    replace (s * PI / 180 + 0 * PI / 180) with (s * PI / 180) by lra.
    match goal with
    | |- (add _ (Fin (A * cos ?t)), _) = _ =>
        replace t with (2 * PI / (c / f)
                        * (X * sin (s * PI / 180) + Y * cos (s * PI / 180)))
          by ring
    end.
    reflexivity.
Qed.

Lemma peak_ratio (n : nat) (A c : R) :
  (1 <= n)%nat -> A <> 0 ->
  div (Fin ((0 + INR n * (A * cos c)) * (0 + INR n * (A * cos c))
            + (0 + INR n * (A * sin c)) * (0 + INR n * (A * sin c))))
      (Fin (INR n * INR n * A * A))
  = Fin 1.
Proof.
  intros Hn HA.
  assert (N : INR n <> 0) by (apply not_0_INR; lia).
  assert (D : INR n * INR n * A * A <> 0).
  { repeat apply Rmult_integral_contrapositive_currified; assumption. }
  rewrite div_Fin by exact D. f_equal.
  pose proof (sin2_cos2 c) as T. unfold Rsqr in T.
  replace ((0 + INR n * (A * cos c)) * (0 + INR n * (A * cos c))
           + (0 + INR n * (A * sin c)) * (0 + INR n * (A * sin c)))
    with (INR n * INR n * A * A * (sin c * sin c + cos c * cos c)) by ring.
  rewrite T. field. now repeat split.
Qed.

(** On a coherent valid far-field array with orientation 0 and a nonzero
    amplitude, the beam pattern at the steering angle is exactly 1. *)
Lemma beam_peak fuel a n :
  coherent a -> valid a -> _numElements a = Fin (INR n) -> (n <= fuel)%nat ->
  _orientation a = Fin 0 -> isFinite (_focalDistance a) = false ->
  _amplitude a <> Fin 0 ->
  calculateBeamPattern fuel a (_steeringAngle a)
  = Ok (recalculated a n, Fin 1).
Proof.
  intros C V Hn Hfuel Ho HF HA.
  destruct (beam_at_steering fuel a n C V Hn Hfuel Ho HF) as (A & c & EA & ->).
  destruct (valid_numElements a V) as (n' & Hn' & Bn).
  rewrite Hn in Hn'. injection Hn' as Hn'. apply INR_eq in Hn'. subst n'.
  rewrite peak_ratio; [reflexivity|lia|].
  intros ->. now apply HA.
Qed.

(** ** Validity is kept by the setters *)

Lemma clamp_count r :
  exists n, Math.max (Fin 1) (Math.min (Fin 64) (Math.round (Fin r)))
            = Fin (INR n) /\ (1 <= n <= 64)%nat.
Proof.
  unfold Math.round. rewrite min_Fin, max_Fin.
  set (m := Int_part (r + / 2)).
  destruct (Z_le_gt_dec m 1) as [H1|H1].
  - exists 1%nat. split; [|lia]. apply IZR_le in H1.
    rewrite Rmin_right by lra. rewrite Rmax_left by lra. reflexivity.
  - destruct (Z_le_gt_dec 64 m) as [H64|H64].
    + exists 64%nat. split; [|lia]. apply IZR_le in H64.
      rewrite Rmin_left by lra. rewrite Rmax_right by lra.
      rewrite INR_IZR_INZ. reflexivity.
    + exists (Z.to_nat m). split; [|lia].
      assert (L : IZR 1 < IZR m) by (apply IZR_lt; lia).
      assert (U : IZR m < IZR 64) by (apply IZR_lt; lia).
      rewrite Rmin_right by lra. rewrite Rmax_right by lra.
      rewrite INR_IZR_INZ, Z2Nat.id by lia. reflexivity.
Qed.

Lemma or_zero_fin x : exists d, or_ (Fin x) (Fin 0) = Fin d.
Proof. unfold or_. destruct (truthy (Fin x)); eauto. Qed.

Lemma valid_default : valid default_array.
Proof.
  constructor.
  - exists 16%nat. split; [exact INR_16|lia].
  - exists 0.005. split; [reflexivity|lra].
  - exists 40000. split; [reflexivity|lra].
  - exists 0. split; [reflexivity|lra].
  - exists 0, (-0.1). reflexivity.
  - exists 0.1. split; [reflexivity|lra].
  - exists 0. split; [reflexivity|lra].
  - left. reflexivity.
  - exists 1.0. split; [reflexivity|lra].
  - exists 343. split; [reflexivity|lra].
Qed.

(** A setter called with a finite argument keeps the configuration valid. *)
Lemma valid_setter s a :
  finite_setter s -> valid a -> valid (apply_setter s a).
Proof.
  intros Fs [Vn Vp Vf Vs VP Vr Vo VF VA Vc].
  destruct s as [v|v|v|v|q|g|v|v|v|v|b|v]; cbn [finite_setter] in Fs;
    try (destruct v as [r| | |]; try discriminate Fs);
    constructor; try assumption; cbn [apply_setter].
  - unfold set_numElements. fields. apply clamp_count.
  - unfold set_pitch. fields. rewrite max_Fin. eexists. split; [reflexivity|].
    apply Rmax_l.
  - unfold set_frequency. fields. rewrite max_Fin.
    eexists. split; [reflexivity|]. apply Rmax_l.
  - unfold set_steeringAngle. fields. rewrite min_Fin, max_Fin.
    eexists. split; [reflexivity|]. split; [apply Rmax_l|].
    apply Rmax_lub; [lra|apply Rmin_l].
  - unfold set_position. fields. destruct q as [qx qy], Fs as [Fx Fy].
    cbn [px py] in *. destruct qx as [x| | |], qy as [y| | |];
      try discriminate.
    destruct (or_zero_fin x) as (dx & ->), (or_zero_fin y) as (dy & ->).
    eauto.
  - unfold set_curvatureRadius. fields. rewrite max_Fin.
    eexists. split; [reflexivity|]. apply Rmax_l.
  - unfold set_orientation. fields.
    destruct (rem_360 r) as (r' & E & B & _). eauto.
  - rewrite set_focalDistance_Fin. destruct (Rle_dec r 0); [now left|].
    right. exists r. split; [reflexivity|lra].
  - rewrite set_amplitude_Fin. eexists. split; [reflexivity|].
    split; [apply Rmax_l|]. apply Rmax_lub; [lra|apply Rmin_l].
  - unfold set_speedOfSound. fields. rewrite max_Fin.
    eexists. split; [reflexivity|]. apply Rmax_l.
Qed.

Lemma Rsign_zero r : r = 0 -> Rsign r = Eq.
Proof.
  intros ->. unfold Rsign.
  destruct (total_order_T 0 0) as [[H|H]|H]; try reflexivity; lra.
Qed.

Lemma div_zero_zero x y : x = 0 -> y = 0 -> div (Fin x) (Fin y) = NaN.
Proof.
  intros Hx Hy. cbn [div].
  destruct (Req_dec_T y 0) as [_|C]; [|contradiction].
  now rewrite Rsign_zero.
Qed.

(** With amplitude 0 every step of the loop leaves both sums at 0. *)
Lemma beam_fold_silent {B : Type} (l : list B)
      (step : number * number -> B -> number * number) :
  (forall acc i, In i l ->
     exists t, step acc i = (add (fst acc) (Fin (0 * cos t)),
                             add (snd acc) (Fin (0 * sin t)))) ->
  fold_left step l (Fin 0, Fin 0) = (Fin 0, Fin 0).
Proof.
  induction l as [|b l IH]; intros H; cbn [fold_left]; [reflexivity|].
  destruct (H (Fin 0, Fin 0) b (or_introl eq_refl)) as (t & ->).
  cbn [fst snd add].
  replace (0 + 0 * cos t) with 0 by ring.
  replace (0 + 0 * sin t) with 0 by ring.
  apply IH. intros; apply H; now right.
Qed.

(** C2: the normalisation of [calculateBeamPattern] has no guard: on every
    reachable array with a valid configuration and amplitude 0 (a value the
    amplitude setter accepts), both sums and [maxIntensity] are 0 and the
    method returns [0 / 0 = NaN] at every finite angle, in particular at the
    steering angle, where the specification says 1.0 and the docstring
    promises a normalized intensity between 0 and 1. *)
Theorem beam_pattern_zero_amplitude_nan :
  forall fuel a n (theta : R),
    reachable a -> valid a ->
    _numElements a = Fin (INR n) -> (n <= fuel)%nat ->
    _amplitude a = Fin 0 ->
    calculateBeamPattern fuel a (Fin theta) = Ok (recalculated a n, NaN).
Proof.
  intros fuel a n theta R V Hn Hfuel HA.
  pose proof (reachable_coherent a R) as C.
  destruct V as [_ (p & Hp & Bp) (f & Hf & Bf) (s & Hs & Bs) (X & Y & HP)
                   (rad & Hrad & Brad) (o & Ho & Bo) _ _ (c & Hc & Bc)].
  assert (Hf0 : f <> 0) by lra. assert (Hc0 : c <> 0) by lra.
  assert (Hrad0 : rad <> 0) by lra.
  unfold calculateBeamPattern.
  rewrite (ensureCalculated_nat fuel a n C Hn Hfuel). cbn [bind].
  destruct (recalculated_fields a n) as (Ep & Eph & Ew & _ & Ea & En & _).
  rewrite Ep, En, Ea, Hn, HA, forEach_seq.
  change (_wavelength (recalculated a n)) with (_wavelength (refreshed a)).
  rewrite (wave_number_fin a f c Hf Hc Hf0 Hc0).
  fin_eval.
  rewrite beam_fold_silent.
  - cbn [fst snd]. fin_arith. rewrite div_zero_zero; [reflexivity| |]; ring.
  - intros acc i Hi. apply in_seq in Hi. unfold beam_step.
    rewrite Eph, Ea, HA, nth_error_map_seq by lia. cbn [toNumber].
    destruct (element_at_fin a n p X Y rad o Hn Hp HP Hrad Ho Hrad0 i)
      as (xi & yi & Hx & Hy).
    destruct (element_phase_fin a f s X Y o c Hf Hs HP Ho Hc Hf0 Hc0
                _ xi yi Hx Hy) as (ph & ->).
    rewrite Hx, Hy. fin_arith. eexists. reflexivity.
Qed.

Lemma reachable_steered : reachable steered_array.
Proof.
  exact (reach_set (SetSteeringAngle _) _
           (reach_set (SetPitch _) _
              (reach_set (SetNumElements _) _ reachable_default))).
Qed.

Lemma valid_steered : valid steered_array.
Proof.
  apply (valid_setter (SetSteeringAngle _)); [reflexivity|].
  apply (valid_setter (SetPitch _)); [reflexivity|].
  apply (valid_setter (SetNumElements _)); [reflexivity|].
  exact valid_default.
Qed.

Lemma steered_numElements : _numElements steered_array = Fin (INR 11).
Proof.
  change (_numElements steered_array)
    with (_numElements (set_numElements (Fin (IZR 11)) default_array)).
  rewrite set_numElements_whole by lia. rewrite INR_IZR_INZ. reflexivity.
Qed.

Lemma steered_steeringAngle : _steeringAngle steered_array = Fin 30.
Proof.
  unfold steered_array, set_steeringAngle. fields.
  rewrite min_Fin, max_Fin. f_equal.
  rewrite Rmin_right by lra. now rewrite Rmax_right by lra.
Qed.

Lemma Fin_neq a b : a <> b -> Fin a <> Fin b.
Proof. intros H E. apply H. now injection E. Qed.

Lemma reachable_silent : reachable silent_array.
Proof. exact (reach_set (SetAmplitude _) _ reachable_default). Qed.

Lemma valid_silent : valid silent_array.
Proof.
  apply (valid_setter (SetAmplitude _)); [reflexivity|exact valid_default].
Qed.

(** C2, at the failing input: the default array (enabled, orientation 0,
    focal distance infinite, 16 elements, steering angle 0) with its
    amplitude set to 0 through the setter: the beam pattern at the steering
    angle is NaN. *)
Lemma beam_pattern_zero_amplitude_nan_witness :
  _enabled silent_array = true /\ _orientation silent_array = Fin 0 /\
  _focalDistance silent_array = PInf /\
  _steeringAngle silent_array = Fin 0 /\
  calculateBeamPattern 16 silent_array (Fin 0)
  = Ok (recalculated silent_array 16, NaN).
Proof.
  repeat (split; [reflexivity|]).
  exact (beam_pattern_zero_amplitude_nan 16 silent_array 16 0
           reachable_silent valid_silent INR_16 (le_n 16)
           (set_amplitude_zero default_array)).
Defined.

(** C9: [calculateBeamPattern] never reads the enabled flag: it returns the
    same value on an array whether it is enabled or disabled, while
    [getElementData] then returns the empty sequence and [calculateFieldAt]
    returns 0; the disabled default array still has intensity 1 at its
    steering angle. *)
Theorem beam_pattern_ignores_enabled :
  forall fuel a angle,
    returned (calculateBeamPattern fuel (set_enabled false a) angle)
    = returned (calculateBeamPattern fuel (set_enabled true a) angle) /\
    (forall b,
       returned (calculateBeamPattern fuel (set_enabled b a) angle)
       = returned (calculateBeamPattern fuel a angle)) /\
    (forall a' data,
       getElementData fuel (set_enabled false a) = Ok (a', data) ->
       data = []) /\
    (forall qx qy t a' v,
       calculateFieldAt fuel (set_enabled false a) qx qy t = Ok (a', v) ->
       v = Fin 0) /\
    returned (calculateBeamPattern 16 (set_enabled false default_array)
                                   (Fin 0))
    = Some (Fin 1).
Proof.
  intros fuel a angle.
  assert (E : forall b,
             returned (calculateBeamPattern fuel (set_enabled b a) angle)
             = returned (calculateBeamPattern fuel a angle)).
  { intros b. rewrite calculateBeamPattern_enabled.
    destruct (calculateBeamPattern fuel a angle) as [[a' v]| |]; reflexivity. }
  split; [now rewrite !E|]. split; [exact E|].
  split; [apply getElementData_disabled|].
  split; [apply calculateFieldAt_disabled|].
  rewrite calculateBeamPattern_enabled.
  pose proof (beam_peak 16 default_array 16
                (reachable_coherent _ reachable_default) valid_default
                INR_16 (le_n 16) eq_refl eq_refl (Fin_neq 1.0 0 ltac:(lra)))
    as P.
  change (_steeringAngle default_array) with (Fin 0) in P.
  rewrite P. reflexivity.
Qed.

(** C9, witness: the disabled default array yields no element data while
    its beam pattern at the steering angle is still 1. *)
Lemma beam_pattern_ignores_enabled_witness :
  (exists a',
     getElementData 16 (set_enabled false default_array) = Ok (a', [])) /\
  returned (calculateBeamPattern 16 (set_enabled false default_array) (Fin 0))
  = Some (Fin 1).
Proof.
  destruct (beam_pattern_ignores_enabled 16 default_array (Fin 0))
    as (_ & _ & Hd & _ & Hb).
  split; [|exact Hb].
  pose proof (getElementData_nat 16 (set_enabled false default_array) 16
                (reachable_coherent _
                   (reach_set (SetEnabled false) _ reachable_default))
                INR_16 (le_n 16)) as E.
  eexists. etransitivity; [exact E|]. apply f_equal. apply f_equal.
  exact (Hd _ _ E).
Defined.

(** ** Field evaluation *)

Lemma combine_map_seq {A B : Type} (f : nat -> A) (g : nat -> B) (l : list nat) :
  combine (map f l) (map g l) = map (fun i => (f i, g i)) l.
Proof. induction l as [|i l IH]; simpl; [|rewrite IH]; reflexivity. Qed.

(** One step of the loop adds the contribution of a contributing element
    and skips the others. *)
Lemma field_step_spec (a : PhasedArray) (qx qy t r ph : number)
      (e : ElementPos) (i : nat) :
  _wavelength a = div (_speedOfSound a) (_frequency a) ->
  nth_error (_elementPhases a) i = Some ph ->
  field_step a qx qy t (div (mul (Fin 2) Math.PI) (_wavelength a))
             (mul (mul (Fin 2) Math.PI) (_frequency a)) r e i
  = if contributes qx qy (e, ph)
    then add r (spec_contribution a qx qy t (e, ph))
    else r.
Proof.
  intros W Hph. unfold field_step, contributes, spec_contribution, spec_k,
    distance_to.
  rewrite Hph, <- W. cbn [toNumber fst snd].
  destruct (lt _ (Fin 0.0001)); reflexivity.
Qed.

(** The skipping loop is the sum over the contributing elements. *)
Lemma field_fold_spec (a : PhasedArray) (qx qy t : number)
      (f : nat -> ElementPos) (g : nat -> number) (l : list nat) :
  _wavelength a = div (_speedOfSound a) (_frequency a) ->
  (forall i, In i l -> nth_error (_elementPhases a) i = Some (g i)) ->
  forall acc,
    fold_left
      (fun r i =>
         field_step a qx qy t
                    (div (mul (Fin 2) Math.PI) (_wavelength a))
                    (mul (mul (Fin 2) Math.PI) (_frequency a))
                    r (f i) i)
      l acc
    = fold_left add
        (map (spec_contribution a qx qy t)
             (filter (contributes qx qy) (map (fun i => (f i, g i)) l)))
        acc.
Proof.
  intros W. induction l as [|i l IH]; intros Hg acc; [reflexivity|].
  cbn [fold_left map filter].
  rewrite (field_step_spec a qx qy t acc (g i) (f i) i W)
    by (apply Hg; now left).
  destruct (contributes qx qy (f i, g i)); cbn [map fold_left];
    apply IH; intros; apply Hg; now right.
Qed.

Lemma sqrt_fin_pos d : 0 <= d -> exists u, Math.sqrt (Fin (d + 0.01)) = Fin u /\ u <> 0.
Proof.
  intros H. exists (sqrt (d + 0.01)). split.
  - apply sqrt_Fin. lra.
  - assert (0 < sqrt (d + 0.01)) by (apply sqrt_lt_R0; lra). lra.
Qed.

(** One step of the loop keeps the running sum finite. *)
Lemma field_step_fin (a : PhasedArray) (A f kk qx qy t xi yi ph r : R)
      (e : ElementPos) (i : nat) :
  _amplitude a = Fin A -> _frequency a = Fin f ->
  pos_x e = Fin xi -> pos_y e = Fin yi ->
  nth_error (_elementPhases a) i = Some (Fin ph) ->
  exists r',
    field_step a (Fin qx) (Fin qy) (Fin t) (Fin kk)
               (mul (mul (Fin 2) Math.PI) (_frequency a)) (Fin r) e i
    = Fin r'.
Proof.
  intros HA Hf Hx Hy Hph. unfold field_step.
  rewrite HA, Hf, Hx, Hy, Hph. cbn [toNumber]. fin_arith.
  rewrite sqrt_Fin by apply sum_squares_nonneg.
  destruct (lt _ (Fin 0.0001)); [eauto|].
  fin_arith.
  destruct (sqrt_fin_pos
              (sqrt ((qx + - xi) * (qx + - xi) + (qy + - yi) * (qy + - yi)))
              (sqrt_pos _)) as (u & -> & Hu).
  rewrite div_Fin by exact Hu. fin_arith. eauto.
Qed.

Lemma fold_left_fin {B : Type} (step : number -> B -> number) (l : list B) :
  (forall r b, In b l -> exists r', step (Fin r) b = Fin r') ->
  forall r, exists r', fold_left step l (Fin r) = Fin r'.
Proof.
  induction l as [|b l IH]; intros H r; cbn [fold_left]; [eauto|].
  destruct (H r b (or_introl eq_refl)) as (r1 & ->).
  apply IH. intros; apply H; now right.
Qed.

Lemma coincident_skipped (qx qy : R) (e : ElementPos) (ph : number) :
  pos_x e = Fin qx -> pos_y e = Fin qy ->
  contributes (Fin qx) (Fin qy) (e, ph) = false.
Proof.
  intros Hx Hy. unfold contributes, distance_to. cbn [fst].
  rewrite Hx, Hy. fin_arith. rewrite sqrt_Fin by apply sum_squares_nonneg.
  replace ((qx + - qx) * (qx + - qx) + (qy + - qy) * (qy + - qy)) with 0
    by ring.
  rewrite sqrt_0. cbn [lt]. destruct (Rlt_dec 0 0.0001); [reflexivity|lra].
Qed.

(** [calculateFieldAt] on a coherent, valid, enabled array: a finite number,
    the sum over the contributing elements. *)
Lemma calculateFieldAt_fin fuel a n (qx qy t : R) :
  coherent a -> valid a -> _enabled a = true ->
  _numElements a = Fin (INR n) -> (n <= fuel)%nat ->
  exists v,
    calculateFieldAt fuel a (Fin qx) (Fin qy) (Some (Fin t))
    = Ok (recalculated a n, Fin v) /\
    Fin v = spec_field (recalculated a n) (Fin qx) (Fin qy) (Fin t)
              (combine (_elementPositions (recalculated a n))
                       (_elementPhases (recalculated a n))).
Proof.
  intros C V He Hn Hfuel.
  destruct V as [_ (p & Hp & Bp) (f & Hf & Bf) (s & Hs & Bs) (X & Y & HP)
                   (rad & Hrad & Brad) (o & Ho & Bo) _ (A & HA & BA)
                   (c & Hc & Bc)].
  assert (Hf0 : f <> 0) by lra. assert (Hc0 : c <> 0) by lra.
  assert (Hrad0 : rad <> 0) by lra.
  unfold calculateFieldAt.
  rewrite (ensureCalculated_nat fuel a n C Hn Hfuel). cbn [bind].
  destruct (recalculated_fields a n) as (Ep & Eph & Ew & Ee & Ea & En & Efr).
  rewrite Ee, He. cbn [negb]. rewrite Ep, forEach_seq.
  set (a' := recalculated a n) in *.
  assert (Hstep : forall r i, In i (seq 0 n) ->
            exists r',
              field_step a' (Fin qx) (Fin qy) (Fin t)
                (div (mul (Fin 2) Math.PI) (_wavelength a'))
                (mul (mul (Fin 2) Math.PI) (_frequency a')) (Fin r)
                (element_at (refreshed a) i) i = Fin r').
  { intros r i Hi. apply in_seq in Hi.
    change (_wavelength a') with (_wavelength (refreshed a)).
    rewrite (wave_number_fin a f c Hf Hc Hf0 Hc0).
    destruct (element_at_fin a n p X Y rad o Hn Hp HP Hrad Ho Hrad0 i)
      as (xi & yi & Hx & Hy).
    destruct (element_phase_fin a f s X Y o c Hf Hs HP Ho Hc Hf0 Hc0
                _ xi yi Hx Hy) as (ph & Hph).
    apply (field_step_fin a' A f _ qx qy t xi yi ph r).
    - now rewrite Ea.
    - now rewrite Efr.
    - exact Hx.
    - exact Hy.
    - rewrite Eph, nth_error_map_seq by lia. now rewrite Hph. }
  destruct (fold_left_fin
              (fun r i =>
                 field_step a' (Fin qx) (Fin qy) (Fin t)
                   (div (mul (Fin 2) Math.PI) (_wavelength a'))
                   (mul (mul (Fin 2) Math.PI) (_frequency a')) r
                   (element_at (refreshed a) i) i)
              (seq 0 n) Hstep 0) as (v & Ev).
  exists v. split; [now rewrite Ev|].
  rewrite <- Ev. unfold spec_field. rewrite Eph, combine_map_seq.
  apply (field_fold_spec a' (Fin qx) (Fin qy) (Fin t)
           (element_at (refreshed a))
           (fun i => element_phase (refreshed a) (element_at (refreshed a) i))).
  - exact Ew.
  - intros i Hi. apply in_seq in Hi.
    rewrite Eph, nth_error_map_seq by lia. reflexivity.
Qed.

(** C6 (amended): on every reachable, enabled array whose attributes are
    finite, in their ranges and of moderate size, and for every query point
    and time of moderate size (the time defaulting to 0),
    [calculateFieldAt] returns a finite number (given fuel for the element
    count) and leaves the cache computed from the configuration: the number
    is the sum, over the elements computed from the configuration that are
    at distance at least 0.0001 from the point, of
    [amplitude / sqrt(dist + 0.01) * cos(k * dist - ω * t + phase)]; an
    element closer than the threshold, in particular one coincident with
    the point, is not part of the sum.  The sizes are bounded because the
    arithmetic of the model is exact: the bound keeps the squares and
    products of the method away from the overflow of binary64. *)
Theorem field_finite_at_elements :
  forall fuel a n (qx qy : R) (time : option R),
    reachable a -> valid a -> moderate_array a ->
    moderate (Fin qx) -> moderate (Fin qy) ->
    moderate (Fin (match time with Some t => t | None => 0 end)) ->
    _enabled a = true ->
    _numElements a = Fin (INR n) -> (n <= fuel)%nat ->
    exists v,
      calculateFieldAt fuel a (Fin qx) (Fin qy) (option_map Fin time)
      = Ok (recalculated a n, Fin v) /\
      Fin v = spec_field a (Fin qx) (Fin qy)
                (Fin (match time with Some t => t | None => 0 end))
                (computed_elements a n) /\
      (forall e ph,
         lt (distance_to (Fin qx) (Fin qy) e) (Fin 0.0001) = true ->
         contributes (Fin qx) (Fin qy) (e, ph) = false) /\
      (forall e ph,
         pos_x e = Fin qx -> pos_y e = Fin qy ->
         contributes (Fin qx) (Fin qy) (e, ph) = false).
Proof.
  intros fuel a n qx qy time R V _ _ _ _ He Hn Hfuel.
  destruct (calculateFieldAt_fin fuel a n qx qy
              (match time with Some t => t | None => 0 end)
              (reachable_coherent a R) V He Hn Hfuel) as (v & E & S).
  exists v. split; [|split; [|split]].
  - destruct time; exact E.
  - rewrite S. destruct (recalculated_fields a n) as (Ep & Eph & _).
    rewrite Ep, Eph, combine_map_seq. reflexivity.
  - intros e ph H. unfold contributes. cbn [fst]. now rewrite H.
  - intros e ph. apply coincident_skipped.
Qed.

Lemma default_first_element :
  pos_x (element_at default_array 0) = Fin (-0.0375) /\
  pos_y (element_at default_array 0) = Fin (-0.1).
Proof.
  change (element_at default_array 0) with (linear_element default_array 0).
  unfold linear_element.
  change (_numElements default_array) with (Fin 16).
  change (_pitch default_array) with (Fin 0.005).
  change (_orientation default_array) with (Fin 0).
  change (_position default_array) with (mkPoint (Fin 0) (Fin (-0.1))).
  cbn [pos_x pos_y px py INR]. fin_eval.
  replace (0 * PI / 180) with 0 by lra. rewrite sin_0, cos_0.
  split; f_equal; lra.
Qed.

(** C6, witness: the default array queried exactly at its first element,
    at time 0.001: a finite value, that element left out. *)
Lemma field_finite_at_elements_witness :
  exists v,
    calculateFieldAt 16 default_array (Fin (-0.0375)) (Fin (-0.1))
                     (Some (Fin 0.001))
    = Ok (recalculated default_array 16, Fin v) /\
    forall ph,
      contributes (Fin (-0.0375)) (Fin (-0.1))
                  (element_at default_array 0, ph) = false.
Proof.
  assert (P : 10 ^ 6 <= 10 ^ 100) by (apply Rle_pow; [lra|lia]).
  assert (M : forall r, - 10 ^ 6 <= r <= 10 ^ 6 -> moderate (Fin r)).
  { intros r Hr. exists r. split; [reflexivity|].
    apply Rabs_le. lra. }
  assert (P6 : 10 ^ 6 = 1000000) by (simpl; ring).
  assert (MA : moderate_array default_array).
  { repeat split; try (left; reflexivity); apply M; rewrite P6; lra. }
  destruct (field_finite_at_elements 16 default_array 16 (-0.0375) (-0.1)
              (Some 0.001) reachable_default valid_default MA
              (M (-0.0375) ltac:(rewrite P6; lra))
              (M (-0.1) ltac:(rewrite P6; lra))
              (M 0.001 ltac:(rewrite P6; lra))
              eq_refl INR_16 (le_n 16))
    as (v & E & _ & _ & Hc).
  exists v. split; [exact E|].
  intros ph.
  exact (Hc _ ph (proj1 default_first_element) (proj2 default_first_element)).
Defined.

(** ** Serialization round trip *)

Lemma or_truthy x d : truthy x = true -> or_ x d = x.
Proof. unfold or_. now intros ->. Qed.

(** A zero default gives back a finite value, zero or not. *)
Lemma or_zero_same x : or_ (Fin x) (Fin 0) = Fin x.
Proof.
  unfold or_, truthy. destruct (Req_dec_T x 0) as [->|_]; reflexivity.
Qed.

Lemma or_string_nonempty s d : s <> EmptyString -> or_string (Some s) d = s.
Proof.
  intros H. cbn [or_string]. destruct (String.eqb_spec s EmptyString);
    [contradiction|reflexivity].
Qed.

(** The geometry of a reachable instance is never the empty string. *)
Lemma reachable_geometry a : reachable a -> _geometry a <> EmptyString.
Proof.
  induction 1 as [fuel config counter a counter' H | s a _ IH | fuel a a' R IH H].
  - apply constructor_fields in H as (ps & phs & w & ->).
    unfold assigned_fields. fields. unfold or_string.
    destruct (cfg_geometry config) as [g|]; [|discriminate].
    destruct (String.eqb_spec g EmptyString); [discriminate|assumption].
  - destruct s; try exact IH.
    cbn [apply_setter]. unfold set_geometry. fields.
    destruct (String.eqb value "curved"); discriminate.
  - apply (ensureCalculated_recalculate _ _ _ (reachable_coherent a R)) in H
      as (fuel' & H).
    apply recalculate_shape in H as (ps & phs & ->). exact IH.
Qed.

(** The configuration the constructor assigns from [toJSON a] is that of
    [a], for a valid enabled [a] with a nonzero amplitude. *)
Lemma roundtrip_fields a id' :
  valid a -> _geometry a <> EmptyString -> _amplitude a <> Fin 0 ->
  let this := assigned_fields (toJSON a) id' in
  _numElements this = _numElements a /\ _pitch this = _pitch a /\
  _frequency this = _frequency a /\ _steeringAngle this = _steeringAngle a /\
  _position this = _position a /\ _geometry this = _geometry a /\
  _curvatureRadius this = _curvatureRadius a /\
  _orientation this = _orientation a /\
  _focalDistance this = _focalDistance a /\
  _amplitude this = _amplitude a /\ _speedOfSound this = _speedOfSound a.
Proof.
  intros [(n & Hn & Bn) (p & Hp & Bp) (f & Hf & Bf) (s & Hs & Bs)
            (X & Y & HP) (rad & Hrad & Brad) (o & Ho & Bo) VF
            (A & HA & BA) (c & Hc & Bc)] Hg HA0.
  unfold assigned_fields. fields.
  cbn [toJSON cfg_numElements cfg_pitch cfg_frequency cfg_steeringAngle
       cfg_position cfg_geometry cfg_curvatureRadius cfg_orientation
       cfg_focalDistance cfg_amplitude cfg_speedOfSound or_default].
  rewrite Hn, Hp, Hf, Hs, HP, Hrad, Ho, HA, Hc. cbn [px py].
  assert (N : INR n <> 0) by (apply not_0_INR; lia).
  assert (A0 : A <> 0) by (intros ->; now apply HA0).
  rewrite !or_zero_same, or_string_nonempty by exact Hg.
  assert (EF : or_ (_focalDistance a) PInf = _focalDistance a).
  { destruct VF as [->|(F & -> & BF)]; [reflexivity|].
    apply or_truthy, truthy_Fin. lra. }
  rewrite EF.
  rewrite !or_truthy by (apply truthy_Fin; lra || assumption).
  repeat split.
Qed.

(** Element data depends on the configuration only. *)
Lemma element_data_config a b :
  _numElements a = _numElements b -> _pitch a = _pitch b ->
  _frequency a = _frequency b -> _steeringAngle a = _steeringAngle b ->
  _position a = _position b -> _geometry a = _geometry b ->
  _curvatureRadius a = _curvatureRadius b ->
  _orientation a = _orientation b -> _focalDistance a = _focalDistance b ->
  _amplitude a = _amplitude b -> _speedOfSound a = _speedOfSound b ->
  forall i, element_data a i = element_data b i.
Proof.
  destruct a, b. fields. intros; subst. reflexivity.
Qed.

(** Where the round trip does hold: on a reachable, valid, enabled array
    with a nonzero amplitude, [fromJSON (toJSON a)] returns an array with
    the same element data as [a]. *)
Lemma roundtrip_enabled_nonzero fuel a n counter :
  reachable a -> valid a -> _numElements a = Fin (INR n) -> (n <= fuel)%nat ->
  _enabled a = true -> _amplitude a <> Fin 0 ->
  exists a1 a2 a3 data,
    fromJSON fuel (toJSON a) counter = Ok (a1, S counter) /\
    getElementData fuel a1 = Ok (a2, data) /\
    getElementData fuel a = Ok (a3, data).
Proof.
  intros R V Hn Hfuel He HA.
  destruct (roundtrip_fields a (S counter) V (reachable_geometry a R) HA)
    as (En & Ep & Ef & Es & EP & Eg & Er & Eo & EF & EA & Ec).
  set (this := assigned_fields (toJSON a) (S counter)) in *.
  assert (Hn' : _numElements this = Fin (INR n)) by congruence.
  assert (E1 : fromJSON fuel (toJSON a) counter
               = Ok (recalculated this n, S counter)).
  { apply constructor_nat; assumption. }
  assert (C1 : coherent (recalculated this n)).
  { apply (coherent_recalculate fuel this). now apply recalculate_nat. }
  exists (recalculated this n), (recalculated (recalculated this n) n),
    (recalculated a n), (map (element_data a) (seq 0 n)).
  split; [exact E1|]. split.
  - rewrite (getElementData_nat fuel _ n C1 Hn' Hfuel).
    change (_enabled (recalculated this n)) with true. cbv iota.
    do 2 f_equal. apply map_ext. intros i.
    apply element_data_config; assumption.
  - rewrite (getElementData_nat fuel a n (reachable_coherent a R) Hn Hfuel).
    now rewrite He.
Qed.

Lemma or_16 : or_ (Fin 16) (Fin 16) = Fin (INR 16).
Proof. unfold or_. rewrite truthy_Fin by lra. exact INR_16. Qed.

(** The array rebuilt from the serialized form of a 16-element array. *)
Lemma getElementData_rebuilt json :
  or_default (cfg_numElements json) (Fin 16) = Fin (INR 16) ->
  exists a1 a3,
    fromJSON 16 json 1 = Ok (a1, 2%nat) /\
    _enabled a1 = true /\
    _amplitude a1 = or_default (cfg_amplitude json) (Fin 1.0) /\
    getElementData 16 a1 = Ok (a3, map (element_data a1) (seq 0 16)).
Proof.
  intros Hn.
  pose proof (constructor_nat 16 json 1 16 Hn (le_n 16)) as E.
  exists (recalculated (assigned_fields json 2) 16). eexists.
  split; [exact E|]. split; [reflexivity|]. split; [reflexivity|].
  exact (getElementData_nat 16 (recalculated (assigned_fields json 2) 16) 16
           (reachable_coherent _ (reach_new _ _ _ _ _ E)) Hn (le_n 16)).
Qed.

(** C1, at the failing inputs: the default array disabled through the
    setter returns no element data, but the array rebuilt from its
    serialized form is enabled and returns 16 entries; the default array
    with amplitude 0 returns entries of amplitude 0, but the array rebuilt
    from its serialized form returns entries of amplitude 1. *)
Theorem roundtrip_loses_disabled_and_zero_amplitude :
  (exists a1 a2 a3 data,
     fromJSON 16 (toJSON disabled_array) 1 = Ok (a1, 2%nat) /\
     getElementData 16 disabled_array = Ok (a2, []) /\
     getElementData 16 a1 = Ok (a3, data) /\
     List.length data = 16%nat /\
     _enabled disabled_array = false /\ _enabled a1 = true) /\
  (exists b1 b2 b3 data0 data1,
     fromJSON 16 (toJSON silent_array) 1 = Ok (b1, 2%nat) /\
     getElementData 16 silent_array = Ok (b2, data0) /\
     getElementData 16 b1 = Ok (b3, data1) /\
     List.length data0 = 16%nat /\ List.length data1 = 16%nat /\
     Forall (fun e => ed_amplitude e = Fin 0) data0 /\
     Forall (fun e => ed_amplitude e = Fin 1.0) data1).
Proof.
  split.
  - destruct (getElementData_rebuilt (toJSON disabled_array) or_16)
      as (a1 & a3 & E1 & He & _ & E3).
    exists a1, (recalculated disabled_array 16), a3,
      (map (element_data a1) (seq 0 16)).
    split; [exact E1|]. split.
    + exact (getElementData_nat 16 disabled_array 16
               (reachable_coherent _
                  (reach_set (SetEnabled false) _ reachable_default))
               INR_16 (le_n 16)).
    + split; [exact E3|]. split; [|split; [reflexivity|exact He]].
      now rewrite length_map, length_seq.
  - destruct (getElementData_rebuilt (toJSON silent_array) or_16)
      as (b1 & b3 & E1 & _ & EA & E3).
    exists b1, (recalculated silent_array 16), b3,
      (map (element_data silent_array) (seq 0 16)),
      (map (element_data b1) (seq 0 16)).
    split; [exact E1|]. split.
    + exact (getElementData_nat 16 silent_array 16
               (reachable_coherent _ reachable_silent) INR_16 (le_n 16)).
    + split; [exact E3|].
      rewrite !length_map, !length_seq. repeat split.
      * apply Forall_forall. intros e He.
        apply in_map_iff in He as (i & <- & _).
        exact (set_amplitude_zero default_array).
      * apply Forall_forall. intros e He.
        apply in_map_iff in He as (i & <- & _).
        cbn [element_data ed_amplitude]. rewrite EA.
        cbn [toJSON cfg_amplitude or_default].
        unfold silent_array. rewrite set_amplitude_zero.
        unfold or_. now rewrite truthy_zero.
Qed.

(** ** Concrete cases of section 8 of the specification *)

Example numElements_100 :
  _numElements (set_numElements (Fin 100) default_array) = Fin 64.
Proof.
  unfold set_numElements. fields. unfold Math.round.
  rewrite (Int_part_half 100), min_Fin, max_Fin. f_equal.
  rewrite Rmin_left by lra. now rewrite Rmax_right by lra.
Qed.

Example numElements_0 :
  _numElements (set_numElements (Fin 0) default_array) = Fin 1.
Proof.
  unfold set_numElements. fields. unfold Math.round.
  rewrite (Int_part_half 0), min_Fin, max_Fin. f_equal.
  rewrite Rmin_right by lra. now rewrite Rmax_left by lra.
Qed.

Example orientation_370 :
  _orientation (set_orientation (Fin 370) default_array) = Fin 10.
Proof.
  unfold set_orientation. fields. cbn [rem].
  destruct (Req_dec_T 360 0) as [C|_]; [lra|]. f_equal.
  unfold Rtrunc. destruct (Rle_dec 0 (370 / 360)) as [_|C]; [|lra].
  unfold Int_part. rewrite <- (up_tech (370 / 360) 1); simpl; lra.
Qed.

Example focalDistance_nonpositive :
  _focalDistance (set_focalDistance (Fin (-5)) default_array) = PInf /\
  _focalDistance (set_focalDistance (Fin 0) default_array) = PInf.
Proof.
  rewrite !set_focalDistance_Fin.
  destruct (Rle_dec (-5) 0), (Rle_dec 0 0); try lra. now split.
Qed.

Example aperture_single p :
  getAperture (set_pitch (Fin p) (set_numElements (Fin 1) default_array))
  = Fin 0.
Proof.
  unfold getAperture.
  change (_numElements (set_pitch (Fin p)
                          (set_numElements (Fin 1) default_array)))
    with (_numElements (set_numElements (Fin (IZR 1)) default_array)).
  rewrite set_numElements_whole by lia.
  unfold set_pitch. fields. rewrite max_Fin. fin_arith.
  destruct (String.eqb _ _); f_equal; lra.
Qed.

(* ================================================================== *)
(** * Further properties: the simulation context *)
(* ================================================================== *)

(** ** The map of arrays *)

Lemma map_get_set_same k v m : map_get k (map_set k v m) = Some v.
Proof.
  induction m as [|[k' v'] m IH]; cbn [map_set map_get].
  - now rewrite Nat.eqb_refl.
  - destruct (Nat.eqb k k') eqn:E; cbn [map_get].
    + now rewrite Nat.eqb_refl.
    + now rewrite E.
Qed.

Lemma map_get_set_other k k' v m :
  k' <> k -> map_get k' (map_set k v m) = map_get k' m.
Proof.
  intros N. induction m as [|[k0 v0] m IH]; cbn [map_set map_get].
  - destruct (Nat.eqb_spec k' k); [contradiction|reflexivity].
  - destruct (Nat.eqb_spec k k0) as [->|Hk]; cbn [map_get].
    + destruct (Nat.eqb_spec k' k0); [contradiction|reflexivity].
    + destruct (Nat.eqb k' k0); [reflexivity|exact IH].
Qed.

Lemma map_set_keys_present k v m :
  In k (map fst m) -> map fst (map_set k v m) = map fst m.
Proof.
  induction m as [|[k0 v0] m IH]; cbn [map_set map fst]; [intros []|].
  intros [->|H].
  - now rewrite Nat.eqb_refl.
  - destruct (Nat.eqb_spec k k0) as [->|Hk]; [reflexivity|].
    cbn [map fst]. now rewrite IH.
Qed.

Lemma map_set_absent k v m :
  ~ In k (map fst m) -> map_set k v m = m ++ [(k, v)].
Proof.
  induction m as [|[k0 v0] m IH]; cbn [map_set map fst app]; [reflexivity|].
  intros N. destruct (Nat.eqb_spec k k0) as [->|Hk].
  - exfalso. apply N. now left.
  - rewrite IH; [reflexivity|]. intros H. apply N. now right.
Qed.

Lemma map_get_None k m : ~ In k (map fst m) <-> map_get k m = None.
Proof.
  induction m as [|[k0 v0] m IH]; cbn [map_get map fst].
  - split; [reflexivity|intros _ []].
  - destruct (Nat.eqb_spec k k0) as [->|Hk].
    + split; [intros N; exfalso; apply N; now left|discriminate].
    + rewrite <- IH. split.
      * intros N H. apply N. now right.
      * intros N [E|H]; [congruence|contradiction].
Qed.

Lemma filter_all {A : Type} (f : A -> bool) (l : list A) :
  (forall x, In x l -> f x = true) -> filter f l = l.
Proof.
  induction l as [|x l IH]; intros H; cbn [filter]; [reflexivity|].
  rewrite (H x (or_introl eq_refl)), IH; [reflexivity|].
  intros y Hy. apply H. now right.
Qed.

Lemma map_delete_keys k m :
  NoDup (map fst m) ->
  map fst (map_delete k m) = filter (fun k' => negb (Nat.eqb k k')) (map fst m).
Proof.
  induction m as [|[k0 v0] m IH]; cbn [map_delete map fst filter];
    [reflexivity|].
  intros ND. inversion ND as [|? ? Hn ND']; subst.
  destruct (Nat.eqb_spec k k0) as [->|Hk]; cbn [negb map fst].
  - symmetry. apply filter_all. intros k' Hk'.
    destruct (Nat.eqb_spec k0 k'); [congruence|reflexivity].
  - now rewrite IH.
Qed.

Lemma map_get_delete_same k m :
  NoDup (map fst m) -> map_get k (map_delete k m) = None.
Proof.
  intros ND. apply map_get_None. rewrite map_delete_keys by exact ND.
  intros H. apply filter_In in H as [_ H]. now rewrite Nat.eqb_refl in H.
Qed.

Lemma map_get_delete_other k k' m :
  k' <> k -> map_get k' (map_delete k m) = map_get k' m.
Proof.
  intros N. induction m as [|[k0 v0] m IH]; cbn [map_delete map_get];
    [reflexivity|].
  destruct (Nat.eqb_spec k k0) as [->|Hk]; cbn [map_get].
  - destruct (Nat.eqb_spec k' k0); [contradiction|reflexivity].
  - destruct (Nat.eqb k' k0); [reflexivity|exact IH].
Qed.

Lemma map_get_In k v m : map_get k m = Some v -> In (k, v) m.
Proof.
  induction m as [|[k0 v0] m IH]; cbn [map_get]; [discriminate|].
  destruct (Nat.eqb_spec k k0) as [->|Hk].
  - intros [= ->]. now left.
  - intros H. right. now apply IH.
Qed.

Lemma well_keyed_set a m :
  well_keyed m -> well_keyed (map_set (id a) a m).
Proof.
  intros [ND F]. destruct (in_dec Nat.eq_dec (id a) (map fst m)) as [I|I].
  - split; [now rewrite map_set_keys_present|].
    clear ND I. induction m as [|[k0 v0] m IH]; cbn [map_set].
    + constructor; [reflexivity|constructor].
    + inversion F; subst. destruct (Nat.eqb_spec (id a) k0).
      * constructor; [reflexivity|assumption].
      * constructor; [assumption|now apply IH].
  - rewrite map_set_absent by exact I. split.
    + rewrite map_app. cbn [map fst].
      apply NoDup_app; [exact ND|repeat constructor; intros []| ].
      intros k Hk [<-|[]]. contradiction.
    + apply Forall_app. split; [exact F|]. now repeat constructor.
Qed.

Lemma well_keyed_delete k m : well_keyed m -> well_keyed (map_delete k m).
Proof.
  intros [ND F]. split.
  - rewrite map_delete_keys by exact ND. now apply NoDup_filter.
  - clear ND. induction m as [|[k0 v0] m IH]; cbn [map_delete];
      [constructor|].
    inversion F; subst. destruct (Nat.eqb k k0); [assumption|].
    constructor; [assumption|now apply IH].
Qed.

Lemma well_keyed_map (f : PhasedArray -> PhasedArray) m :
  (forall a, id (f a) = id a) -> well_keyed m ->
  well_keyed (map (fun ka => (fst ka, f (snd ka))) m).
Proof.
  intros Hf [ND F]. split.
  - now rewrite map_map, (map_ext _ fst) by reflexivity.
  - apply Forall_map. eapply Forall_impl; [|exact F].
    intros [k a] H. cbn [fst snd] in *. now rewrite Hf.
Qed.

(** ** Adding, looking up and removing arrays *)

Lemma well_keyed_addArray ctx v :
  well_keyed (arrays ctx) -> well_keyed (arrays (fst (addArray ctx v))).
Proof.
  intros WK. destruct v as [a|]; [|exact WK].
  exact (well_keyed_set
           (set_speedOfSound (speedOfSound (globalSettings ctx)) a)
           (arrays ctx) WK).
Qed.

Lemma well_keyed_ids m :
  well_keyed m -> map id (map snd m) = map fst m.
Proof.
  intros [_ F]. rewrite map_map. apply map_ext_in.
  intros ka Hka. rewrite Forall_forall in F. now apply F.
Qed.

Lemma called_app l1 l2 : called (l1 ++ l2) = called l1 ++ called l2.
Proof. apply flat_map_app. Qed.

Lemma reported_app l1 l2 : reported (l1 ++ l2) = reported l1 ++ reported l2.
Proof. apply flat_map_app. Qed.

(** The callbacks called by a notification, and those whose error is
    reported. *)
Lemma notifyListeners_called ctx e :
  called (_notifyListeners ctx e) = map listener_id (_listeners ctx) /\
  reported (_notifyListeners ctx e)
  = map listener_id (filter (fun l => listener_throws l e) (_listeners ctx)).
Proof.
  unfold _notifyListeners.
  induction (_listeners ctx) as [|l ls [IHc IHr]]; cbn [flat_map map filter];
    [now split|].
  rewrite called_app, reported_app, IHc, IHr.
  destruct (listener_throws l e); now split.
Qed.

(** X1: after [addArray(array)], [getArray(array.id)] returns the array,
    now stale and with its speed of sound set to
    [Math.max(0.1, globalSettings.speedOfSound)]; every other id looks up as
    before; what happens outside the context is exactly the ['arrayAdded']
    notification of the stored array to the listeners of the context, which
    are unchanged; a value that is not a [PhasedArray] is ignored without
    any notification. *)
Theorem addArray_then_getArray :
  forall ctx a,
    let stored := set_speedOfSound (speedOfSound (globalSettings ctx)) a in
    let ctx' := fst (addArray ctx (IsPhasedArray a)) in
    getArray ctx' (id a) = Some stored /\
    (forall k, k <> id a -> getArray ctx' k = getArray ctx k) /\
    _speedOfSound stored
    = Math.max (Fin 0.1) (speedOfSound (globalSettings ctx)) /\
    _dirty stored = true /\
    snd (addArray ctx (IsPhasedArray a))
    = _notifyListeners ctx' (ArrayAdded stored) /\
    _listeners ctx' = _listeners ctx /\
    called (snd (addArray ctx (IsPhasedArray a)))
    = map listener_id (_listeners ctx) /\
    addArray ctx OtherValue = (ctx, []).
Proof.
  intros ctx a stored ctx'. unfold ctx', getArray, addArray.
  cbn [fst snd arrays with_arrays].
  change (id (set_speedOfSound (speedOfSound (globalSettings ctx)) a))
    with (id a).
  split; [apply map_get_set_same|].
  split; [intros k Hk; now apply map_get_set_other|].
  do 4 (split; [reflexivity|]).
  split; [|reflexivity].
  exact (proj1 (notifyListeners_called _ _)).
Qed.

(** X2: the map keeps one entry per id.  Adding an array whose id is not in
    the context appends it to [getAllArrays()]; adding one whose id is
    already there replaces that entry in place, so the sequence of ids is
    unchanged; either way the map stays keyed by the ids of its arrays. *)
Theorem addArray_one_entry_per_id :
  forall ctx a,
    well_keyed (arrays ctx) ->
    let stored := set_speedOfSound (speedOfSound (globalSettings ctx)) a in
    let ctx' := fst (addArray ctx (IsPhasedArray a)) in
    well_keyed (arrays ctx') /\
    (getArray ctx (id a) = None ->
     getAllArrays ctx' = getAllArrays ctx ++ [stored]) /\
    (getArray ctx (id a) <> None ->
     map id (getAllArrays ctx') = map id (getAllArrays ctx) /\
     List.length (getAllArrays ctx') = List.length (getAllArrays ctx)).
Proof.
  intros ctx a WK stored ctx'.
  assert (WK' : well_keyed (arrays ctx')).
  { exact (well_keyed_set stored (arrays ctx) WK). }
  pose proof well_keyed_ids as Ids.
  split; [exact WK'|]. split.
  - intros N. apply map_get_None in N.
    unfold ctx', getAllArrays, addArray. cbn [fst arrays with_arrays].
    change (id (set_speedOfSound (speedOfSound (globalSettings ctx)) a))
      with (id a).
    rewrite map_set_absent by exact N. now rewrite map_app.
  - intros P.
    assert (I : In (id a) (map fst (arrays ctx))).
    { destruct (in_dec Nat.eq_dec (id a) (map fst (arrays ctx))) as [I|I];
        [exact I|]. apply map_get_None in I. contradiction. }
    assert (K : map fst (arrays ctx') = map fst (arrays ctx)).
    { exact (map_set_keys_present (id a) stored (arrays ctx) I). }
    unfold getAllArrays. split.
    + now rewrite (Ids _ WK'), (Ids _ WK).
    + rewrite !length_map. rewrite <- (length_map fst (arrays ctx')), K.
      apply length_map.
Qed.

Lemma well_keyed_nil : well_keyed [].
Proof. split; constructor. Qed.

(** X2, witness: the default array added to a new context. *)
Lemma addArray_one_entry_per_id_witness :
  getAllArrays (fst (addArray newSimulationContext
                              (IsPhasedArray default_array)))
  = [set_speedOfSound (Fin 343) default_array].
Proof.
  exact (proj1 (proj2 (addArray_one_entry_per_id newSimulationContext
                         default_array well_keyed_nil)) eq_refl).
Defined.

(** X3: [removeArray(id)] of an id that is not in the context changes
    nothing and notifies nobody; of an id that is, it removes exactly that
    entry: the id then looks up as absent, every other id as before, the
    other arrays keep their order, and the listeners are told which array
    was removed. *)
Theorem removeArray_removes_only_that_id :
  forall ctx k,
    well_keyed (arrays ctx) ->
    (getArray ctx k = None -> removeArray ctx k = (ctx, [])) /\
    (forall a,
       getArray ctx k = Some a ->
       let ctx' := fst (removeArray ctx k) in
       getArray ctx' k = None /\
       (forall k', k' <> k -> getArray ctx' k' = getArray ctx k') /\
       map id (getAllArrays ctx')
       = filter (fun k' => negb (Nat.eqb k k')) (map id (getAllArrays ctx)) /\
       well_keyed (arrays ctx') /\
       snd (removeArray ctx k) = _notifyListeners ctx' (ArrayRemoved a)).
Proof.
  intros ctx k WK. unfold getArray, removeArray. split.
  - intros ->. reflexivity.
  - intros a ->. cbn [fst snd arrays with_arrays].
    pose proof (well_keyed_delete k _ WK) as WK'.
    split; [apply map_get_delete_same, WK|].
    split; [intros k' Hk'; now apply map_get_delete_other|].
    split; [|split; [exact WK'|reflexivity]].
    unfold getAllArrays. cbn [arrays with_arrays].
    rewrite (well_keyed_ids _ WK'), (well_keyed_ids _ WK).
    apply map_delete_keys, WK.
Qed.

Lemma well_keyed_default :
  well_keyed (arrays (fst (addArray newSimulationContext
                                    (IsPhasedArray default_array)))).
Proof.
  exact (well_keyed_addArray newSimulationContext _ well_keyed_nil).
Qed.

Lemma well_keyed_two : well_keyed (arrays two_array_context).
Proof.
  apply well_keyed_addArray, well_keyed_addArray, well_keyed_nil.
Qed.

(** X3, witness: the context of two arrays (ids 1 and 2): removing id 1
    leaves id 2; removing the unknown id 7 changes nothing. *)
Lemma removeArray_removes_only_that_id_witness :
  getArray (fst (removeArray two_array_context 1)) 1 = None /\
  map id (getAllArrays (fst (removeArray two_array_context 1))) = [2%nat] /\
  removeArray two_array_context 7 = (two_array_context, []).
Proof.
  destruct (removeArray_removes_only_that_id two_array_context 1
              well_keyed_two) as [_ H1].
  destruct (H1 _ eq_refl) as (G & _ & Ids & _).
  split; [exact G|]. split; [exact Ids|].
  exact (proj1 (removeArray_removes_only_that_id two_array_context 7
                  well_keyed_two) eq_refl).
Defined.

(** ** Speed of sound *)

(** X4: [setSpeedOfSound(value)] stores [value] as it is in the global
    settings but passes it through the clamping setter of every array: the
    arrays keep their ids and order, each becomes stale and holds
    [Math.max(0.1, value)]; so for a finite [value] below 0.1 the arrays
    hold 0.1 while the global setting holds [value], and from 0.1 upwards
    the arrays and the global setting agree. *)
Theorem setSpeedOfSound_clamps_arrays_only :
  forall ctx value,
    let ctx' := fst (setSpeedOfSound ctx value) in
    speedOfSound (globalSettings ctx') = value /\
    getAllArrays ctx' = map (set_speedOfSound value) (getAllArrays ctx) /\
    map fst (arrays ctx') = map fst (arrays ctx) /\
    Forall (fun a => _speedOfSound a = Math.max (Fin 0.1) value /\
                     _dirty a = true) (getAllArrays ctx') /\
    (forall r, value = Fin r -> r < 0.1 ->
               Forall (fun a => _speedOfSound a = Fin 0.1 /\
                                _speedOfSound a
                                <> speedOfSound (globalSettings ctx'))
                      (getAllArrays ctx')) /\
    (forall r, value = Fin r -> 0.1 <= r ->
               Forall (fun a => _speedOfSound a
                                = speedOfSound (globalSettings ctx'))
                      (getAllArrays ctx')).
Proof.
  intros ctx value ctx'.
  assert (E : getAllArrays ctx'
              = map (set_speedOfSound value) (getAllArrays ctx)).
  { unfold ctx', getAllArrays, setSpeedOfSound.
    cbn [fst arrays with_arrays with_globalSettings]. now rewrite !map_map. }
  split; [reflexivity|]. split; [exact E|]. split.
  - unfold ctx', setSpeedOfSound.
    cbn [fst arrays with_arrays with_globalSettings]. now rewrite map_map.
  - split; [|split].
    + rewrite E. apply Forall_map, Forall_forall. intros a _. now split.
    + intros r -> Hr. rewrite E. apply Forall_map, Forall_forall.
      intros a _. unfold set_speedOfSound. fields. rewrite max_Fin.
      rewrite Rmax_left by lra. split; [reflexivity|].
      cbn. intros C. injection C as C. lra.
    + intros r -> Hr. rewrite E. apply Forall_map, Forall_forall.
      intros a _. unfold set_speedOfSound. fields. rewrite max_Fin.
      now rewrite Rmax_right by lra.
Qed.

(** X4, witness: speed 0.05 on the context of two arrays. *)
Lemma setSpeedOfSound_clamps_arrays_only_witness :
  speedOfSound (globalSettings (fst (setSpeedOfSound two_array_context
                                                     (Fin 0.05))))
  = Fin 0.05 /\
  Forall (fun a => _speedOfSound a = Fin 0.1)
         (getAllArrays (fst (setSpeedOfSound two_array_context (Fin 0.05)))).
Proof.
  destruct (setSpeedOfSound_clamps_arrays_only two_array_context (Fin 0.05))
    as (G & _ & _ & _ & H & _).
  split; [exact G|].
  assert (L : 0.05 < 0.1) by lra.
  eapply Forall_impl; [|exact (H 0.05 eq_refl L)].
  intros a [E _]. exact E.
Defined.

(** ** Element data of the whole scene *)

Lemma getElementData_state fuel a a' data :
  getElementData fuel a = Ok (a', data) ->
  _ensureCalculated fuel a = Ok a' /\
  data = (if _enabled a' then
            map_i (_elementPositions a')
                  (fun pos i =>
                     mkElementData (pos_x pos) (pos_y pos)
                                   (nth_error (_elementPhases a') i)
                                   (_amplitude a'))
          else []).
Proof.
  unfold getElementData. intros H. apply bind_Ok in H as (a1 & E & H).
  destruct (_enabled a1) eqn:En; cbn [negb] in H; injection H as <- <-;
    rewrite En; now split.
Qed.

(** Bringing an instance up to date changes its cache and dirty flag only. *)
Lemma ensureCalculated_shape fuel a a' :
  _ensureCalculated fuel a = Ok a' ->
  exists positions phases w d,
    a' = with_dirty d
           (with_elementPhases phases
              (with_elementPositions positions (with_wavelength w a))).
Proof.
  unfold _ensureCalculated. destruct (_dirty a) eqn:D.
  - intros H. apply recalculate_shape in H as (ps & phs & ->). eauto.
  - intros [= <-]. exists (_elementPositions a), (_elementPhases a),
      (_wavelength a), (_dirty a). now destruct a.
Qed.

Lemma getAllElementData_loop_spec fuel :
  forall m acc m' data,
    getAllElementData_loop fuel m acc = Ok (m', data) ->
    exists ds,
      Forall2 (fun a d => returned (getElementData fuel a) = Some d)
              (map snd m) ds /\
      data = acc ++ List.concat ds /\
      map fst m' = map fst m /\
      Forall2 (fun a a' => _ensureCalculated fuel a = Ok a')
              (map snd m) (map snd m').
Proof.
  induction m as [|[k a] m IH]; intros acc m' data; cbn [getAllElementData_loop].
  - intros [= <- <-]. exists []. rewrite app_nil_r.
    repeat split; constructor.
  - intros H. apply bind_Ok in H as ([a1 d] & E & H).
    apply bind_Ok in H as ([m1 data1] & E' & H).
    cbn [fst snd] in *. injection H as <- <-.
    apply IH in E' as (ds & F & -> & K & S).
    exists (d :: ds). cbn [map fst snd List.concat]. split; [|split; [|split]].
    + constructor; [now rewrite E|exact F].
    + now rewrite app_assoc.
    + now rewrite K.
    + constructor; [|exact S]. now apply getElementData_state in E.
Qed.

(** X5: when [getAllElementData()] returns, its value is the concatenation,
    in insertion order, of what [getElementData()] returns for each array
    (nothing for a disabled one), and every array of the context, enabled
    or not, has been brought up to date at its place in the map. *)
Theorem getAllElementData_concatenates :
  forall fuel ctx ctx' data,
    getAllElementData fuel ctx = Ok (ctx', data) ->
    (exists ds,
       Forall2 (fun a d => returned (getElementData fuel a) = Some d)
               (getAllArrays ctx) ds /\
       data = List.concat ds) /\
    map fst (arrays ctx') = map fst (arrays ctx) /\
    Forall2 (fun a a' => _ensureCalculated fuel a = Ok a')
            (getAllArrays ctx) (getAllArrays ctx') /\
    globalSettings ctx' = globalSettings ctx /\
    _listeners ctx' = _listeners ctx.
Proof.
  intros fuel ctx ctx' data H. unfold getAllElementData in H.
  apply bind_Ok in H as ([m' d] & E & H). injection H as <- <-.
  apply getAllElementData_loop_spec in E as (ds & F & -> & K & S).
  cbn [fst snd arrays with_arrays]. unfold getAllArrays.
  split; [exists ds; now split|]. repeat split; assumption.
Qed.

Lemma getAllElementData_loop_whole fuel :
  forall m,
    Forall (fun a => reachable a /\
                     exists n, _numElements a = Fin (INR n) /\ (n <= fuel)%nat)
           (map snd m) ->
    forall acc,
    exists m' ds,
      getAllElementData_loop fuel m acc = Ok (m', acc ++ ds) /\
      forall c,
        fold_left (fun count array =>
                     if _enabled array then add count (_numElements array)
                     else count) (map snd m) (Fin c)
        = Fin (c + INR (List.length ds)) /\
        fold_left (fun count array =>
                     if _enabled array then add count (_numElements array)
                     else count) (map snd m') (Fin c)
        = Fin (c + INR (List.length ds)).
Proof.
  induction m as [|[k a] m IH]; intros F acc.
  - exists [], []. cbn. rewrite app_nil_r. split; [reflexivity|].
    intros c. split; f_equal; lra.
  - cbn [map snd] in F. inversion F as [|? ? [R (n & Hn & Hf)] F']; subst.
    cbn [getAllElementData_loop].
    rewrite (getElementData_nat fuel a n (reachable_coherent a R) Hn Hf).
    cbn [bind fst snd].
    set (d := if _enabled a then map (element_data a) (seq 0 n) else []).
    destruct (IH F' (acc ++ d)) as (m' & ds & -> & Hc).
    cbn [bind fst snd]. exists ((k, recalculated a n) :: m'), (d ++ ds).
    split; [now rewrite app_assoc|].
    intros c. cbn [map snd fold_left].
    change (_enabled (recalculated a n)) with (_enabled a).
    change (_numElements (recalculated a n)) with (_numElements a).
    rewrite length_app, plus_INR. unfold d.
    destruct (_enabled a).
    + rewrite Hn. cbn [add]. destruct (Hc (c + INR n)) as [-> ->].
      rewrite length_map, length_seq. split; f_equal; ring.
    + destruct (Hc c) as [-> ->]. cbn [List.length INR].
      split; f_equal; ring.
Qed.

Lemma getAllElementData_whole fuel ctx :
  Forall (fun a => reachable a /\
                   exists n, _numElements a = Fin (INR n) /\ (n <= fuel)%nat)
         (getAllArrays ctx) ->
  exists ctx' data,
    getAllElementData fuel ctx = Ok (ctx', data) /\
    getTotalElementCount ctx = Fin (INR (List.length data)) /\
    getTotalElementCount ctx' = Fin (INR (List.length data)).
Proof.
  intros F. unfold getAllArrays in F.
  destruct (getAllElementData_loop_whole fuel (arrays ctx) F [])
    as (m' & ds & E & Hc).
  unfold getAllElementData. rewrite E. cbn [bind fst snd app].
  exists (with_arrays m' ctx), ds. split; [reflexivity|].
  unfold getTotalElementCount. cbn [arrays with_arrays].
  destruct (Hc 0) as [-> ->]. split; f_equal; lra.
Qed.

(** X6: in a context whose arrays are reachable and have whole element
    counts, [getAllElementData()] returns (given fuel for the largest count),
    and the number of entries it returns is [getTotalElementCount()], before
    and after the call. *)
Theorem element_count_matches_element_data :
  forall fuel ctx,
    Forall (fun a => reachable a /\
                     exists n, _numElements a = Fin (INR n) /\ (n <= fuel)%nat)
           (getAllArrays ctx) ->
    exists ctx' data,
      getAllElementData fuel ctx = Ok (ctx', data) /\
      getTotalElementCount ctx = Fin (INR (List.length data)) /\
      getTotalElementCount ctx' = Fin (INR (List.length data)).
Proof. intros fuel ctx. apply getAllElementData_whole. Qed.

Lemma rebuilt_numElements :
  _numElements (recalculated (assigned_fields (toJSON default_array) 2) 16)
  = Fin (INR 16).
Proof. change (or_ (Fin 16) (Fin 16) = Fin (INR 16)). exact or_16. Qed.

Lemma reachable_rebuilt :
  reachable (recalculated (assigned_fields (toJSON default_array) 2) 16).
Proof.
  apply (reach_new 16 (toJSON default_array) 1 _ 2).
  apply constructor_nat; [exact rebuilt_numElements|lia].
Qed.

Lemma two_array_arrays :
  arrays two_array_context
  = [(1%nat, set_speedOfSound (Fin 343) default_array);
     (2%nat, set_speedOfSound (Fin 343)
               (recalculated (assigned_fields (toJSON default_array) 2) 16))].
Proof.
  unfold two_array_context, addArray.
  cbn [fst arrays with_arrays globalSettings newSimulationContext
       speedOfSound].
  change (id (set_speedOfSound (Fin 343) default_array)) with 1%nat.
  change (id (set_speedOfSound (Fin 343)
                (recalculated (assigned_fields (toJSON default_array) 2) 16)))
    with 2%nat.
  reflexivity.
Qed.

Lemma set_speedOfSound_numElements v a :
  _numElements (set_speedOfSound v a) = _numElements a.
Proof. reflexivity. Qed.

Lemma whole_two :
  Forall (fun a => reachable a /\
                   exists n, _numElements a = Fin (INR n) /\ (n <= 16)%nat)
         (getAllArrays two_array_context).
Proof.
  unfold getAllArrays. rewrite two_array_arrays. cbn [map snd].
  constructor; [|constructor; [|constructor]].
  - split; [exact (reach_set (SetSpeedOfSound _) _ reachable_default)|].
    exists 16%nat. rewrite set_speedOfSound_numElements.
    split; [exact INR_16|lia].
  - split; [exact (reach_set (SetSpeedOfSound _) _ reachable_rebuilt)|].
    exists 16%nat. rewrite set_speedOfSound_numElements.
    split; [exact rebuilt_numElements|lia].
Qed.

(** X6, witness: the context of two 16-element arrays has 32 elements. *)
Lemma element_count_matches_element_data_witness :
  exists ctx' data,
    getAllElementData 16 two_array_context = Ok (ctx', data) /\
    getTotalElementCount two_array_context = Fin (INR (List.length data)).
Proof.
  destruct (element_count_matches_element_data 16 two_array_context whole_two)
    as (ctx' & data & E & T & _).
  exists ctx', data. now split.
Defined.

Lemma getAllElementData_two :
  exists ctx' data, getAllElementData 16 two_array_context = Ok (ctx', data).
Proof.
  destruct (getAllElementData_whole 16 two_array_context whole_two)
    as (ctx' & data & E & _).
  eauto.
Qed.

(** X5, witness: the context of two arrays. *)
Lemma getAllElementData_concatenates_witness :
  exists ctx' data,
    getAllElementData 16 two_array_context = Ok (ctx', data) /\
    map fst (arrays ctx') = [1%nat; 2%nat].
Proof.
  destruct getAllElementData_two as (ctx' & data & E).
  exists ctx', data. split; [exact E|].
  rewrite (proj1 (proj2 (getAllElementData_concatenates 16 two_array_context
                           ctx' data E))).
  now rewrite two_array_arrays.
Defined.

(** ** Clearing the scene *)

(** X7: [clearArrays()] empties the context, keeps its settings and
    listeners, and resets the static id counter: the next array constructed
    has id 1 whatever ids were given before, so it takes the place of any
    array with id 1 that the caller still holds and adds back. *)
Theorem clearArrays_restarts_ids :
  forall ctx fuel config a counter',
    let ctx0 := fst (fst (clearArrays ctx)) in
    let counter := snd (fst (clearArrays ctx)) in
    getAllArrays ctx0 = [] /\
    getTotalElementCount ctx0 = Fin 0 /\
    globalSettings ctx0 = globalSettings ctx /\
    _listeners ctx0 = _listeners ctx /\
    (constructor fuel config counter = Ok (a, counter') ->
     id a = 1%nat /\ counter' = 1%nat /\
     forall old,
       id old = 1%nat ->
       getAllArrays
         (fst (addArray (fst (addArray ctx0 (IsPhasedArray old)))
                        (IsPhasedArray a)))
       = [set_speedOfSound (speedOfSound (globalSettings ctx)) a]).
Proof.
  intros ctx fuel config a counter' ctx0 counter.
  repeat split.
  - apply constructor_fields in H as (ps & phs & w & ->). reflexivity.
  - unfold constructor in H. apply bind_Ok in H as (this & _ & E).
    now injection E.
  - intros old Hold.
    assert (Ia : id a = 1%nat).
    { apply constructor_fields in H as (ps & phs & w & ->). reflexivity. }
    unfold getAllArrays, addArray, ctx0, clearArrays.
    cbn [fst arrays with_arrays globalSettings map_set].
    change (id (set_speedOfSound (speedOfSound (globalSettings ctx)) a))
      with (id a).
    change (id (set_speedOfSound (speedOfSound (globalSettings ctx)) old))
      with (id old).
    rewrite Ia, Hold. reflexivity.
Qed.

(** X7, witness: clearing the context of two arrays, then constructing from
    the empty configuration. *)
Lemma clearArrays_restarts_ids_witness :
  exists a,
    constructor 16 emptyConfig (snd (fst (clearArrays two_array_context)))
    = Ok (a, 1%nat) /\ id a = 1%nat.
Proof.
  exists default_array. split; [exact constructor_default|].
  exact (proj1 (proj2 (proj2 (proj2 (proj2
           (clearArrays_restarts_ids two_array_context 16 emptyConfig
              default_array 1))))
           constructor_default)).
Defined.

(** ** Listeners *)

Lemma existsb_listener l ls :
  existsb (fun l' => Nat.eqb (listener_id l') (listener_id l)) ls = true
  <-> In (listener_id l) (map listener_id ls).
Proof.
  rewrite existsb_exists, in_map_iff. split.
  - intros (l' & I & E). apply Nat.eqb_eq in E. eauto.
  - intros (l' & E & I). exists l'. split; [exact I|now apply Nat.eqb_eq].
Qed.

(** X9: the listeners form a set.  Registering a callback twice is the same
    as registering it once, so it is still called once per notification;
    after [removeListener] it is not called at all, and the other listeners
    are called as before; removing a callback just registered, which was not
    registered before, gives back the context as it was. *)
Theorem listeners_form_a_set :
  forall ctx l e,
    NoDup (map listener_id (_listeners ctx)) ->
    NoDup (map listener_id (_listeners (addListener ctx l))) /\
    addListener (addListener ctx l) l = addListener ctx l /\
    In (listener_id l) (called (_notifyListeners (addListener ctx l) e)) /\
    NoDup (called (_notifyListeners (addListener ctx l) e)) /\
    ~ In (listener_id l) (called (_notifyListeners (removeListener ctx l) e)) /\
    called (_notifyListeners (removeListener ctx l) e)
    = filter (fun k => negb (Nat.eqb k (listener_id l)))
             (called (_notifyListeners ctx e)) /\
    (~ In (listener_id l) (map listener_id (_listeners ctx)) ->
     removeListener (addListener ctx l) l = ctx).
Proof.
  intros ctx l e ND.
  assert (A : NoDup (map listener_id (_listeners (addListener ctx l))) /\
              In (listener_id l)
                 (map listener_id (_listeners (addListener ctx l)))).
  { unfold addListener.
    destruct (existsb _ (_listeners ctx)) eqn:E.
    - split; [exact ND|]. now apply existsb_listener.
    - cbn [_listeners with_listeners]. rewrite map_app. cbn [map]. split.
      + apply NoDup_app; [exact ND|repeat constructor; intros []|].
        intros k Hk [<-|[]].
        apply existsb_listener in Hk. congruence.
      + apply in_or_app. right. now left. }
  destruct A as [ND' I'].
  pose proof (fun c => proj1 (notifyListeners_called c e))
    as C.
  split; [exact ND'|]. split.
  - unfold addListener at 1.
    destruct (existsb _ (_listeners (addListener ctx l))) eqn:E;
      [reflexivity|].
    apply existsb_listener in I'. congruence.
  - rewrite !C. split; [exact I'|]. split; [exact ND'|].
    unfold removeListener. cbn [_listeners with_listeners].
    assert (F : map listener_id
                    (filter (fun l' => negb (Nat.eqb (listener_id l')
                                                     (listener_id l)))
                            (_listeners ctx))
                = filter (fun k => negb (Nat.eqb k (listener_id l)))
                         (map listener_id (_listeners ctx))).
    { clear. induction (_listeners ctx) as [|l' ls IH]; cbn [filter map];
        [reflexivity|].
      destruct (Nat.eqb (listener_id l') (listener_id l)); cbn [negb map];
        now rewrite IH. }
    rewrite F. split; [|split; [reflexivity|]].
    + intros H. apply filter_In in H as [_ H].
      now rewrite Nat.eqb_refl in H.
    + intros New. unfold addListener.
      destruct (existsb _ (_listeners ctx)) eqn:E.
      { apply existsb_listener in E. contradiction. }
      cbn [_listeners with_listeners arrays globalSettings].
      rewrite filter_app. cbn [filter]. rewrite Nat.eqb_refl. cbn [negb].
      rewrite app_nil_r, filter_all; [now destruct ctx|].
      intros l' Hl'. apply Bool.negb_true_iff, Nat.eqb_neq.
      intros Eq. apply New. rewrite <- Eq. now apply in_map.
Qed.

(** X9, witness: a throwing callback registered twice, and registered then
    removed, on a context that already has two listeners. *)
Lemma listeners_form_a_set_witness :
  map listener_id (_listeners observed_context) = [3; 5]%nat /\
  addListener (addListener observed_context (mkListener 7 (fun _ => true)))
              (mkListener 7 (fun _ => true))
  = addListener observed_context (mkListener 7 (fun _ => true)) /\
  In 7%nat (called (_notifyListeners
                      (addListener observed_context
                                   (mkListener 7 (fun _ => true)))
                      Cleared)) /\
  removeListener (addListener observed_context
                              (mkListener 7 (fun _ => true)))
                 (mkListener 7 (fun _ => true))
  = observed_context.
Proof.
  assert (L : map listener_id (_listeners observed_context) = [3; 5]%nat)
    by reflexivity.
  assert (ND : NoDup (map listener_id (_listeners observed_context))).
  { rewrite L. repeat constructor; cbn; intuition discriminate. }
  assert (New : ~ In (listener_id (mkListener 7 (fun _ => true)))
                     (map listener_id (_listeners observed_context))).
  { rewrite L. cbn. intuition discriminate. }
  destruct (listeners_form_a_set observed_context
              (mkListener 7 (fun _ => true)) Cleared ND)
    as (_ & E & I & _ & _ & _ & Rm).
  split; [exact L|]. split; [exact E|]. split; [exact I|exact (Rm New)].
Defined.

(* ================================================================== *)
(** * Further properties: the array *)
(* ================================================================== *)

(** ** The cache is transparent *)

(** X10: on a reachable instance the [wavelength] getter returns
    [speedOfSound / frequency] of the current configuration, also right
    after a setter made the cache stale, and leaves the instance clean. *)
Theorem wavelength_getter_is_current :
  forall fuel a a' w,
    reachable a -> wavelength fuel a = Ok (a', w) ->
    w = div (_speedOfSound a) (_frequency a) /\
    _dirty a' = false /\
    _speedOfSound a' = _speedOfSound a /\ _frequency a' = _frequency a.
Proof.
  intros fuel a a' w R H. unfold wavelength in H.
  apply bind_Ok in H as (a1 & E & H). injection H as <- <-.
  apply (ensureCalculated_recalculate _ _ _ (reachable_coherent a R)) in E
    as (fuel' & E).
  apply recalculate_shape in E as (ps & phs & ->). repeat split.
Qed.

Lemma wavelength_nat fuel a n :
  coherent a -> _numElements a = Fin (INR n) -> (n <= fuel)%nat ->
  wavelength fuel a
  = Ok (recalculated a n, div (_speedOfSound a) (_frequency a)).
Proof.
  intros C Hn Hf. unfold wavelength.
  now rewrite (ensureCalculated_nat fuel a n C Hn Hf).
Qed.

Lemma set_frequency_numElements v a :
  _numElements (set_frequency v a) = _numElements a.
Proof. reflexivity. Qed.

(** X10, witness: the default array after [frequency = 20000]. *)
Lemma wavelength_getter_is_current_witness :
  exists a' w,
    wavelength 16 (set_frequency (Fin 20000) default_array) = Ok (a', w) /\
    w = div (_speedOfSound (set_frequency (Fin 20000) default_array))
            (_frequency (set_frequency (Fin 20000) default_array)) /\
    _dirty a' = false.
Proof.
  assert (R : reachable (set_frequency (Fin 20000) default_array)).
  { exact (reach_set (SetFrequency (Fin 20000)) _ reachable_default). }
  assert (Hn : _numElements (set_frequency (Fin 20000) default_array)
               = Fin (INR 16)).
  { rewrite set_frequency_numElements. exact INR_16. }
  pose proof (wavelength_nat 16 (set_frequency (Fin 20000) default_array) 16
                (reachable_coherent _ R) Hn (le_n 16)) as E.
  destruct (wavelength_getter_is_current 16 _ _ _ R E) as (W & D & _).
  eexists. eexists. split; [exact E|]. split; [exact W|exact D].
Defined.

Ltac same_config_refl SC :=
  clear - SC; unfold same_configuration in SC;
  match goal with
  | a : PhasedArray, b : PhasedArray |- _ =>
      destruct a, b; cbn [_numElements _pitch _frequency _steeringAngle
                          _position _geometry _curvatureRadius _orientation
                          _focalDistance _amplitude _enabled _speedOfSound]
                       in SC;
      destruct SC as (? & ? & ? & ? & ? & ? & ? & ? & ? & ? & ? & ?); subst;
      reflexivity
  end.

(** X11: what the queries return depends on the configuration only, not on
    the history of the instance: two reachable instances with the same
    configuration attributes and a whole element count, one possibly stale
    and the other clean, return the same element data, beam pattern, field
    and wavelength. *)
Theorem queries_depend_on_configuration_only :
  forall fuel a b n,
    reachable a -> reachable b -> same_configuration a b ->
    _numElements a = Fin (INR n) -> (n <= fuel)%nat ->
    returned (getElementData fuel a) = returned (getElementData fuel b) /\
    returned (getElementData fuel a) <> None /\
    (forall angle,
       returned (calculateBeamPattern fuel a angle)
       = returned (calculateBeamPattern fuel b angle)) /\
    (forall x y t,
       returned (calculateFieldAt fuel a x y t)
       = returned (calculateFieldAt fuel b x y t)) /\
    returned (wavelength fuel a) = returned (wavelength fuel b).
Proof.
  intros fuel a b n Ra Rb SC Hn Hf.
  assert (Hn' : _numElements b = Fin (INR n)).
  { destruct SC as (E & _). now rewrite <- E. }
  pose proof (ensureCalculated_nat fuel a n (reachable_coherent a Ra) Hn Hf)
    as Ea.
  pose proof (ensureCalculated_nat fuel b n (reachable_coherent b Rb) Hn' Hf)
    as Eb.
  unfold getElementData, calculateBeamPattern, calculateFieldAt, wavelength.
  rewrite Ea, Eb. cbn [bind].
  change (_enabled (recalculated a n)) with (_enabled a).
  change (_enabled (recalculated b n)) with (_enabled b).
  assert (En : _enabled b = _enabled a).
  { destruct SC as (_ & _ & _ & _ & _ & _ & _ & _ & _ & _ & E & _).
    now rewrite E. }
  rewrite En.
  split; [|split; [|split; [|split]]].
  - destruct (_enabled a); cbn [negb returned]; same_config_refl SC.
  - destruct (_enabled a); discriminate.
  - intros angle. cbn [returned]. same_config_refl SC.
  - intros x y t. destruct (_enabled a); cbn [negb returned];
      same_config_refl SC.
  - cbn [returned]. same_config_refl SC.
Qed.

Lemma same_configuration_set_pitch a p :
  _pitch a = Fin p -> 0.001 <= p ->
  same_configuration a (set_pitch (Fin p) a).
Proof.
  intros Hp Bp. unfold same_configuration, set_pitch. fields.
  rewrite max_Fin, Rmax_right by exact Bp. repeat split. exact Hp.
Qed.

(** X11, witness: the clean default array and the same array made stale by
    assigning its pitch the value it already has. *)
Lemma queries_depend_on_configuration_only_witness :
  returned (getElementData 16 default_array)
  = returned (getElementData 16 (set_pitch (Fin 0.005) default_array)) /\
  returned (getElementData 16 default_array) <> None.
Proof.
  assert (Bp : 0.001 <= 0.005) by lra.
  destruct (queries_depend_on_configuration_only 16 default_array
              (set_pitch (Fin 0.005) default_array) 16
              reachable_default
              (reach_set (SetPitch (Fin 0.005)) _ reachable_default)
              (same_configuration_set_pitch default_array 0.005 eq_refl Bp)
              INR_16 (le_n 16)) as (E & N & _).
  split; [exact E|exact N].
Defined.

(** ** Geometry of the element positions *)

Section ElementCoordinates.

Variable a : PhasedArray.
Variables (n : nat) (p o X Y rad : R).
Hypothesis Hn : _numElements a = Fin (INR n).
Hypothesis Hp : _pitch a = Fin p.
Hypothesis Ho : _orientation a = Fin o.
Hypothesis HP : _position a = mkPoint (Fin X) (Fin Y).

(** World coordinates of element [i] of a linear array. *)
Lemma linear_element_coordinates i :
  _geometry a = "linear"%string ->
  pos_x (element_at (refreshed a) i)
  = Fin (X + (INR i - (INR n - 1) / 2) * p * cos (o * PI / 180)) /\
  pos_y (element_at (refreshed a) i)
  = Fin (Y + (INR i - (INR n - 1) / 2) * p * sin (o * PI / 180)).
Proof.
  intros Hg. unfold element_at, refreshed. fields. rewrite Hg.
  change (String.eqb "linear" "linear") with true. cbv iota.
  unfold linear_element. fields. rewrite Hn, Hp, HP, Ho.
  cbn [pos_x pos_y px py]. fin_eval. split; f_equal; field.
Qed.

Hypothesis Hrad : _curvatureRadius a = Fin rad.
Hypothesis Hrad0 : rad <> 0.

(** Angle on the arc of element [i] of a curved array of at least two
    elements. *)
Lemma curved_angle_value i :
  (2 <= n)%nat ->
  curved_elementAngle (refreshed a) i
  = Fin ((INR i - (INR n - 1) / 2) * (p / rad)).
Proof.
  intros H2. unfold curved_elementAngle, refreshed. fields.
  rewrite Hn, Hp, Hrad. fin_arith.
  assert (N : INR n + - (1) <> 0).
  { apply le_INR in H2. simpl in H2. lra. }
  unfold or_. rewrite truthy_Fin by exact N.
  rewrite (div_Fin _ rad Hrad0). fin_arith.
  rewrite !div_Fin by (exact N || lra). fin_arith.
  f_equal. field. split; [exact Hrad0|]. lra.
Qed.

(** World coordinates of element [i] of a curved array, from its angle. *)
Lemma curved_element_coordinates i alpha :
  _geometry a = "curved"%string ->
  curved_elementAngle (refreshed a) i = Fin alpha ->
  pos_x (element_at (refreshed a) i)
  = Fin (X + rad * sin alpha * cos (o * PI / 180)
         - rad * (1 - cos alpha) * sin (o * PI / 180)) /\
  pos_y (element_at (refreshed a) i)
  = Fin (Y + rad * sin alpha * sin (o * PI / 180)
         + rad * (1 - cos alpha) * cos (o * PI / 180)) /\
  normalAngle (element_at (refreshed a) i)
  = Some (Fin (o * PI / 180 + alpha + PI / 2)).
Proof.
  intros Hg Ha. unfold element_at. change (_geometry (refreshed a))
    with (_geometry a). rewrite Hg.
  change (String.eqb "curved" "linear") with false. cbv iota.
  unfold curved_element, curved_local. rewrite Ha.
  change (_curvatureRadius (refreshed a)) with (_curvatureRadius a).
  change (_orientation (refreshed a)) with (_orientation a).
  change (_position (refreshed a)) with (_position a).
  rewrite Hrad, HP, Ho. cbn [pos_x pos_y normalAngle px py].
  unfold Math.PI. fin_eval.
  split; [|split]; [apply f_equal|apply f_equal|do 2 apply f_equal]; field.
Qed.

End ElementCoordinates.

Lemma curved_angle_fin a n p rad i :
  _numElements a = Fin (INR n) -> _pitch a = Fin p ->
  _curvatureRadius a = Fin rad -> rad <> 0 ->
  exists alpha, curved_elementAngle (refreshed a) i = Fin alpha.
Proof.
  intros Hn Hp Hrad Hrad0. unfold curved_elementAngle, refreshed. fields.
  rewrite Hn, Hp, Hrad. fin_arith.
  destruct (or_one_nonzero (INR n + - (1))) as (d & -> & Hd).
  rewrite (div_Fin _ rad Hrad0). rewrite (div_Fin _ d Hd).
  fin_eval. eauto.
Qed.

(** X12: in exact real arithmetic (binary64 rounding and overflow are not
    modelled), the elements of a linear array are placed symmetrically
    about the array position: elements [i] and [n - 1 - i] have the position
    as their midpoint. *)
Theorem linear_elements_symmetric :
  forall fuel a a' n p o X Y i j ei ej,
    _geometry a = "linear"%string -> _numElements a = Fin (INR n) ->
    _pitch a = Fin p -> _orientation a = Fin o ->
    _position a = mkPoint (Fin X) (Fin Y) ->
    _recalculate fuel a = Ok a' ->
    (i + j + 1 = n)%nat ->
    nth_error (_elementPositions a') i = Some ei ->
    nth_error (_elementPositions a') j = Some ej ->
    add (pos_x ei) (pos_x ej) = Fin (2 * X) /\
    add (pos_y ei) (pos_y ej) = Fin (2 * Y).
Proof.
  intros fuel a a' n p o X Y i j ei ej Hg Hn Hp Ho HP H Hij Hi Hj.
  destruct (recalculate_cache _ _ _ H) as (_ & Hnth).
  destruct (Hnth i ei Hi) as [-> _]. destruct (Hnth j ej Hj) as [-> _].
  destruct (linear_element_coordinates a n p o X Y Hn Hp Ho HP i Hg)
    as [-> ->].
  destruct (linear_element_coordinates a n p o X Y Hn Hp Ho HP j Hg)
    as [-> ->].
  assert (E : INR i + INR j + 1 = INR n).
  { rewrite <- Hij, !plus_INR. simpl. ring. }
  cbn [add]. split; f_equal.
  - replace (INR j) with (INR n - 1 - INR i) by lra. field.
  - replace (INR j) with (INR n - 1 - INR i) by lra. field.
Qed.

(** X13: in exact real arithmetic (binary64 rounding and overflow are not
    modelled), [getAperture()] of a linear array with a non-negative pitch
    is its physical extent: the distance between its first and its last
    element. *)
Theorem linear_aperture_is_extent :
  forall fuel a a' n p o X Y e0 el,
    _geometry a = "linear"%string -> _numElements a = Fin (INR n) ->
    _pitch a = Fin p -> 0 <= p -> _orientation a = Fin o ->
    _position a = mkPoint (Fin X) (Fin Y) ->
    _recalculate fuel a = Ok a' ->
    nth_error (_elementPositions a') 0 = Some e0 ->
    nth_error (_elementPositions a') (n - 1) = Some el ->
    Math.sqrt (add (Math.pow2 (sub (pos_x el) (pos_x e0)))
                   (Math.pow2 (sub (pos_y el) (pos_y e0))))
    = getAperture a' /\
    getAperture a' = Fin ((INR n - 1) * p).
Proof.
  intros fuel a a' n p o X Y e0 el Hg Hn Hp Bp Ho HP H H0 Hl.
  destruct (recalculate_cache _ _ _ H) as (Hlen & Hnth).
  assert (N1 : (1 <= n)%nat).
  { destruct n as [|n]; [|lia]. exfalso.
    pose proof (recalculate_nat_inv _ _ _ 0 Hn H) as E.
    rewrite E in H0. discriminate H0. }
  destruct (Hnth _ e0 H0) as [-> _]. destruct (Hnth _ el Hl) as [-> _].
  destruct (linear_element_coordinates a n p o X Y Hn Hp Ho HP 0 Hg)
    as [-> ->].
  destruct (linear_element_coordinates a n p o X Y Hn Hp Ho HP (n - 1) Hg)
    as [-> ->].
  assert (A : getAperture a' = Fin ((INR n - 1) * p)).
  { apply recalculate_shape in H as (ps & phs & ->).
    unfold getAperture. fields. rewrite Hn, Hp. fin_arith.
    destruct (String.eqb _ _); f_equal; ring. }
  split; [|exact A]. rewrite A. fin_arith.
  rewrite sqrt_Fin by apply sum_squares_nonneg. f_equal.
  assert (L : INR (n - 1) = INR n - 1).
  { rewrite minus_INR by exact N1. reflexivity. }
  rewrite L. cbn [INR].
  apply sqrt_lem_1.
  - apply sum_squares_nonneg.
  - apply Rmult_le_pos; [|exact Bp]. apply le_INR in N1. simpl in N1. lra.
  - pose proof (sin2_cos2 (o * PI / 180)) as T. unfold Rsqr in T.
    set (c := cos (o * PI / 180)) in *. set (s := sin (o * PI / 180)) in *.
    replace ((INR n - 1) * p * ((INR n - 1) * p))
      with (((INR n - 1) * p) * ((INR n - 1) * p) * (s * s + c * c))
      by (rewrite T; ring).
    field.
Qed.

(** X14: in exact real arithmetic (binary64 rounding and overflow are not
    modelled), every element of a curved array lies on the circle of radius
    [curvatureRadius] whose centre is the array position moved by
    [curvatureRadius] along the rotated local +Y axis (local centre
    [(0, +radius)]). *)
Theorem curved_elements_on_circle :
  forall fuel a a' n p o X Y rad i e,
    _geometry a = "curved"%string -> _numElements a = Fin (INR n) ->
    _pitch a = Fin p -> _orientation a = Fin o ->
    _position a = mkPoint (Fin X) (Fin Y) ->
    _curvatureRadius a = Fin rad -> rad <> 0 ->
    _recalculate fuel a = Ok a' ->
    nth_error (_elementPositions a') i = Some e ->
    add (Math.pow2 (sub (pos_x e) (Fin (X - rad * sin (o * PI / 180)))))
        (Math.pow2 (sub (pos_y e) (Fin (Y + rad * cos (o * PI / 180)))))
    = Fin (rad * rad).
Proof.
  intros fuel a a' n p o X Y rad i e Hg Hn Hp Ho HP Hrad Hrad0 H Hi.
  destruct (recalculate_cache _ _ _ H) as (_ & Hnth).
  destruct (Hnth i e Hi) as [-> _].
  destruct (curved_angle_fin a n p rad i Hn Hp Hrad Hrad0) as (alpha & Ha).
  destruct (curved_element_coordinates a o X Y rad Ho HP Hrad i alpha Hg Ha)
    as (-> & -> & _).
  fin_arith. f_equal.
  pose proof (sin2_cos2 (o * PI / 180)) as T. unfold Rsqr in T.
  pose proof (sin2_cos2 alpha) as U. unfold Rsqr in U.
  set (c := cos (o * PI / 180)) in *. set (s := sin (o * PI / 180)) in *.
  set (ca := cos alpha) in *. set (sa := sin alpha) in *.
  replace (rad * rad)
    with (rad * rad * ((sa * sa + ca * ca) * (s * s + c * c)))
    by (rewrite T, U; ring).
  ring.
Qed.

(** X15: in exact real arithmetic (binary64 rounding and overflow are not
    modelled), in a curved array of at least two elements, adjacent elements
    are one pitch apart along the arc: their normal angles differ by
    [pitch / curvatureRadius]; [getAperture()] is the arc length between the
    first and the last element. *)
Theorem curved_elements_evenly_spaced :
  forall fuel a a' n p o X Y rad i ei ej,
    _geometry a = "curved"%string -> _numElements a = Fin (INR n) ->
    (2 <= n)%nat ->
    _pitch a = Fin p -> _orientation a = Fin o ->
    _position a = mkPoint (Fin X) (Fin Y) ->
    _curvatureRadius a = Fin rad -> rad <> 0 ->
    _recalculate fuel a = Ok a' ->
    nth_error (_elementPositions a') i = Some ei ->
    nth_error (_elementPositions a') (S i) = Some ej ->
    exists ni nj,
      normalAngle ei = Some (Fin ni) /\ normalAngle ej = Some (Fin nj) /\
      (nj - ni) * rad = p /\
      getAperture a' = Fin ((INR n - 1) * (nj - ni) * rad).
Proof.
  intros fuel a a' n p o X Y rad i ei ej Hg Hn H2 Hp Ho HP Hrad Hrad0 H Hi Hj.
  destruct (recalculate_cache _ _ _ H) as (_ & Hnth).
  destruct (Hnth i ei Hi) as [-> _]. destruct (Hnth _ ej Hj) as [-> _].
  pose proof (curved_angle_value a n p rad Hn Hp Hrad Hrad0 i H2) as Ai.
  pose proof (curved_angle_value a n p rad Hn Hp Hrad Hrad0 (S i) H2) as Aj.
  destruct (curved_element_coordinates a o X Y rad Ho HP Hrad i _ Hg Ai)
    as (_ & _ & ->).
  destruct (curved_element_coordinates a o X Y rad Ho HP Hrad (S i) _ Hg Aj)
    as (_ & _ & ->).
  do 2 eexists. split; [reflexivity|]. split; [reflexivity|].
  assert (D : (o * PI / 180 + (INR (S i) - (INR n - 1) / 2) * (p / rad)
               + PI / 2
               - (o * PI / 180 + (INR i - (INR n - 1) / 2) * (p / rad)
                  + PI / 2)) * rad = p).
  { rewrite S_INR. field. exact Hrad0. }
  split; [exact D|].
  apply recalculate_shape in H as (ps & phs & ->).
  unfold getAperture. fields. rewrite Hn, Hp. fin_arith.
  destruct (String.eqb _ _); f_equal; rewrite Rmult_assoc, D; ring.
Qed.

(** The configuration of the default array and of its curved variant. *)
Lemma default_configuration :
  _geometry default_array = "linear"%string /\
  _pitch default_array = Fin 0.005 /\
  _orientation default_array = Fin 0 /\
  _position default_array = mkPoint (Fin 0) (Fin (-0.1)) /\
  _curvatureRadius default_array = Fin 0.1.
Proof. repeat split; reflexivity. Qed.

Lemma curved_configuration :
  _geometry curved_array = "curved"%string /\
  _numElements curved_array = Fin (INR 16) /\
  _pitch curved_array = Fin 0.005 /\
  _orientation curved_array = Fin 0 /\
  _position curved_array = mkPoint (Fin 0) (Fin (-0.1)) /\
  _curvatureRadius curved_array = Fin 0.1.
Proof.
  split; [reflexivity|]. split; [exact default_numElements|].
  repeat split; reflexivity.
Qed.

Lemma recalculated_nth a n i :
  (i < n)%nat ->
  nth_error (_elementPositions (recalculated a n)) i
  = Some (element_at (refreshed a) i).
Proof.
  intros H. rewrite (proj1 (recalculated_fields a n)).
  now apply nth_error_map_seq.
Qed.

(** X12, witness: the first and the last element of the default array. *)
Lemma linear_elements_symmetric_witness :
  exists a' e0 e15,
    _recalculate 16 default_array = Ok a' /\
    nth_error (_elementPositions a') 0 = Some e0 /\
    nth_error (_elementPositions a') 15 = Some e15 /\
    add (pos_x e0) (pos_x e15) = Fin (2 * 0) /\
    add (pos_y e0) (pos_y e15) = Fin (2 * -0.1).
Proof.
  destruct default_configuration as (Hg & Hp & Ho & HP & _).
  pose proof (recalculate_nat 16 default_array 16 default_numElements
                (le_n 16)) as H.
  pose proof (recalculated_nth default_array 16 0 ltac:(lia)) as H0.
  pose proof (recalculated_nth default_array 16 15 ltac:(lia)) as H15.
  do 3 eexists. split; [exact H|]. split; [exact H0|]. split; [exact H15|].
  exact (linear_elements_symmetric 16 default_array _ 16 0.005 0 0 (-0.1)
           0 15 _ _ Hg default_numElements Hp Ho HP H eq_refl H0 H15).
Defined.

(** X13, witness: the default array, whose aperture is [15 * 0.005]. *)
Lemma linear_aperture_is_extent_witness :
  exists a' e0 e15,
    _recalculate 16 default_array = Ok a' /\
    nth_error (_elementPositions a') 0 = Some e0 /\
    nth_error (_elementPositions a') 15 = Some e15 /\
    Math.sqrt (add (Math.pow2 (sub (pos_x e15) (pos_x e0)))
                   (Math.pow2 (sub (pos_y e15) (pos_y e0))))
    = getAperture a' /\
    getAperture a' = Fin ((INR 16 - 1) * 0.005).
Proof.
  destruct default_configuration as (Hg & Hp & Ho & HP & _).
  pose proof (recalculate_nat 16 default_array 16 default_numElements
                (le_n 16)) as H.
  pose proof (recalculated_nth default_array 16 0 ltac:(lia)) as H0.
  pose proof (recalculated_nth default_array 16 15 ltac:(lia)) as H15.
  assert (B : 0 <= 0.005) by lra.
  do 3 eexists. split; [exact H|]. split; [exact H0|]. split; [exact H15|].
  exact (linear_aperture_is_extent 16 default_array _ 16 0.005 0 0 (-0.1)
           _ _ Hg default_numElements Hp B Ho HP H H0 H15).
Defined.

(** X14, witness: the fourth element of the curved variant of the default
    array, on the circle of radius [0.1] about [(0, 0)]. *)
Lemma curved_elements_on_circle_witness :
  exists a' e,
    _recalculate 16 curved_array = Ok a' /\
    nth_error (_elementPositions a') 3 = Some e /\
    add (Math.pow2 (sub (pos_x e) (Fin (0 - 0.1 * sin (0 * PI / 180)))))
        (Math.pow2 (sub (pos_y e) (Fin (-0.1 + 0.1 * cos (0 * PI / 180)))))
    = Fin (0.1 * 0.1).
Proof.
  destruct curved_configuration as (Hg & Hn & Hp & Ho & HP & Hr).
  pose proof (recalculate_nat 16 curved_array 16 Hn (le_n 16)) as H.
  pose proof (recalculated_nth curved_array 16 3 ltac:(lia)) as H3.
  assert (R0 : 0.1 <> 0) by lra.
  do 2 eexists. split; [exact H|]. split; [exact H3|].
  exact (curved_elements_on_circle 16 curved_array _ 16 0.005 0 0 (-0.1) 0.1
           3 _ Hg Hn Hp Ho HP Hr R0 H H3).
Defined.

(** X15, witness: the fourth and the fifth element of the curved variant of
    the default array. *)
Lemma curved_elements_evenly_spaced_witness :
  exists a' e3 e4 n3 n4,
    _recalculate 16 curved_array = Ok a' /\
    nth_error (_elementPositions a') 3 = Some e3 /\
    nth_error (_elementPositions a') 4 = Some e4 /\
    normalAngle e3 = Some (Fin n3) /\ normalAngle e4 = Some (Fin n4) /\
    (n4 - n3) * 0.1 = 0.005 /\
    getAperture a' = Fin ((INR 16 - 1) * (n4 - n3) * 0.1).
Proof.
  destruct curved_configuration as (Hg & Hn & Hp & Ho & HP & Hr).
  pose proof (recalculate_nat 16 curved_array 16 Hn (le_n 16)) as H.
  pose proof (recalculated_nth curved_array 16 3 ltac:(lia)) as H3.
  pose proof (recalculated_nth curved_array 16 4 ltac:(lia)) as H4.
  assert (R0 : 0.1 <> 0) by lra.
  destruct (curved_elements_evenly_spaced 16 curved_array _ 16 0.005 0 0
              (-0.1) 0.1 3 _ _ Hg Hn ltac:(lia) Hp Ho HP Hr R0 H H3 H4)
    as (n3 & n4 & E3 & E4 & D & A).
  exists (recalculated curved_array 16), (element_at (refreshed curved_array) 3),
    (element_at (refreshed curved_array) 4), n3, n4.
  repeat split; assumption.
Defined.

(* ================================================================== *)
(** * Further properties: beam pattern and field *)
(* ================================================================== *)

(** ** The peak of the beam pattern *)

(** In the direction [steeringAngle + orientation] every element of a
    far-field array contributes the same phasor, whatever the geometry. *)
Lemma beam_at_direction fuel a n s o :
  coherent a -> valid a -> _numElements a = Fin (INR n) -> (n <= fuel)%nat ->
  _steeringAngle a = Fin s -> _orientation a = Fin o ->
  isFinite (_focalDistance a) = false ->
  exists A c,
    _amplitude a = Fin A /\
    calculateBeamPattern fuel a (Fin (s + o))
    = Ok (recalculated a n,
          div (Fin ((0 + INR n * (A * cos c)) * (0 + INR n * (A * cos c))
                    + (0 + INR n * (A * sin c)) * (0 + INR n * (A * sin c))))
              (Fin (INR n * INR n * A * A))).
Proof.
  intros C V Hn Hfuel Hs Ho HF.
  destruct V as [_ (p & Hp & Bp) (f & Hf & Bf) _ (X & Y & HP)
                   (rad & Hrad & Brad) _ _ (A & HA & BA) (c & Hc & Bc)].
  assert (Hf0 : f <> 0) by lra. assert (Hc0 : c <> 0) by lra.
  assert (Hrad0 : rad <> 0) by lra.
  set (D := s * PI / 180 + o * PI / 180).
  exists A, (2 * PI / (c / f) * (X * sin D + Y * cos D)).
  split; [exact HA|].
  unfold calculateBeamPattern.
  rewrite (ensureCalculated_nat fuel a n C Hn Hfuel). cbn [bind].
  destruct (recalculated_fields a n) as (Ep & Eph & Ew & _ & Ea & En & _).
  rewrite Ep, En, Ea, Hn, HA, forEach_seq.
  change (_wavelength (recalculated a n)) with (_wavelength (refreshed a)).
  rewrite (wave_number_fin a f c Hf Hc Hf0 Hc0).
  fin_eval.
  replace ((s + o) * PI / 180) with D by (unfold D; field).
  rewrite (fold_left_const_step _ _
             (A * cos (2 * PI / (c / f) * (X * sin D + Y * cos D)))
             (A * sin (2 * PI / (c / f) * (X * sin D + Y * cos D)))).
  - rewrite length_seq. fin_arith. reflexivity.
  - intros acc i Hi. apply in_seq in Hi. unfold beam_step.
    rewrite Eph, Ea, HA, nth_error_map_seq by lia. cbn [toNumber].
    destruct (element_at_fin a n p X Y rad o Hn Hp HP Hrad Ho Hrad0 i)
      as (xi & yi & Hx & Hy).
    rewrite (element_phase_far_fin a f s X Y o c Hf Hs HP Ho Hc Hf0 Hc0
               _ xi yi HF Hx Hy).
    rewrite Hx, Hy. fin_arith. fold D.
    match goal with
    | |- (add _ (Fin (A * cos ?t)), _) = _ =>
        replace t with (2 * PI / (c / f) * (X * sin D + Y * cos D)) by ring
    end.
    reflexivity.
Qed.

(** X16: the peak of the beam pattern is in the world frame: on every
    reachable valid far-field array with a nonzero amplitude, of either
    geometry and any orientation, [calculateBeamPattern] returns exactly 1
    at the angle [steeringAngle + orientation] (in exact arithmetic). *)
Theorem beam_pattern_peak_in_world_frame :
  forall fuel a n,
    reachable a -> valid a ->
    _numElements a = Fin (INR n) -> (n <= fuel)%nat ->
    _focalDistance a = PInf -> _amplitude a <> Fin 0 ->
    exists a',
      calculateBeamPattern fuel a (add (_steeringAngle a) (_orientation a))
      = Ok (a', Fin 1).
Proof.
  intros fuel a n R V Hn Hfuel HF HA.
  destruct (valid_steeringAngle a V) as (s & Hs & _).
  destruct (valid_orientation a V) as (o & Ho & _).
  destruct (valid_numElements a V) as (n' & Hn' & Bn).
  rewrite Hn in Hn'. injection Hn' as Hn'. apply INR_eq in Hn'. subst n'.
  assert (HF' : isFinite (_focalDistance a) = false) by now rewrite HF.
  destruct (beam_at_direction fuel a n s o (reachable_coherent a R) V Hn
              Hfuel Hs Ho HF') as (A & c & EA & E).
  exists (recalculated a n). rewrite Hs, Ho. cbn [add]. rewrite E.
  rewrite peak_ratio; [reflexivity|lia|].
  intros ->. now apply HA.
Qed.

(** ** The range of the beam pattern *)

(** Adding a unit phasor to a sum of modulus at most [m] gives a sum of
    modulus at most [m + 1]. *)
Lemma phasor_sum_bound C S m t :
  0 <= m -> C * C + S * S <= m * m ->
  (C + cos t) * (C + cos t) + (S + sin t) * (S + sin t)
  <= (m + 1) * (m + 1).
Proof.
  intros Hm H. pose proof (sin2_cos2 t) as T. unfold Rsqr in T.
  set (c := cos t) in *. set (s := sin t) in *.
  assert (P : C * c + S * s <= m).
  { destruct (Rle_dec (C * c + S * s) m) as [L|L]; [exact L|exfalso].
    assert (L' : m < C * c + S * s) by lra.
    assert (Q : m * m < (C * c + S * s) * (C * c + S * s)) by nra.
    assert (CS : (C * c + S * s) * (C * c + S * s)
                 = (C * C + S * S) * (s * s + c * c)
                   - (C * s - S * c) * (C * s - S * c)) by ring.
    pose proof (Rle_0_sqr (C * s - S * c)) as Sq. unfold Rsqr in Sq.
    rewrite T in CS. lra. }
  nra.
Qed.

Lemma beam_fold_bound {B : Type} (l : list B)
      (step : number * number -> B -> number * number) (A : R) :
  (forall acc i, In i l ->
     exists t, step acc i = (add (fst acc) (Fin (A * cos t)),
                             add (snd acc) (Fin (A * sin t)))) ->
  forall C S m,
    0 <= m -> C * C + S * S <= m * m ->
    exists C' S',
      fold_left step l (Fin (A * C), Fin (A * S)) = (Fin (A * C'), Fin (A * S'))
      /\ C' * C' + S' * S'
         <= (m + INR (List.length l)) * (m + INR (List.length l)).
Proof.
  induction l as [|b l IH]; intros Hstep C S m Hm H.
  - exists C, S. split; [reflexivity|]. cbn [List.length INR].
    rewrite Rplus_0_r. exact H.
  - cbn [fold_left].
    destruct (Hstep (Fin (A * C), Fin (A * S)) b (or_introl eq_refl))
      as (t & ->).
    cbn [fst snd add].
    replace (A * C + A * cos t) with (A * (C + cos t)) by ring.
    replace (A * S + A * sin t) with (A * (S + sin t)) by ring.
    destruct (IH (fun acc i Hi => Hstep acc i (or_intror Hi))
                 (C + cos t) (S + sin t) (m + 1))
      as (C' & S' & E & Bd).
    + lra.
    + now apply phasor_sum_bound.
    + exists C', S'. split; [exact E|].
      change (List.length (b :: l)) with (Datatypes.S (List.length l)).
      rewrite S_INR.
      replace (m + (INR (List.length l) + 1))
        with (m + 1 + INR (List.length l)) by ring.
      exact Bd.
Qed.

(** X17: in exact real arithmetic (binary64 rounding and overflow are not
    modelled), on every reachable valid array with a nonzero amplitude, in
    the far field or focused, [calculateBeamPattern] returns a finite number
    between 0 and 1 for every finite angle. *)
Theorem beam_pattern_within_unit_interval :
  forall fuel a n (theta : R),
    reachable a -> valid a ->
    _numElements a = Fin (INR n) -> (n <= fuel)%nat ->
    _amplitude a <> Fin 0 ->
    exists a' v,
      calculateBeamPattern fuel a (Fin theta) = Ok (a', Fin v) /\
      0 <= v <= 1.
Proof.
  intros fuel a n theta R V Hn Hfuel HA0.
  pose proof (reachable_coherent a R) as C.
  destruct (valid_numElements a V) as (n' & Hn' & Bn).
  rewrite Hn in Hn'. injection Hn' as Hn'. apply INR_eq in Hn'. subst n'.
  destruct V as [_ (p & Hp & Bp) (f & Hf & Bf) (s & Hs & Bs) (X & Y & HP)
                   (rad & Hrad & Brad) (o & Ho & Bo) _ (A & HA & BA)
                   (c & Hc & Bc)].
  assert (Hf0 : f <> 0) by lra. assert (Hc0 : c <> 0) by lra.
  assert (Hrad0 : rad <> 0) by lra.
  assert (A0 : A <> 0) by (intros ->; now apply HA0).
  assert (N0 : INR n <> 0) by (apply not_0_INR; lia).
  unfold calculateBeamPattern.
  rewrite (ensureCalculated_nat fuel a n C Hn Hfuel). cbn [bind].
  destruct (recalculated_fields a n) as (Ep & Eph & Ew & _ & Ea & En & _).
  rewrite Ep, En, Ea, Hn, HA, forEach_seq.
  change (_wavelength (recalculated a n)) with (_wavelength (refreshed a)).
  rewrite (wave_number_fin a f c Hf Hc Hf0 Hc0).
  fin_eval.
  replace (Fin 0) with (Fin (A * 0)) by (f_equal; ring).
  match goal with
  | |- context [fold_left ?step (seq 0 n) _] =>
      destruct (beam_fold_bound (seq 0 n) step A) with (C := 0) (S := 0)
                                                       (m := 0)
        as (C' & S' & -> & Bd)
  end.
  - intros acc i Hi. apply in_seq in Hi. unfold beam_step.
    rewrite Eph, Ea, HA, nth_error_map_seq by lia. cbn [toNumber].
    destruct (element_at_fin a n p X Y rad o Hn Hp HP Hrad Ho Hrad0 i)
      as (xi & yi & Hx & Hy).
    destruct (element_phase_fin a f s X Y o c Hf Hs HP Ho Hc Hf0 Hc0
                _ xi yi Hx Hy) as (ph & ->).
    rewrite Hx, Hy. fin_arith. eexists. reflexivity.
  - lra.
  - lra.
  - rewrite length_seq, Rplus_0_l in Bd. cbn [fst snd]. fin_arith.
    assert (D : INR n * INR n * A * A <> 0).
    { repeat apply Rmult_integral_contrapositive_currified; assumption. }
    rewrite div_Fin by exact D.
    do 2 eexists. split; [reflexivity|].
    replace ((A * C' * (A * C') + A * S' * (A * S')) / (INR n * INR n * A * A))
      with ((C' * C' + S' * S') / (INR n * INR n)) by (field; now split).
    assert (P : 0 < INR n * INR n) by (apply Rmult_lt_0_compat; 
      assert (0 <= INR n) by apply pos_INR; lra).
    split.
    + apply Rmult_le_pos; [nra|]. left. now apply Rinv_0_lt_compat.
    + apply Rmult_le_reg_r with (INR n * INR n); [exact P|].
      unfold Rdiv. rewrite Rmult_assoc, Rinv_l by lra. lra.
Qed.

(** ** The size of the field *)

Lemma sqrt_regularised d : 0 <= d -> 0.1 <= sqrt (d + 0.01).
Proof.
  intros H. replace 0.1 with (sqrt (0.1 * 0.1)) at 1
    by (apply sqrt_square; lra).
  apply sqrt_le_1_alt. lra.
Qed.

(** One step of the loop moves the running sum by at most
    [10 * amplitude]. *)
Lemma field_step_bounded (a : PhasedArray) (A f kk qx qy t xi yi ph r : R)
      (e : ElementPos) (i : nat) :
  _amplitude a = Fin A -> 0 <= A -> _frequency a = Fin f ->
  pos_x e = Fin xi -> pos_y e = Fin yi ->
  nth_error (_elementPhases a) i = Some (Fin ph) ->
  exists r',
    field_step a (Fin qx) (Fin qy) (Fin t) (Fin kk)
               (mul (mul (Fin 2) Math.PI) (_frequency a)) (Fin r) e i
    = Fin r' /\ Rabs (r' - r) <= 10 * A.
Proof.
  intros HA A0 Hf Hx Hy Hph. unfold field_step.
  rewrite HA, Hf, Hx, Hy, Hph. cbn [toNumber]. fin_arith.
  rewrite sqrt_Fin by apply sum_squares_nonneg.
  destruct (lt _ (Fin 0.0001)).
  { exists r. split; [reflexivity|].
    replace (r - r) with 0 by ring. rewrite Rabs_R0. lra. }
  fin_arith.
  set (d := sqrt ((qx + - xi) * (qx + - xi) + (qy + - yi) * (qy + - yi))).
  assert (D0 : 0 <= d) by apply sqrt_pos.
  pose proof (sqrt_regularised d D0) as U.
  rewrite sqrt_Fin by lra.
  rewrite div_Fin by lra. fin_arith.
  eexists. split; [reflexivity|].
  set (u := sqrt (d + 0.01)) in *.
  match goal with |- Rabs (r + ?w * cos ?x - r) <= _ =>
    replace (r + w * cos x - r) with (w * cos x) by ring;
    pose proof (COS_bound x) as Cb; set (cx := cos x) in * end.
  assert (W : 0 <= A / u <= 10 * A).
  { split.
    - apply Rmult_le_pos; [exact A0|]. left. apply Rinv_0_lt_compat. lra.
    - apply Rmult_le_reg_r with u; [lra|].
      unfold Rdiv. rewrite Rmult_assoc, Rinv_l by lra. nra. }
  apply Rabs_le. nra.
Qed.

Lemma fold_left_bounded {B : Type} (step : number -> B -> number)
      (l : list B) (M : R) :
  (forall r b, In b l ->
     exists r', step (Fin r) b = Fin r' /\ Rabs (r' - r) <= M) ->
  forall r, exists r',
    fold_left step l (Fin r) = Fin r' /\
    Rabs (r' - r) <= INR (List.length l) * M.
Proof.
  induction l as [|b l IH]; intros H r; cbn [fold_left].
  - exists r. split; [reflexivity|]. cbn [List.length INR].
    replace (r - r) with 0 by ring. rewrite Rabs_R0. lra.
  - destruct (H r b (or_introl eq_refl)) as (r1 & -> & B1).
    destruct (IH (fun r b Hb => H r b (or_intror Hb)) r1) as (r2 & E & B2).
    exists r2. split; [exact E|].
    change (List.length (b :: l)) with (S (List.length l)). rewrite S_INR.
    replace (r2 - r) with ((r2 - r1) + (r1 - r)) by ring.
    eapply Rle_trans; [apply Rabs_triang|]. lra.
Qed.

(** X18: in exact real arithmetic (binary64 rounding and overflow are not
    modelled), the regularisation [+ 0.01] under the square root bounds
    every contribution by [10 * amplitude]: on a reachable valid array of
    [n] elements the field at any finite point and time is at most
    [10 * n * amplitude] in absolute value. *)
Theorem field_bounded_by_element_count :
  forall fuel a n A (qx qy t : R),
    reachable a -> valid a ->
    _numElements a = Fin (INR n) -> (n <= fuel)%nat ->
    _amplitude a = Fin A ->
    exists a' v,
      calculateFieldAt fuel a (Fin qx) (Fin qy) (Some (Fin t))
      = Ok (a', Fin v) /\
      Rabs v <= 10 * INR n * A.
Proof.
  intros fuel a n A qx qy t R V Hn Hfuel HA.
  pose proof (reachable_coherent a R) as C.
  destruct V as [_ (p & Hp & Bp) (f & Hf & Bf) (s & Hs & Bs) (X & Y & HP)
                   (rad & Hrad & Brad) (o & Ho & Bo) _ (A' & HA' & BA)
                   (c & Hc & Bc)].
  rewrite HA in HA'. injection HA' as <-.
  assert (Hf0 : f <> 0) by lra. assert (Hc0 : c <> 0) by lra.
  assert (Hrad0 : rad <> 0) by lra.
  assert (NA : 0 <= 10 * INR n * A).
  { pose proof (pos_INR n). nra. }
  unfold calculateFieldAt.
  rewrite (ensureCalculated_nat fuel a n C Hn Hfuel). cbn [bind].
  destruct (recalculated_fields a n) as (Ep & Eph & Ew & Ee & Ea & En & Efr).
  rewrite Ee. destruct (_enabled a); cbn [negb].
  2:{ do 2 eexists. split; [reflexivity|]. now rewrite Rabs_R0. }
  rewrite Ep, forEach_seq.
  set (a' := recalculated a n) in *.
  match goal with
  | |- context [fold_left ?step (seq 0 n) _] =>
      destruct (fold_left_bounded step (seq 0 n) (10 * A)) with (r := 0)
        as (v & -> & Bd)
  end.
  - intros r i Hi. apply in_seq in Hi.
    change (_wavelength a') with (_wavelength (refreshed a)).
    rewrite (wave_number_fin a f c Hf Hc Hf0 Hc0).
    destruct (element_at_fin a n p X Y rad o Hn Hp HP Hrad Ho Hrad0 i)
      as (xi & yi & Hx & Hy).
    destruct (element_phase_fin a f s X Y o c Hf Hs HP Ho Hc Hf0 Hc0
                _ xi yi Hx Hy) as (ph & Hph).
    apply (field_step_bounded a' A f _ qx qy t xi yi ph r).
    + now rewrite Ea.
    + lra.
    + now rewrite Efr.
    + exact Hx.
    + exact Hy.
    + rewrite Eph, nth_error_map_seq by lia. now rewrite Hph.
  - do 2 eexists. split; [reflexivity|].
    rewrite length_seq, Rminus_0_r in Bd. lra.
Qed.

(** ** The field in time *)

Lemma fold_left_ext_in {A B : Type} (f g : A -> B -> A) (l : list B) :
  (forall acc b, In b l -> f acc b = g acc b) ->
  forall acc, fold_left f l acc = fold_left g l acc.
Proof.
  induction l as [|b l IH]; intros H acc; [reflexivity|].
  cbn [fold_left]. rewrite H by (left; reflexivity).
  apply IH. intros; apply H; now right.
Qed.

(** X19: the field is periodic in time with period [1 / frequency]: on a
    reachable valid array, [calculateFieldAt] returns the same at [t] and at
    [t + 1 / frequency] (in exact arithmetic). *)
Theorem field_periodic_in_time :
  forall fuel a n f (qx qy t : R),
    reachable a -> valid a ->
    _numElements a = Fin (INR n) -> (n <= fuel)%nat ->
    _frequency a = Fin f ->
    calculateFieldAt fuel a (Fin qx) (Fin qy) (Some (Fin (t + 1 / f)))
    = calculateFieldAt fuel a (Fin qx) (Fin qy) (Some (Fin t)).
Proof.
  intros fuel a n f qx qy t R V Hn Hfuel Hf.
  pose proof (reachable_coherent a R) as C.
  destruct V as [_ (p & Hp & Bp) (f' & Hf' & Bf) (s & Hs & Bs) (X & Y & HP)
                   (rad & Hrad & Brad) (o & Ho & Bo) _ (A & HA & BA)
                   (c & Hc & Bc)].
  rewrite Hf in Hf'. injection Hf' as <-.
  assert (Hf0 : f <> 0) by lra. assert (Hc0 : c <> 0) by lra.
  assert (Hrad0 : rad <> 0) by lra.
  unfold calculateFieldAt.
  rewrite (ensureCalculated_nat fuel a n C Hn Hfuel). cbn [bind].
  destruct (recalculated_fields a n) as (Ep & Eph & Ew & Ee & Ea & En & Efr).
  destruct (negb _); [reflexivity|].
  rewrite Ep, !forEach_seq. do 2 apply f_equal.
  apply fold_left_ext_in. intros acc i Hi. apply in_seq in Hi.
  change (_wavelength (recalculated a n)) with (_wavelength (refreshed a)).
  rewrite (wave_number_fin a f c Hf Hc Hf0 Hc0).
  destruct (element_at_fin a n p X Y rad o Hn Hp HP Hrad Ho Hrad0 i)
    as (xi & yi & Hx & Hy).
  destruct (element_phase_fin a f s X Y o c Hf Hs HP Ho Hc Hf0 Hc0
              _ xi yi Hx Hy) as (ph & Hph).
  unfold field_step.
  rewrite Eph, Ea, Efr, HA, Hf, nth_error_map_seq, Hph, Hx, Hy by lia.
  cbn [toNumber]. fin_arith.
  rewrite sqrt_Fin by apply sum_squares_nonneg.
  destruct (lt _ (Fin 0.0001)); [reflexivity|].
  fin_arith.
  set (d := sqrt ((qx + - xi) * (qx + - xi) + (qy + - yi) * (qy + - yi))).
  assert (D0 : 0 <= d) by apply sqrt_pos.
  pose proof (sqrt_regularised d D0) as U.
  rewrite sqrt_Fin by lra. rewrite div_Fin by lra. fin_arith.
  do 3 apply f_equal.
  match goal with |- cos ?x = cos ?y =>
    replace x with (y - 2 * PI) by (field; now split) end.
  rewrite cos_minus, cos_2PI, sin_2PI. ring.
Qed.

(** ** Focusing *)

(** The phase of a focused element as a real number. *)
Lemma element_phase_near_fin a f s X Y o c F e xi yi :
  _frequency a = Fin f -> _steeringAngle a = Fin s ->
  _position a = mkPoint (Fin X) (Fin Y) -> _orientation a = Fin o ->
  _speedOfSound a = Fin c -> f <> 0 -> c <> 0 ->
  _focalDistance a = Fin F ->
  pos_x e = Fin xi -> pos_y e = Fin yi ->
  element_phase (refreshed a) e
  = Fin (0 + - (2 * PI / (c / f)
                * (sqrt ((X + F * sin (s * PI / 180 + o * PI / 180) + - xi)
                         * (X + F * sin (s * PI / 180 + o * PI / 180) + - xi)
                         + (Y + F * cos (s * PI / 180 + o * PI / 180) + - yi)
                           * (Y + F * cos (s * PI / 180 + o * PI / 180)
                              + - yi))
                   + - F))).
Proof.
  intros Hf Hs HP Ho Hc Hf0 Hc0 HF Hx Hy. unfold element_phase, focalPoint.
  rewrite (wave_number_fin a f c Hf Hc Hf0 Hc0),
    (direction_fin a s o Hs Ho).
  change (_focalDistance (refreshed a)) with (_focalDistance a).
  change (_position (refreshed a)) with (_position a).
  rewrite HF, HP, Hx, Hy. cbn [isFinite px py fst snd]. fin_arith.
  rewrite sqrt_Fin by apply sum_squares_nonneg. fin_arith. reflexivity.
Qed.

Lemma fold_left_weights {B : Type} (step : number -> B -> number)
      (l : list B) (K : R) (w : B -> R) :
  (forall r b, In b l -> step (Fin r) b = Fin (r + w b * K)) ->
  forall r0,
    fold_left step l (Fin r0)
    = Fin (r0 + fold_right (fun b acc => w b + acc) 0 l * K).
Proof.
  induction l as [|b l IH]; intros H r0; cbn [fold_left fold_right].
  - f_equal. ring.
  - rewrite H by (left; reflexivity).
    rewrite IH by (intros; apply H; now right). f_equal. ring.
Qed.

(** X20: focusing works (in exact real arithmetic: binary64 rounding and
    overflow are not modelled).  At the focal point
    [position + focalDistance * (sinDir, cosDir)] of a focused array, every
    element that is not skipped enters the sum of [calculateFieldAt] with
    the same total phase [k * focalDistance - omega * t] and with its weight
    [amplitude / sqrt(dist + 0.01)], which is finite and not negative (and
    positive when the amplitude is): the field there is the sum of the
    weights times the cosine of that phase. *)
Theorem focused_field_in_phase :
  forall fuel a n F f c s o X Y (t : R),
    reachable a -> valid a -> _enabled a = true ->
    _numElements a = Fin (INR n) -> (n <= fuel)%nat ->
    _focalDistance a = Fin F -> _frequency a = Fin f ->
    _speedOfSound a = Fin c -> _steeringAngle a = Fin s ->
    _orientation a = Fin o -> _position a = mkPoint (Fin X) (Fin Y) ->
    let fx := Fin (X + F * sin (s * PI / 180 + o * PI / 180)) in
    let fy := Fin (Y + F * cos (s * PI / 180 + o * PI / 180)) in
    let K := cos (2 * PI / (c / f) * F - 2 * PI * f * t) in
    (forall i r,
       (i < n)%nat ->
       field_step (recalculated a n) fx fy (Fin t)
                  (div (mul (Fin 2) Math.PI) (_wavelength (recalculated a n)))
                  (mul (mul (Fin 2) Math.PI) (_frequency (recalculated a n)))
                  (Fin r) (element_at (refreshed a) i) i
       = Fin (r + real_of (arrival_weight a fx fy i) * K)) /\
    (forall i, exists w,
       arrival_weight a fx fy i = Fin w /\ 0 <= w /\
       (lt (distance_to fx fy (element_at (refreshed a) i)) (Fin 0.0001)
        = false -> _amplitude a <> Fin 0 -> 0 < w)) /\
    calculateFieldAt fuel a fx fy (Some (Fin t))
    = Ok (recalculated a n,
          Fin (fold_right
                 (fun i acc => real_of (arrival_weight a fx fy i) + acc)
                 0 (seq 0 n)
               * K)).
Proof.
  intros fuel a n F f c s o X Y t R V He Hn Hfuel HF Hf Hc Hs Ho HP fx fy K.
  pose proof (reachable_coherent a R) as C.
  destruct V as [_ (p & Hp & Bp) (f' & Hf' & Bf) _ _
                   (rad & Hrad & Brad) _ _ (A & HA & BA) (c' & Hc' & Bc)].
  rewrite Hf in Hf'. injection Hf' as <-.
  rewrite Hc in Hc'. injection Hc' as <-.
  assert (Hf0 : f <> 0) by lra. assert (Hc0 : c <> 0) by lra.
  assert (Hrad0 : rad <> 0) by lra.
  destruct (recalculated_fields a n) as (Ep & Eph & Ew & Ee & Ea & En & Efr).
  assert (W : forall i, exists w,
            arrival_weight a fx fy i = Fin w /\ 0 <= w /\
            (lt (distance_to fx fy (element_at (refreshed a) i)) (Fin 0.0001)
             = false -> _amplitude a <> Fin 0 -> 0 < w)).
  { intros i. unfold arrival_weight.
    destruct (element_at_fin a n p X Y rad o Hn Hp HP Hrad Ho Hrad0 i)
      as (xi & yi & Hx & Hy).
    destruct (lt _ (Fin 0.0001)).
    { exists 0. split; [reflexivity|]. split; [lra|discriminate]. }
    unfold distance_to, fx, fy. rewrite Hx, Hy, HA. fin_arith.
    rewrite sqrt_Fin by apply sum_squares_nonneg. fin_arith.
    match goal with |- context [Math.sqrt (Fin (?d0 + 0.01))] =>
      set (d := d0) end.
    assert (D0 : 0 <= d) by apply sqrt_pos.
    pose proof (sqrt_regularised d D0) as U.
    rewrite sqrt_Fin by lra. rewrite div_Fin by lra.
    eexists. split; [reflexivity|].
    assert (I : 0 < / sqrt (d + 0.01)) by (apply Rinv_0_lt_compat; lra).
    split.
    - apply Rmult_le_pos; lra.
    - intros _ A0. apply Rmult_lt_0_compat; [|exact I].
      destruct (Req_dec A 0) as [->|N]; [now elim A0|lra]. }
  assert (St : forall i r,
            (i < n)%nat ->
            field_step (recalculated a n) fx fy (Fin t)
              (div (mul (Fin 2) Math.PI) (_wavelength (recalculated a n)))
              (mul (mul (Fin 2) Math.PI) (_frequency (recalculated a n)))
              (Fin r) (element_at (refreshed a) i) i
            = Fin (r + real_of (arrival_weight a fx fy i) * K)).
  { intros i r Li.
    change (_wavelength (recalculated a n)) with (_wavelength (refreshed a)).
    rewrite (wave_number_fin a f c Hf Hc Hf0 Hc0).
    destruct (element_at_fin a n p X Y rad o Hn Hp HP Hrad Ho Hrad0 i)
      as (xi & yi & Hx & Hy).
    unfold field_step, arrival_weight, distance_to, fx, fy.
    rewrite Eph, Ea, Efr, HA, Hf, nth_error_map_seq by lia.
    rewrite (element_phase_near_fin a f s X Y o c F _ xi yi Hf Hs HP Ho Hc
               Hf0 Hc0 HF Hx Hy).
    rewrite Hx, Hy. cbn [toNumber]. fin_arith.
    rewrite sqrt_Fin by apply sum_squares_nonneg.
    destruct (lt _ (Fin 0.0001)).
    { cbn [real_of]. f_equal. ring. }
    fin_arith.
    match goal with |- context [Math.sqrt (Fin (?d0 + 0.01))] =>
      set (d := d0) end.
    assert (D0 : 0 <= d) by apply sqrt_pos.
    pose proof (sqrt_regularised d D0) as U.
    rewrite sqrt_Fin by lra. rewrite div_Fin by lra. fin_arith.
    cbn [real_of]. do 3 apply f_equal. unfold K. apply f_equal. ring. }
  split; [exact St|]. split; [exact W|].
  unfold calculateFieldAt.
  rewrite (ensureCalculated_nat fuel a n C Hn Hfuel). cbn [bind].
  rewrite Ee, He. cbn [negb]. rewrite Ep, forEach_seq.
  rewrite (fold_left_weights _ (seq 0 n) K
             (fun i => real_of (arrival_weight a fx fy i)))
    by (intros r i Hi; apply St; apply in_seq in Hi; lia).
  do 3 f_equal. ring.
Qed.

(** ** Phase progression of a steered linear array *)

(** X21: in exact real arithmetic (binary64 rounding and overflow are not
    modelled), in a far-field linear array the phases of adjacent elements
    differ by [- k * pitch * sin(steering + 2 * orientation)] (angles in
    radians): the orientation enters twice, once through the element
    positions and once through the steering direction. *)
Theorem linear_phase_progression :
  forall fuel a a' n p f c s o X Y i phi phj,
    _geometry a = "linear"%string -> _numElements a = Fin (INR n) ->
    _pitch a = Fin p -> _frequency a = Fin f -> f <> 0 ->
    _speedOfSound a = Fin c -> c <> 0 ->
    _steeringAngle a = Fin s -> _orientation a = Fin o ->
    _position a = mkPoint (Fin X) (Fin Y) ->
    _focalDistance a = PInf ->
    _recalculate fuel a = Ok a' ->
    nth_error (_elementPhases a') i = Some phi ->
    nth_error (_elementPhases a') (S i) = Some phj ->
    sub phj phi
    = Fin (- (2 * PI / (c / f)) * p
           * sin (s * PI / 180 + 2 * (o * PI / 180))).
Proof.
  intros fuel a a' n p f c s o X Y i phi phj Hg Hn Hp Hf Hf0 Hc Hc0 Hs Ho HP
         HF H Hi Hj.
  pose proof (recalculate_nat_inv _ _ _ n Hn H) as ->.
  destruct (recalculated_fields a n) as (_ & Eph & _).
  rewrite Eph in Hi, Hj.
  assert (Lj : (S i < n)%nat).
  { assert (Q : nth_error
                  (map (fun i0 => element_phase (refreshed a)
                                    (element_at (refreshed a) i0))
                       (seq 0 n)) (S i) <> None)
      by (rewrite Hj; discriminate).
    apply nth_error_Some in Q. now rewrite length_map, length_seq in Q. }
  rewrite nth_error_map_seq in Hi, Hj by lia.
  injection Hi as <-. injection Hj as <-.
  assert (HF' : isFinite (_focalDistance a) = false) by now rewrite HF.
  destruct (linear_element_coordinates a n p o X Y Hn Hp Ho HP i Hg)
    as [Hxi Hyi].
  destruct (linear_element_coordinates a n p o X Y Hn Hp Ho HP (S i) Hg)
    as [Hxj Hyj].
  rewrite (element_phase_far_fin a f s X Y o c Hf Hs HP Ho Hc Hf0 Hc0
             _ _ _ HF' Hxi Hyi).
  rewrite (element_phase_far_fin a f s X Y o c Hf Hs HP Ho Hc Hf0 Hc0
             _ _ _ HF' Hxj Hyj).
  fin_arith. f_equal. rewrite S_INR.
  replace (s * PI / 180 + 2 * (o * PI / 180))
    with ((s * PI / 180 + o * PI / 180) + o * PI / 180) by ring.
  rewrite (sin_plus (s * PI / 180 + o * PI / 180)).
  field. now split.
Qed.

(** ** Instances *)

Lemma set_orientation_others v a :
  _steeringAngle (set_orientation v a) = _steeringAngle a /\
  _numElements (set_orientation v a) = _numElements a /\
  _focalDistance (set_orientation v a) = _focalDistance a /\
  _amplitude (set_orientation v a) = _amplitude a.
Proof. repeat split; reflexivity. Qed.

Lemma steered_configuration :
  _geometry steered_array = "linear"%string /\
  _pitch steered_array = Fin (0.5 * (343 / 40000)) /\
  _frequency steered_array = Fin 40000 /\
  _speedOfSound steered_array = Fin 343 /\
  _orientation steered_array = Fin 0 /\
  _position steered_array = mkPoint (Fin 0) (Fin (-0.1)) /\
  _focalDistance steered_array = PInf /\
  _amplitude steered_array = Fin 1.0.
Proof.
  split; [reflexivity|]. split.
  { unfold steered_array, set_steeringAngle, set_pitch. fields.
    rewrite max_Fin. f_equal. apply Rmax_right. lra. }
  repeat split; reflexivity.
Qed.

Lemma reachable_tilted : reachable tilted_array.
Proof. exact (reach_set (SetOrientation _) _ reachable_steered). Qed.

Lemma valid_tilted : valid tilted_array.
Proof.
  apply (valid_setter (SetOrientation _)); [reflexivity|exact valid_steered].
Qed.

(** X16, witness: 11 elements steered to 30 degrees on an array turned by
    -20 degrees: the beam pattern is 1 at 10 degrees. *)
Lemma beam_pattern_peak_in_world_frame_witness :
  exists a',
    calculateBeamPattern 11 tilted_array (Fin (30 + -20)) = Ok (a', Fin 1).
Proof.
  destruct (set_orientation_others (Fin (-20)) steered_array)
    as (Es & En & EF & EA).
  destruct steered_configuration as (_ & _ & _ & _ & _ & _ & HF & HA).
  assert (Ho : _orientation tilted_array = Fin (-20)).
  { unfold tilted_array, set_orientation. fields.
    apply rem_360_negative. lra. }
  assert (Hs : _steeringAngle tilted_array = Fin 30).
  { unfold tilted_array. rewrite Es. exact steered_steeringAngle. }
  assert (Hn : _numElements tilted_array = Fin (INR 11)).
  { unfold tilted_array. rewrite En. exact steered_numElements. }
  assert (HF' : _focalDistance tilted_array = PInf).
  { unfold tilted_array. rewrite EF. exact HF. }
  assert (HA' : _amplitude tilted_array <> Fin 0).
  { unfold tilted_array. rewrite EA, HA. apply Fin_neq. lra. }
  pose proof (beam_pattern_peak_in_world_frame 11 tilted_array 11
                reachable_tilted valid_tilted Hn (le_n 11) HF' HA') as P.
  rewrite Hs, Ho in P. exact P.
Defined.

(** X17, witness: the steered array, seen from broadside. *)
Lemma beam_pattern_within_unit_interval_witness :
  exists a' v,
    calculateBeamPattern 11 steered_array (Fin 0) = Ok (a', Fin v) /\
    0 <= v <= 1.
Proof.
  destruct steered_configuration as (_ & _ & _ & _ & _ & _ & _ & HA).
  apply (beam_pattern_within_unit_interval 11 steered_array 11 0
           reachable_steered valid_steered steered_numElements (le_n 11)).
  rewrite HA. apply Fin_neq. lra.
Defined.

Lemma default_physics :
  _frequency default_array = Fin 40000 /\
  _speedOfSound default_array = Fin 343 /\
  _steeringAngle default_array = Fin 0 /\
  _amplitude default_array = Fin 1.0 /\
  _enabled default_array = true.
Proof. repeat split; reflexivity. Qed.

(** X18, witness: the field of the default array (16 elements of amplitude
    1) at the origin is at most 160. *)
Lemma field_bounded_by_element_count_witness :
  exists a' v,
    calculateFieldAt 16 default_array (Fin 0) (Fin 0) (Some (Fin 0))
    = Ok (a', Fin v) /\
    Rabs v <= 10 * INR 16 * 1.0.
Proof.
  destruct default_physics as (_ & _ & _ & HA & _).
  exact (field_bounded_by_element_count 16 default_array 16 1.0 0 0 0
           reachable_default valid_default default_numElements (le_n 16) HA).
Defined.

(** X19, witness: the default array at 40 kHz, one period after [t = 0]. *)
Lemma field_periodic_in_time_witness :
  calculateFieldAt 16 default_array (Fin 0) (Fin 0)
                   (Some (Fin (0 + 1 / 40000)))
  = calculateFieldAt 16 default_array (Fin 0) (Fin 0) (Some (Fin 0)).
Proof.
  destruct default_physics as (Hf & _).
  exact (field_periodic_in_time 16 default_array 16 40000 0 0 0
           reachable_default valid_default default_numElements (le_n 16) Hf).
Defined.

Lemma set_focalDistance_others v a :
  _numElements (set_focalDistance v a) = _numElements a /\
  _frequency (set_focalDistance v a) = _frequency a /\
  _speedOfSound (set_focalDistance v a) = _speedOfSound a /\
  _steeringAngle (set_focalDistance v a) = _steeringAngle a /\
  _orientation (set_focalDistance v a) = _orientation a /\
  _position (set_focalDistance v a) = _position a /\
  _enabled (set_focalDistance v a) = _enabled a.
Proof. repeat split; reflexivity. Qed.

(** X20, witness: the default array focused 5 cm ahead, at [(0, -0.05)]. *)
Lemma focused_field_in_phase_witness :
  calculateFieldAt 16 focused_array
    (Fin (0 + 0.05 * sin (0 * PI / 180 + 0 * PI / 180)))
    (Fin (-0.1 + 0.05 * cos (0 * PI / 180 + 0 * PI / 180)))
    (Some (Fin 0))
  = Ok (recalculated focused_array 16,
        Fin (fold_right
               (fun i acc =>
                  real_of (arrival_weight focused_array
                             (Fin (0 + 0.05 * sin (0 * PI / 180
                                                   + 0 * PI / 180)))
                             (Fin (-0.1 + 0.05 * cos (0 * PI / 180
                                                      + 0 * PI / 180)))
                             i)
                  + acc)
               0 (seq 0 16)
             * cos (2 * PI / (343 / 40000) * 0.05 - 2 * PI * 40000 * 0))).
Proof.
  destruct (set_focalDistance_others (Fin 0.05) default_array)
    as (En & Ef & Ec & Es & Eo & EP & Ee).
  destruct default_physics as (Hf & Hc & Hs & _ & He).
  destruct default_configuration as (_ & _ & Ho & HP & _).
  assert (R : reachable focused_array)
    by exact (reach_set (SetFocalDistance _) _ reachable_default).
  assert (V : valid focused_array).
  { apply (valid_setter (SetFocalDistance _));
      [reflexivity|exact valid_default]. }
  assert (HF : _focalDistance focused_array = Fin 0.05).
  { unfold focused_array. rewrite set_focalDistance_Fin.
    destruct (Rle_dec 0.05 0); [lra|reflexivity]. }
  pose proof default_numElements as Hn.
  fold focused_array in En, Ef, Ec, Es, Eo, EP, Ee.
  rewrite <- En in Hn. rewrite <- Ef in Hf. rewrite <- Ec in Hc.
  rewrite <- Es in Hs. rewrite <- Eo in Ho. rewrite <- EP in HP.
  rewrite <- Ee in He.
  exact (proj2 (proj2 (focused_field_in_phase 16 focused_array 16 0.05 40000
                         343 0 0 0 (-0.1) 0 R V He Hn (le_n 16) HF Hf Hc Hs
                         Ho HP))).
Defined.

(** X21, witness: the steered array (30 degrees, orientation 0): adjacent
    phases differ by [- k * pitch * sin(30 degrees)]. *)
Lemma linear_phase_progression_witness :
  exists a' ph0 ph1,
    _recalculate 11 steered_array = Ok a' /\
    nth_error (_elementPhases a') 0 = Some ph0 /\
    nth_error (_elementPhases a') 1 = Some ph1 /\
    sub ph1 ph0
    = Fin (- (2 * PI / (343 / 40000)) * (0.5 * (343 / 40000))
           * sin (30 * PI / 180 + 2 * (0 * PI / 180))).
Proof.
  destruct steered_configuration as (Hg & Hp & Hf & Hc & Ho & HP & HF & _).
  pose proof (recalculate_nat 11 steered_array 11 steered_numElements
                (le_n 11)) as H.
  destruct (recalculated_fields steered_array 11) as (_ & Eph & _).
  assert (H0 : nth_error (_elementPhases (recalculated steered_array 11)) 0
               = Some (element_phase (refreshed steered_array)
                         (element_at (refreshed steered_array) 0))).
  { rewrite Eph. now rewrite nth_error_map_seq by lia. }
  assert (H1 : nth_error (_elementPhases (recalculated steered_array 11)) 1
               = Some (element_phase (refreshed steered_array)
                         (element_at (refreshed steered_array) 1))).
  { rewrite Eph. now rewrite nth_error_map_seq by lia. }
  assert (F0 : 40000 <> 0) by lra. assert (C0 : 343 <> 0) by lra.
  do 3 eexists. split; [exact H|]. split; [exact H0|]. split; [exact H1|].
  exact (linear_phase_progression 11 steered_array _ 11 _ 40000 343 30 0 0
           (-0.1) 0 _ _ Hg steered_numElements Hp Hf F0 Hc C0
           steered_steeringAngle Ho HP HF H H0 H1).
Defined.

(* ================================================================== *)
(** * Further properties: construction, setters and serialization *)
(* ================================================================== *)

(** ** What the round trip keeps *)

(** X22: what the round trip keeps: on a reachable valid array with a
    nonzero amplitude and a name that is not empty, [fromJSON(toJSON(a))]
    succeeds, takes a fresh id from the counter, and serializes to the same
    object as [a] with [enabled] forced to [true]. *)
Theorem roundtrip_keeps_configuration :
  forall fuel a n counter,
    reachable a -> valid a ->
    _numElements a = Fin (INR n) -> (n <= fuel)%nat ->
    _amplitude a <> Fin 0 -> name a <> EmptyString ->
    exists a1,
      fromJSON fuel (toJSON a) counter = Ok (a1, S counter) /\
      id a1 = S counter /\
      toJSON a1 = toJSON (set_enabled true a).
Proof.
  intros fuel a n counter R V Hn Hfuel HA Hname.
  destruct (roundtrip_fields a (S counter) V (reachable_geometry a R) HA)
    as (En & Ep & Ef & Es & EP & Eg & Er & Eo & EF & EA & Ec).
  set (this := assigned_fields (toJSON a) (S counter)) in *.
  assert (Hn' : _numElements this = Fin (INR n)) by congruence.
  exists (recalculated this n). split; [|split].
  - apply constructor_nat; assumption.
  - reflexivity.
  - assert (Nm : name this = name a).
    { unfold this, assigned_fields. fields. cbn [toJSON cfg_name].
      apply or_string_nonempty, Hname. }
    assert (Een : _enabled this = true) by reflexivity.
    unfold toJSON, recalculated, set_enabled. fields.
    rewrite Nm, En, Ep, Ef, Es, EP, Eg, Er, Eo, EF, EA, Ec, Een.
    reflexivity.
Qed.

(** X22, witness: the default array. *)
Lemma roundtrip_keeps_configuration_witness :
  exists a1,
    fromJSON 16 (toJSON default_array) 1 = Ok (a1, 2%nat) /\
    id a1 = 2%nat /\
    toJSON a1 = toJSON (set_enabled true default_array).
Proof.
  apply (roundtrip_keeps_configuration 16 default_array 16 1
           reachable_default valid_default default_numElements (le_n 16)).
  - apply (Fin_neq 1.0 0). lra.
  - discriminate.
Defined.

(** ** The constructor does not clamp *)

Lemma Rmin_INR n m : Rmin (INR n) (INR m) = INR (Nat.min n m).
Proof.
  destruct (Nat.le_ge_cases n m) as [H|H].
  - rewrite Nat.min_l by exact H. apply Rmin_left. now apply le_INR.
  - rewrite Nat.min_r by exact H. apply Rmin_right. now apply le_INR.
Qed.

Lemma round_INR n : Math.round (Fin (INR n)) = Fin (INR n).
Proof.
  unfold Math.round. rewrite INR_IZR_INZ, Int_part_half. reflexivity.
Qed.

(** X23: the constructor (and so [fromJSON]) bypasses the cap of the
    [numElements] setter: a configured whole count [n >= 1] is stored as it
    is and [getElementData] returns [n] entries, while assigning the same
    count through the setter stores [min(n, 64)]. *)
Theorem constructor_skips_numElements_cap :
  forall fuel config counter n,
    cfg_numElements config = Some (Fin (INR n)) ->
    (1 <= n <= fuel)%nat ->
    exists a a' data,
      constructor fuel config counter = Ok (a, S counter) /\
      _numElements a = Fin (INR n) /\
      getElementData fuel a = Ok (a', data) /\
      List.length data = n /\
      _numElements (set_numElements (Fin (INR n)) a)
      = Fin (INR (Nat.min n 64)).
Proof.
  intros fuel config counter n Hc [H1 Hf].
  assert (N0 : INR n <> 0) by (apply not_0_INR; lia).
  assert (Hn : or_default (cfg_numElements config) (Fin 16) = Fin (INR n)).
  { rewrite Hc. cbn [or_default]. apply or_truthy, truthy_Fin, N0. }
  pose proof (constructor_nat fuel config counter n Hn Hf) as E.
  set (a := recalculated (assigned_fields config (S counter)) n) in *.
  assert (Hn' : _numElements a = Fin (INR n)) by exact Hn.
  exists a. do 2 eexists. split; [exact E|]. split; [exact Hn'|]. split.
  - exact (getElementData_nat fuel a n
             (reachable_coherent _ (reach_new _ _ _ _ _ E)) Hn' Hf).
  - split.
    + change (_enabled a) with true. cbv iota.
      now rewrite length_map, length_seq.
    + unfold set_numElements. fields.
      rewrite round_INR, min_Fin, max_Fin. f_equal.
      replace 64 with (INR 64) by (rewrite INR_IZR_INZ; reflexivity).
      rewrite Rmin_comm, Rmin_INR, Nat.min_comm.
      apply Rmax_right. replace 1 with (INR 1) by reflexivity.
      apply le_INR. lia.
Qed.

(** X23, witness: [new PhasedArray({ numElements: 100 })] holds 100
    elements; the setter would store 64. *)
Lemma constructor_skips_numElements_cap_witness :
  exists a a' data,
    constructor 100 crowded_config 0 = Ok (a, 1%nat) /\
    _numElements a = Fin (INR 100) /\
    getElementData 100 a = Ok (a', data) /\
    List.length data = 100%nat /\
    _numElements (set_numElements (Fin (INR 100)) a) = Fin (INR 64).
Proof.
  assert (E : cfg_numElements crowded_config = Some (Fin (INR 100))).
  { cbn [crowded_config cfg_numElements]. rewrite INR_IZR_INZ. reflexivity. }
  exact (constructor_skips_numElements_cap 100 crowded_config 0 100 E
           (conj (Nat.lt_0_succ 99) (le_n 100))).
Defined.

(** ** The setters on values in range *)

Lemma rem_360_small v : -360 < v < 360 -> rem (Fin v) (Fin 360) = Fin v.
Proof.
  intros H. simpl. destruct (Req_dec_T 360 0) as [C|_]; [lra|].
  f_equal. unfold Rtrunc.
  destruct (Rle_dec 0 (v / 360)) as [P|N];
    rewrite Int_part_unit by lra; simpl; lra.
Qed.

(** X24: the documented ranges are fixed points of the setters: on a valid
    array, assigning an attribute its own value changes no attribute (up to
    the sign of a zero coordinate, which the model does not distinguish);
    it only marks the cache stale (and not even that for [amplitude]). *)
Theorem setters_keep_values_in_range :
  forall a,
    valid a ->
    set_numElements (_numElements a) a = with_dirty true a /\
    set_pitch (_pitch a) a = with_dirty true a /\
    set_frequency (_frequency a) a = with_dirty true a /\
    set_steeringAngle (_steeringAngle a) a = with_dirty true a /\
    set_position (_position a) a = with_dirty true a /\
    set_curvatureRadius (_curvatureRadius a) a = with_dirty true a /\
    set_orientation (_orientation a) a = with_dirty true a /\
    set_focalDistance (_focalDistance a) a = with_dirty true a /\
    set_amplitude (_amplitude a) a = a /\
    set_speedOfSound (_speedOfSound a) a = with_dirty true a.
Proof.
  intros a [(n & Hn & Bn) (p & Hp & Bp) (f & Hf & Bf) (s & Hs & Bs)
              (X & Y & HP) (rad & Hrad & Brad) (o & Ho & Bo) VF
              (A & HA & BA) (c & Hc & Bc)].
  assert (En : Math.max (Fin 1) (Math.min (Fin 64) (Math.round (Fin (INR n))))
               = Fin (INR n)).
  { rewrite round_INR, min_Fin, max_Fin. f_equal.
    assert (1 <= INR n <= 64).
    { split.
      - replace 1 with (INR 1) by reflexivity. apply le_INR. lia.
      - replace 64 with (INR 64) by (rewrite INR_IZR_INZ; reflexivity).
        apply le_INR. lia. }
    rewrite Rmin_right by lra. apply Rmax_right. lra. }
  assert (EF : (if le (_focalDistance a) (Fin 0) then PInf
                else _focalDistance a) = _focalDistance a).
  { destruct VF as [->|(F & -> & BF)]; [reflexivity|].
    cbn [le]. destruct (Rle_dec F 0); [lra|reflexivity]. }
  destruct a; cbn in Hn, Hp, Hf, Hs, HP, Hrad, Ho, HA, Hc, EF.
  unfold set_numElements, set_pitch, set_frequency, set_steeringAngle,
    set_position, set_curvatureRadius, set_orientation, set_focalDistance,
    set_amplitude, set_speedOfSound. fields.
  rewrite EF. subst.
  rewrite En, !min_Fin, !max_Fin, rem_360_small by exact Bo.
  cbn [px py]. rewrite !or_zero_same.
  rewrite (Rmax_right 0.001 p), (Rmax_right 0.1 f), (Rmax_right 0.01 rad),
    (Rmax_right 0.1 c) by lra.
  rewrite (Rmin_right 90 s), (Rmax_right (-90) s) by lra.
  rewrite (Rmin_right 2 A), (Rmax_right 0 A) by lra.
  repeat split.
Qed.

(** X24, witness: the default array. *)
Lemma setters_keep_values_in_range_witness :
  set_pitch (_pitch default_array) default_array
  = with_dirty true default_array /\
  set_amplitude (_amplitude default_array) default_array = default_array.
Proof.
  pose proof (setters_keep_values_in_range default_array valid_default) as H.
  split; [exact (proj1 (proj2 H))|].
  exact (proj1 (proj2 (proj2 (proj2 (proj2 (proj2 (proj2 (proj2
           (proj2 H))))))))).
Defined.

(* ================================================================== *)
(** * Further properties: the overlay coordinates *)
(* ================================================================== *)

(** X25: in exact real arithmetic (binary64 rounding and overflow are not
    modelled), [screenToPhysics] and [mapX]/[mapY] are inverse to each other
    when the bounding rectangle of the overlay canvas has the size of its
    pixel buffer, and the sizes of the canvas and of the field are not
    zero. *)
Theorem screenToPhysics_inverts_map :
  forall settings (w h fw fh cx cy : R),
    fieldWidth settings = Fin fw -> fieldHeight settings = Fin fh ->
    fieldCenterX settings = Fin cx -> fieldCenterY settings = Fin cy ->
    w <> 0 -> h <> 0 -> fw <> 0 -> fh <> 0 ->
    (forall sx sy : R,
       let p := screenToPhysics settings (Fin w) (Fin h) (Fin sx) (Fin sy) in
       mapX settings (Fin w) (Fin h) (px p) = Fin sx /\
       mapY settings (Fin h) (py p) = Fin sy) /\
    (forall x y : R,
       screenToPhysics settings (Fin w) (Fin h)
                       (mapX settings (Fin w) (Fin h) (Fin x))
                       (mapY settings (Fin h) (Fin y))
       = mkPoint (Fin x) (Fin y)).
Proof.
  intros settings w h fw fh cx cy Hfw Hfh Hcx Hcy Hw Hh Hfw0 Hfh0.
  assert (Ha : w / h <> 0).
  { unfold Rdiv. apply Rmult_integral_contrapositive_currified;
      [exact Hw|now apply Rinv_neq_0_compat]. }
  split.
  - intros sx sy. unfold screenToPhysics, mapX, mapY.
    rewrite Hfw, Hfh, Hcx, Hcy. cbn [px py].
    rewrite !(div_Fin _ w Hw), !(div_Fin _ h Hh). fin_arith.
    rewrite !(div_Fin _ fw Hfw0), !(div_Fin _ fh Hfh0).
    rewrite (div_Fin _ (w / h) Ha). fin_arith.
    split; f_equal; field; auto.
  - intros x y. unfold screenToPhysics, mapX, mapY.
    rewrite Hfw, Hfh, Hcx, Hcy.
    rewrite !(div_Fin _ h Hh). fin_arith.
    rewrite !(div_Fin _ fw Hfw0), !(div_Fin _ fh Hfh0).
    rewrite !(div_Fin _ (w / h) Ha). fin_arith.
    rewrite !(div_Fin _ w Hw), !(div_Fin _ h Hh). fin_arith.
    f_equal; f_equal; field; auto.
Qed.

(** X25, witness: the settings of a new context on an 800 by 600 canvas. *)
Lemma screenToPhysics_inverts_map_witness :
  let settings := globalSettings newSimulationContext in
  let p := screenToPhysics settings (Fin 800) (Fin 600) (Fin 200) (Fin 150) in
  mapX settings (Fin 800) (Fin 600) (px p) = Fin 200 /\
  mapY settings (Fin 600) (py p) = Fin 150.
Proof.
  intros settings.
  refine (proj1 (screenToPhysics_inverts_map settings 800 600 0.5 0.5 0 0.15
                   eq_refl eq_refl eq_refl eq_refl _ _ _ _) 200 150); lra.
Defined.

(* ================================================================== *)
(** * Non-finite attributes *)
(* ================================================================== *)

(** ** The field of an array with an infinite frequency *)

Lemma Rsign_pos r : 0 < r -> Rsign r = Gt.
Proof.
  intros H. unfold Rsign.
  destruct (total_order_T r 0) as [[C|C]|C]; try reflexivity; lra.
Qed.

(** When [omega * time] is NaN, an element that is not skipped turns the
    running sum into NaN. *)
Lemma field_step_nan (a : PhasedArray) (qx qy t k omega r : number)
      (e : ElementPos) (i : nat) :
  mul omega t = NaN ->
  field_step a qx qy t k omega r e i
  = if lt (distance_to qx qy e) (Fin 0.0001) then r else NaN.
Proof.
  intros H. unfold field_step, distance_to.
  destruct (lt _ (Fin 0.0001)); [reflexivity|].
  rewrite H. unfold sub. cbn [neg].
  destruct (mul k _), (toNumber _), (div _ _), r; reflexivity.
Qed.

(** Once the running sum is NaN it stays NaN. *)
Lemma field_fold_nan (a : PhasedArray) (qx qy t k omega : number)
      (f : nat -> ElementPos) (l : list nat) :
  mul omega t = NaN ->
  fold_left (fun r i => field_step a qx qy t k omega r (f i) i) l NaN = NaN.
Proof.
  intros H. induction l as [|i l IH]; [reflexivity|].
  cbn [fold_left]. rewrite field_step_nan by exact H.
  destruct (lt _ _); exact IH.
Qed.

Lemma set_frequency_others v a :
  _numElements (set_frequency v a) = _numElements a /\
  _pitch (set_frequency v a) = _pitch a /\
  _orientation (set_frequency v a) = _orientation a /\
  _position (set_frequency v a) = _position a /\
  _geometry (set_frequency v a) = _geometry a /\
  _enabled (set_frequency v a) = _enabled a /\
  _speedOfSound (set_frequency v a) = _speedOfSound a.
Proof. repeat split; reflexivity. Qed.

(** The first two elements of the default array, whatever its frequency. *)
Lemma unbounded_elements :
  pos_x (element_at (refreshed unbounded_array) 0) = Fin (-0.0375) /\
  pos_y (element_at (refreshed unbounded_array) 0) = Fin (-0.1) /\
  pos_x (element_at (refreshed unbounded_array) 1) = Fin (-0.0325) /\
  pos_y (element_at (refreshed unbounded_array) 1) = Fin (-0.1).
Proof.
  destruct (set_frequency_others PInf default_array)
    as (En & Ep & Eo & EP & Eg & _).
  destruct default_configuration as (Hg & Hp & Ho & HP & _).
  pose proof default_numElements as Hn.
  fold unbounded_array in En, Ep, Eo, EP, Eg.
  rewrite <- En in Hn. rewrite <- Ep in Hp.
  rewrite <- Eo in Ho. rewrite <- EP in HP. rewrite <- Eg in Hg.
  destruct (linear_element_coordinates unbounded_array 16 0.005 0 0 (-0.1)
              Hn Hp Ho HP 0 Hg) as [X0 Y0].
  destruct (linear_element_coordinates unbounded_array 16 0.005 0 0 (-0.1)
              Hn Hp Ho HP 1 Hg) as [X1 Y1].
  rewrite X0, Y0, X1, Y1.
  replace (0 * PI / 180) with 0 by lra. rewrite sin_0, cos_0.
  rewrite (INR_IZR_INZ 16), (INR_IZR_INZ 0), (INR_IZR_INZ 1). cbn [Z.of_nat
    Pos.of_succ_nat Pos.succ].
  repeat split; f_equal; lra.
Qed.

Lemma unbounded_numElements : _numElements unbounded_array = Fin (INR 16).
Proof.
  unfold unbounded_array.
  rewrite (proj1 (set_frequency_others PInf default_array)).
  exact default_numElements.
Qed.

Lemma reachable_unbounded : reachable unbounded_array.
Proof. exact (reach_set (SetFrequency _) _ reachable_default). Qed.

(** C6, counterexample: the frequency setter clamps from below only, so
    [frequency = Infinity] is accepted.  The default array is then still
    enabled, its first element is at [(-0.0375, -0.1)], and the field
    queried exactly there at time 0 is NaN: the wavelength is 0,
    [omega * 0] is [Infinity * 0 = NaN], and the second element, 5 mm away,
    is not skipped. *)
Lemma field_nan_at_infinite_frequency :
  reachable unbounded_array /\ _enabled unbounded_array = true /\
  _frequency unbounded_array = PInf /\
  (exists e0,
     nth_error (_elementPositions (recalculated unbounded_array 16)) 0
     = Some e0 /\
     pos_x e0 = Fin (-0.0375) /\ pos_y e0 = Fin (-0.1)) /\
  calculateFieldAt 16 unbounded_array (Fin (-0.0375)) (Fin (-0.1))
                   (Some (Fin 0))
  = Ok (recalculated unbounded_array 16, NaN).
Proof.
  destruct unbounded_elements as (X0 & Y0 & X1 & Y1).
  assert (Hfr : _frequency unbounded_array = PInf) by reflexivity.
  assert (Hen : _enabled unbounded_array = true).
  { unfold unbounded_array.
    now rewrite (proj1 (proj2 (proj2 (proj2 (proj2 (proj2
                  (set_frequency_others PInf default_array))))))). }
  split; [exact reachable_unbounded|]. split; [exact Hen|].
  split; [exact Hfr|]. split.
  { eexists. split; [apply recalculated_nth; lia|]. now split. }
  unfold calculateFieldAt.
  rewrite (ensureCalculated_nat 16 unbounded_array 16
             (reachable_coherent _ reachable_unbounded)
             unbounded_numElements (le_n 16)).
  cbn [bind].
  destruct (recalculated_fields unbounded_array 16)
    as (Ep & _ & _ & Ee & _ & _ & Efr).
  rewrite Ee, Hen. cbn [negb]. rewrite Ep, forEach_seq, Efr, Hfr.
  assert (H : mul (mul (mul (Fin 2) Math.PI) PInf) (Fin 0) = NaN).
  { unfold Math.PI. cbn [mul]. rewrite Rsign_pos by (pose proof PI_RGT_0; lra).
    cbn [inf_of mul]. now rewrite (Rsign_zero 0 eq_refl). }
  apply f_equal. apply f_equal.
  change (seq 0 16) with (0 :: 1 :: seq 2 14)%nat. cbn [fold_left].
  rewrite !field_step_nan by exact H.
  assert (S0 : lt (distance_to (Fin (-0.0375)) (Fin (-0.1))
                     (element_at (refreshed unbounded_array) 0))
                  (Fin 0.0001) = true).
  { pose proof (coincident_skipped (-0.0375) (-0.1) _ NaN X0 Y0) as K.
    unfold contributes in K. cbn [fst] in K.
    now apply Bool.negb_false_iff in K. }
  assert (S1 : lt (distance_to (Fin (-0.0375)) (Fin (-0.1))
                     (element_at (refreshed unbounded_array) 1))
                  (Fin 0.0001) = false).
  { unfold distance_to. rewrite X1, Y1. fin_arith.
    rewrite sqrt_Fin by apply sum_squares_nonneg. cbn [lt].
    destruct (Rlt_dec _ 0.0001) as [C|_]; [exfalso|reflexivity].
    assert (L : sqrt (0.005 * 0.005)
                <= sqrt ((-0.0375 + - -0.0325) * (-0.0375 + - -0.0325)
                         + (-0.1 + - -0.1) * (-0.1 + - -0.1))).
    { apply sqrt_le_1_alt. lra. }
    rewrite sqrt_square in L by lra. lra. }
  rewrite S0, S1. apply field_fold_nan. exact H.
Qed.
